(** * ChainCall: the instruction codec of [AnchorMode.tsx]

    A shallow embedding of the codec found in
    [Frontend/client/src/pages/AnchorMode.tsx] (the second, current copy of
    the page, lines 655 onwards): the discriminator deriver
    ([toSnakeCase], [getInstructionDiscriminator]), the type resolver
    ([resolveArgType]), the range validators ([ensureBigIntRange],
    [ensureNumberRange]), the argument encoder (the [try] block of
    [handleSend]) and the return decoder ([readBigIntFromBuffer],
    [decodeWithLayout]); and, around the codec, the handlers that edit the
    return layout, [formatReturnData], the account check, the request and
    the [catch] of [handleSend], [isValidProgramId] and the effect that
    fills in the system program.

    Conventions.
    - A JavaScript string is a Rocq [string] holding its UTF-8 bytes, so
      [Buffer.from(s, "utf8")] is the list of its bytes.  The only
      character tests of the source are on ASCII characters, whose bytes
      never occur inside a multi-byte UTF-8 sequence.
    - A byte is a [Z] in [0, 256); a [Buffer] is a [list Z].
    - BigInt values, and the integral doubles that survive
      [parseIntegerInput], are [Z]; [Number] rounds a literal to the
      nearest double before anything is asked of it.
    - The state objects [argValues] and [accountValues] are plain objects:
      a [gmap] holds the properties that were set, and a read under a name
      that was never set finds what [Object.prototype] defines under that
      name, if anything ([reads_inherited]).
    - A function that can throw returns a [result]; the exception carries
      its class and message. *)

From Stdlib Require Import ZArith String Ascii List Lia Bool.
From Stdlib Require Import DecimalString DecimalZ DecimalPos.
From stdpp Require Import base strings gmap list.

Local Open Scope Z_scope.

(** ** Exceptions *)

(** The exception classes that can reach the [catch] blocks: the [Error]s
    thrown by the page itself, the [RangeError]s of the [buffer] package
    and the [TypeError] of [BigInt(undefined)]. *)
Inductive exn : Type :=
| Error (message : string)
| RangeError (message : string)
| TypeError (message : string).

Definition exn_message (e : exn) : string :=
  match e with
  | Error m | RangeError m | TypeError m => m
  end.

Inductive result (A : Type) : Type :=
| Ok (a : A)
| Throw (e : exn).
Arguments Ok {A} a.
Arguments Throw {A} e.

#[global] Instance result_ret : MRet result := fun A a => Ok a.
#[global] Instance result_bind : MBind result := fun A B k r =>
  match r with
  | Ok a => k a
  | Throw e => Throw e
  end.

(** ** Characters and strings *)

Definition code (c : ascii) : Z := Z.of_N (N_of_ascii c).
Definition chr (z : Z) : ascii := ascii_of_N (Z.to_N z).

Definition is_upper (c : ascii) : bool := (65 <=? code c) && (code c <=? 90).
Definition is_digit (c : ascii) : bool := (48 <=? code c) && (code c <=? 57).

(** [c.toLowerCase()] on one ASCII character. *)
Definition lower_char (c : ascii) : ascii :=
  if is_upper c then chr (code c + 32) else c.

(** [Buffer.from(s, "utf8")]. *)
Definition utf8_bytes (s : string) : list Z := map code (list_ascii_of_string s).

(** The text whose UTF-8 bytes are the given ones. *)
Definition string_of_bytes (l : list Z) : string :=
  string_of_list_ascii (map chr l).

(** [s.startsWith(p)]. *)
Fixpoint startsWith (p s : string) : bool :=
  match p, s with
  | EmptyString, _ => true
  | String a p', String b s' => Ascii.eqb a b && startsWith p' s'
  | String _ _, EmptyString => false
  end.

(** [s.includes(p)]. *)
Fixpoint includes (p s : string) : bool :=
  startsWith p s ||
  match s with
  | EmptyString => false
  | String _ s' => includes p s'
  end.

(** [String.prototype.toLowerCase], exact whenever the result is compared
    with an ASCII literal, the only use the codec makes of it: ASCII
    capitals are folded, U+212A KELVIN SIGN (bytes E2 84 AA) becomes [k],
    and every other non-ASCII character lower-cases to text that is not
    ASCII either, so it is left as it is. *)
Fixpoint toLowerCase (s : string) : string :=
  match s with
  | String "226" (String "132" (String "170" r)) => String "k" (toLowerCase r)
  | String c r => String (lower_char c) (toLowerCase r)
  | EmptyString => EmptyString
  end.

Fixpoint bytes_start (p l : list Z) : bool :=
  match p, l with
  | [], _ => true
  | a :: p', b :: l' => (a =? b) && bytes_start p' l'
  | _ :: _, [] => false
  end.

(** The white space and line terminators of ECMAScript, in UTF-8: TAB, LF,
    VT, FF, CR, SP, U+00A0, U+1680, U+2000..U+200A, U+2028, U+2029, U+202F,
    U+205F, U+3000 and U+FEFF. *)
Definition white_space : list (list Z) :=
  [ [9]; [10]; [11]; [12]; [13]; [32]; [194; 160]; [225; 154; 128];
    [226; 128; 128]; [226; 128; 129]; [226; 128; 130]; [226; 128; 131];
    [226; 128; 132]; [226; 128; 133]; [226; 128; 134]; [226; 128; 135];
    [226; 128; 136]; [226; 128; 137]; [226; 128; 138];
    [226; 128; 168]; [226; 128; 169]; [226; 128; 175];
    [226; 129; 159]; [227; 128; 128]; [239; 187; 191] ].

(** The length in bytes of the white space at the head of the text, [0]
    when there is none. *)
Definition ws_head (l : list Z) : nat :=
  match find (fun p => bytes_start p l) white_space with
  | Some p => length p
  | None => O
  end.

(** The same at the end of the text, given reversed. *)
Definition ws_last (r : list Z) : nat :=
  match find (fun p => bytes_start (rev p) r) white_space with
  | Some p => length p
  | None => O
  end.

Fixpoint strip (ws : list Z → nat) (fuel : nat) (l : list Z) : list Z :=
  match fuel with
  | O => l
  | S fuel' =>
      match ws l with
      | O => l
      | n => strip ws fuel' (drop n l)
      end
  end.

(** [String.prototype.trim]. *)
Definition trim (s : string) : string :=
  let l := utf8_bytes s in
  let l1 := strip ws_head (length l) l in
  let l2 := rev (strip ws_last (length l1) (rev l1)) in
  string_of_bytes l2.

(** [BigInt.prototype.toString()], and the decimal text of the integers
    of [ensureBytes] and of the default names. *)
Definition Z_to_string (z : Z) : string := NilZero.string_of_int (Z.to_int z).

(** ** Numeric literals: [BigInt(text)] and [Number(text)] *)

(** The value of a digit in the given radix. *)
Definition digit_val (radix : Z) (c : ascii) : option Z :=
  let n := code c in
  let v := if (48 <=? n) && (n <=? 57) then n - 48
           else if (97 <=? n) && (n <=? 122) then n - 87
           else if (65 <=? n) && (n <=? 90) then n - 55
           else radix in
  if v <? radix then Some v else None.

(** A non-empty run of digits that reaches the end of the text. *)
Fixpoint digits_from (radix acc : Z) (l : list ascii) : option Z :=
  match l with
  | [] => Some acc
  | c :: r =>
      match digit_val radix c with
      | Some v => digits_from radix (acc * radix + v) r
      | None => None
      end
  end.

Definition all_digits (radix : Z) (l : list ascii) : option Z :=
  match l with
  | [] => None
  | _ :: _ => digits_from radix 0 l
  end.

Definition is_char (c : ascii) (s : string) : bool :=
  match s with
  | String d EmptyString => Ascii.eqb c d
  | _ => false
  end.

(** The radix announced by a [0x], [0o] or [0b] prefix, and the digits
    after it. *)
Definition radix_prefix (l : list ascii) : option (Z * list ascii) :=
  match l with
  | z :: p :: r =>
      if is_char z "0" then
        if is_char p "x" || is_char p "X" then Some (16, r)
        else if is_char p "o" || is_char p "O" then Some (8, r)
        else if is_char p "b" || is_char p "B" then Some (2, r)
        else None
      else None
  | _ => None
  end.

(** [BigInt(text)] (StringToBigInt): [None] is the [SyntaxError]. *)
Definition BigInt (s : string) : option Z :=
  let t := list_ascii_of_string (trim s) in
  match t with
  | [] => Some 0
  | c :: r =>
      match radix_prefix t with
      | Some (radix, ds) => all_digits radix ds
      | None =>
          if is_char c "+" then all_digits 10 r
          else if is_char c "-" then Z.opp <$> all_digits 10 r
          else all_digits 10 t
      end
  end.

(** The doubles that [Number(text)] can return, as far as
    [parseIntegerInput] tells them apart: not a number, infinite, an
    integer (every double of magnitude 2^52 or more is one), or a finite
    double that is not an integer.  The sign of an infinity and of zero is
    left out: nothing in the page depends on it. *)
Inductive number : Type :=
| NaN
| Infinity
| Integral (z : Z)
| Fraction.

(** The integer nearest to [a / b], for [b] positive: a quotient half way
    between two integers goes to the even one. *)
Definition round_half_even (a b : Z) : Z :=
  let q := a / b in
  let r := a mod b in
  if 2 * r <? b then q
  else if b <? 2 * r then q + 1
  else if Z.even q then q else q + 1.

(** The exponent [k] with [2^k <= n / d < 2^(k+1)], for [n] and [d]
    positive. *)
Definition binary_exponent (n d : Z) : Z :=
  if d <=? n then Z.log2 (n / d) else - Z.log2_up ((d + n - 1) / n).

(** The double nearest to the rational [n / d], for [n] not negative and
    [d] positive (IEEE 754 binary64, round to nearest, ties to even): the
    value is rounded to a multiple of [2^e], where [e] is 52 places below
    its binary exponent and never below -1074; from [2^1024] on the
    result is infinite. *)
Definition nearest_double (n d : Z) : number :=
  if n =? 0 then Integral 0
  else
    let e := Z.max (binary_exponent n d) (-1022) - 52 in
    if 0 <=? e then
      let m := round_half_even n (d * 2 ^ e) in
      if 2 ^ 1024 <=? m * 2 ^ e then Infinity else Integral (m * 2 ^ e)
    else
      let m := round_half_even (n * 2 ^ (- e)) d in
      if m mod 2 ^ (- e) =? 0 then Integral (m / 2 ^ (- e)) else Fraction.

Fixpoint span_digits (l : list ascii) : list ascii * list ascii :=
  match l with
  | c :: r =>
      if is_digit c then let '(ds, rest) := span_digits r in (c :: ds, rest)
      else ([], l)
  | [] => ([], [])
  end.

Definition digits_value (ds : list ascii) : Z :=
  fold_left (fun acc c => acc * 10 + (code c - 48)) ds 0.

(** ExponentPart, when the text goes on after the digits. *)
Definition exponent_part (l : list ascii) : option Z :=
  match l with
  | [] => Some 0
  | c :: r =>
      if is_char c "e" || is_char c "E" then
        let '(sign, r') :=
          match r with
          | d :: r' => if is_char d "+" then (1, r')
                       else if is_char d "-" then (-1, r') else (1, r)
          | [] => (1, r)
          end in
        match span_digits r' with
        | (d :: ds, []) => Some (sign * digits_value (d :: ds))
        | _ => None
        end
      else None
  end.

(** StrUnsignedDecimalLiteral: the double nearest to the value the digits
    and the exponent spell. *)
Definition unsigned_decimal (l : list ascii) : number :=
  if String.eqb (string_of_list_ascii l) "Infinity" then Infinity
  else
    let '(ip, r1) := span_digits l in
    let '(fp, r2) :=
      match r1 with
      | c :: r => if is_char c "." then span_digits r else ([], r1)
      | [] => ([], r1)
      end in
    match ip ++ fp with
    | [] => NaN
    | ds =>
        match exponent_part r2 with
        | None => NaN
        | Some e =>
            let m := digits_value ds in
            let scale := e - Z.of_nat (length fp) in
            if 0 <=? scale then nearest_double (m * 10 ^ scale) 1
            else nearest_double m (10 ^ (- scale))
        end
    end.

Definition negate (n : number) : number :=
  match n with
  | Integral z => Integral (- z)
  | _ => n
  end.

(** [Number(text)] (StringToNumber), correctly rounded. *)
Definition Number (s : string) : number :=
  let t := list_ascii_of_string (trim s) in
  match t with
  | [] => Integral 0
  | c :: r =>
      match radix_prefix t with
      | Some (radix, ds) =>
          match all_digits radix ds with
          | Some v => nearest_double v 1
          | None => NaN
          end
      | None =>
          if is_char c "+" then unsigned_decimal r
          else if is_char c "-" then negate (unsigned_decimal r)
          else unsigned_decimal t
      end
  end.

(** The number of decimal digits of a positive integer. *)
Definition decimal_length (x : Z) : Z :=
  Z.of_nat (String.length (NilZero.string_of_int (Z.to_int x))).

(** The digits [s] of [Number::toString] for an integral double [x] when
    [k] digits are tried and the value is taken to have [n] digits before
    the point: of the two multiples of [10^(n-k)] around [x], those that
    have [k] digits and whose nearest double is [x], the one nearer to
    [x] first. *)
Definition digits_for (x k n : Z) : option Z :=
  let p := 10 ^ (n - k) in
  let fine (s : Z) : bool :=
    (10 ^ (k - 1) <=? s) && (s <? 10 ^ k)
    && match nearest_double (s * p) 1 with
       | Integral y => y =? x
       | _ => false
       end in
  let lo := x / p in
  let hi := lo + 1 in
  let lo_first :=
    (x - lo * p <? hi * p - x) || ((x - lo * p =? hi * p - x) && Z.even lo) in
  let '(first, second) := if lo_first then (lo, hi) else (hi, lo) in
  if n <? k then None
  else if fine first then Some first
  else if fine second then Some second
  else None.

(** The least number of digits that give the double back, with the digits
    and the place of the point. *)
Fixpoint shortest_digits (fuel : nat) (x k : Z) : Z * Z * Z :=
  let d := decimal_length x in
  match fuel with
  | O => (x, d, d)
  | S fuel' =>
      match digits_for x k d, digits_for x k (d + 1) with
      | Some s, _ => (s, k, d)
      | None, Some s => (s, k, d + 1)
      | None, None => shortest_digits fuel' x (k + 1)
      end
  end.

Definition zeros (n : Z) : string := string_of_list_ascii (replicate (Z.to_nat n) "0"%char).

(** [Number.prototype.toString()] on an integral double: the shortest
    digits that give the double back, followed by zeros up to 21 digits
    in all, and in exponent notation beyond. *)
Definition Number_toString (v : Z) : string :=
  if v =? 0 then "0"
  else
    let '(s, k, n) := shortest_digits 17 (Z.abs v) 1 in
    let digits := NilZero.string_of_int (Z.to_int s) in
    (if v <? 0 then "-" else "")
    +:+ (if n <=? 21 then digits +:+ zeros (n - k)
         else
           match digits with
           | String first EmptyString => digits
           | String first rest => String first ("." +:+ rest)
           | EmptyString => digits
           end +:+ "e+" +:+ NilZero.string_of_int (Z.to_int (n - 1))).

(** ** Hexadecimal text *)

Definition hex_digit (v : Z) : ascii :=
  if v <? 10 then chr (48 + v) else chr (87 + v).

(** [buf.toString("hex")]. *)
Fixpoint hex_of_bytes (l : list Z) : string :=
  match l with
  | [] => EmptyString
  | b :: r => String (hex_digit (b / 16)) (String (hex_digit (b mod 16)) (hex_of_bytes r))
  end.

(** [Buffer.from(text, "hex")]: the bytes of the leading pairs of
    hexadecimal digits. *)
Fixpoint bytes_of_hex (s : string) : list Z :=
  match s with
  | String a (String b r) =>
      match digit_val 16 a, digit_val 16 b with
      | Some x, Some y => (16 * x + y) :: bytes_of_hex r
      | _, _ => []
      end
  | _ => []
  end.

(** The big-endian bytes of a value, [n] of them, and back. *)
Fixpoint be_bytes (n : nat) (v : Z) : list Z :=
  match n with
  | O => []
  | S n' => be_bytes n' (v / 256) ++ [v mod 256]
  end.

Definition be_value (l : list Z) : Z := fold_left (fun acc b => acc * 256 + b) l 0.

(** ** SHA-256 (FIPS 180-4), the hash behind [sha256] of [js-sha256] *)

Module SHA256.

Definition word : Type := Z.
Definition state : Type := (word * word * word * word * word * word * word * word)%type.

Definition wrap (x : Z) : word := x mod 2 ^ 32.
Definition rotr (n : Z) (x : word) : word :=
  Z.lor (Z.shiftr x n) (wrap (Z.shiftl x (32 - n))).
Definition xor3 (a b c : word) : word := Z.lxor (Z.lxor a b) c.

Definition Ch (x y z : word) : word :=
  Z.lxor (Z.land x y) (Z.land (Z.lnot x) z).
Definition Maj (x y z : word) : word :=
  xor3 (Z.land x y) (Z.land x z) (Z.land y z).
Definition bsig0 (x : word) : word := xor3 (rotr 2 x) (rotr 13 x) (rotr 22 x).
Definition bsig1 (x : word) : word := xor3 (rotr 6 x) (rotr 11 x) (rotr 25 x).
Definition ssig0 (x : word) : word := xor3 (rotr 7 x) (rotr 18 x) (Z.shiftr x 3).
Definition ssig1 (x : word) : word := xor3 (rotr 17 x) (rotr 19 x) (Z.shiftr x 10).

Definition round_constants : list word :=
  [ 0x428A2F98; 0x71374491; 0xB5C0FBCF; 0xE9B5DBA5;
    0x3956C25B; 0x59F111F1; 0x923F82A4; 0xAB1C5ED5;
    0xD807AA98; 0x12835B01; 0x243185BE; 0x550C7DC3;
    0x72BE5D74; 0x80DEB1FE; 0x9BDC06A7; 0xC19BF174;
    0xE49B69C1; 0xEFBE4786; 0x0FC19DC6; 0x240CA1CC;
    0x2DE92C6F; 0x4A7484AA; 0x5CB0A9DC; 0x76F988DA;
    0x983E5152; 0xA831C66D; 0xB00327C8; 0xBF597FC7;
    0xC6E00BF3; 0xD5A79147; 0x06CA6351; 0x14292967;
    0x27B70A85; 0x2E1B2138; 0x4D2C6DFC; 0x53380D13;
    0x650A7354; 0x766A0ABB; 0x81C2C92E; 0x92722C85;
    0xA2BFE8A1; 0xA81A664B; 0xC24B8B70; 0xC76C51A3;
    0xD192E819; 0xD6990624; 0xF40E3585; 0x106AA070;
    0x19A4C116; 0x1E376C08; 0x2748774C; 0x34B0BCB5;
    0x391C0CB3; 0x4ED8AA4A; 0x5B9CCA4F; 0x682E6FF3;
    0x748F82EE; 0x78A5636F; 0x84C87814; 0x8CC70208;
    0x90BEFFFA; 0xA4506CEB; 0xBEF9A3F7; 0xC67178F2 ].

Definition initial : state :=
  (0x6A09E667, 0xBB67AE85, 0x3C6EF372, 0xA54FF53A,
   0x510E527F, 0x9B05688C, 0x1F83D9AB, 0x5BE0CD19).

(** The message, a one bit, zero bits up to 448 modulo 512, and the
    length in bits on 64 bits. *)
Definition pad (msg : list Z) : list Z :=
  let len := Z.of_nat (length msg) in
  msg ++ [128] ++ replicate (Z.to_nat ((55 - len) mod 64)) 0 ++ be_bytes 8 (8 * len).

Fixpoint chunks {A : Type} (size count : nat) (l : list A) : list (list A) :=
  match count with
  | O => []
  | S count' => take size l :: chunks size count' (drop size l)
  end.

(** The message schedule: the sixteen words of the block, then
    forty-eight derived ones. *)
Fixpoint schedule (n : nat) (w : list word) : list word :=
  match n with
  | O => w
  | S n' =>
      let back (k : nat) := nth (length w - k)%nat w 0 in
      schedule n' (w ++ [wrap (ssig1 (back 2%nat) + back 7%nat
                               + ssig0 (back 15%nat) + back 16%nat)])
  end.

Definition round (st : state) (kw : word) : state :=
  let '(a, b, c, d, e, f, g, h) := st in
  let t1 := h + bsig1 e + Ch e f g + kw in
  let t2 := bsig0 a + Maj a b c in
  (wrap (t1 + t2), a, b, c, wrap (d + t1), e, f, g).

Definition compress (st : state) (block : list word) : state :=
  let kw := zip_with Z.add round_constants (schedule 48 block) in
  let '(a, b, c, d, e, f, g, h) := fold_left round kw st in
  let '(a0, b0, c0, d0, e0, f0, g0, h0) := st in
  (wrap (a0 + a), wrap (b0 + b), wrap (c0 + c), wrap (d0 + d),
   wrap (e0 + e), wrap (f0 + f), wrap (g0 + g), wrap (h0 + h)).

Definition digest (msg : list Z) : list Z :=
  let p := pad msg in
  let ws := map be_value (chunks 4 (length p / 4) p) in
  let blocks := chunks 16 (length ws / 16) ws in
  let '(a, b, c, d, e, f, g, h) := fold_left compress blocks initial in
  be_bytes 4 a ++ be_bytes 4 b ++ be_bytes 4 c ++ be_bytes 4 d ++
  be_bytes 4 e ++ be_bytes 4 f ++ be_bytes 4 g ++ be_bytes 4 h.

End SHA256.

(** [sha256(text)] of [js-sha256]: the digest of the UTF-8 bytes, in
    hexadecimal. *)
Definition sha256 (s : string) : string := hex_of_bytes (SHA256.digest (utf8_bytes s)).

(** ** Discriminator deriver *)

(** The first [replace] of [toSnakeCase]: every match of [/([A-Z])/g] is
    replaced by its lower-case form, with an underscore in front when the
    match is not at offset 0. *)
Fixpoint replace_capitals (offset : nat) (s : string) : string :=
  match s with
  | EmptyString => EmptyString
  | String c r =>
      if is_upper c then
        (if (0 <? offset)%nat then "_" else "")
          +:+ String (lower_char c) (replace_capitals (S offset) r)
      else String c (replace_capitals (S offset) r)
  end.

(** The second [replace], of [/^_/] by the empty string. *)
Definition remove_leading_underscore (s : string) : string :=
  match s with
  | String c r => if is_char c "_" then r else s
  | EmptyString => s
  end.

Definition toSnakeCase (str : string) : string :=
  remove_leading_underscore (replace_capitals 0 str).

(** [Buffer.slice(start, end)] with both bounds non-negative: the end is
    clamped to the length. *)
Definition slice (buf : list Z) (start stop : Z) : list Z :=
  drop (Z.to_nat start) (take (Z.to_nat stop) buf).

Definition getInstructionDiscriminator (instructionName : string) : list Z :=
  let snakeCaseName := toSnakeCase instructionName in
  let hash := sha256 ("global:" +:+ snakeCaseName) in
  slice (bytes_of_hex hash) 0 8.

(** The normalization as the specification words it: an underscore before
    every upper-case letter that is not the first character, then the
    whole text in lower case. *)
Fixpoint spec_underscores (first : bool) (s : string) : string :=
  match s with
  | EmptyString => EmptyString
  | String c r =>
      if is_upper c && negb first
      then String "_" (String c (spec_underscores false r))
      else String c (spec_underscores false r)
  end.

Fixpoint spec_lower (s : string) : string :=
  match s with
  | EmptyString => EmptyString
  | String c r => String (lower_char c) (spec_lower r)
  end.

Definition spec_snake_case (name : string) : string :=
  spec_lower (spec_underscores true name).

Definition spec_discriminator (name : string) : list Z :=
  take 8 (SHA256.digest (utf8_bytes ("global:" +:+ spec_snake_case name))).

(** ** Type resolver *)

Set Warnings "-register-all".

(** The value of [IdlArg.type] as [res.json()] delivers it.  An object is
    the list of its own properties; a number is kept when it is integral. *)
Inductive json : Type :=
| JNull
| JBool (b : bool)
| JNum (n : Z)
| JStr (s : string)
| JArr (items : list json)
| JObj (props : list (string * json)).

(** [key in obj]. *)
Definition has_key (key : string) (props : list (string * json)) : bool :=
  existsb (fun p => String.eqb (fst p) key) props.

(** [obj.key], [None] being [undefined]. *)
Fixpoint get_key (key : string) (props : list (string * json)) : option json :=
  match props with
  | [] => None
  | (k, v) :: r => if String.eqb k key then Some v else get_key key r
  end.

(** ToBoolean. *)
Definition truthy (v : json) : bool :=
  match v with
  | JNull => false
  | JBool b => b
  | JNum n => negb (n =? 0)
  | JStr s => negb (String.eqb s "")
  | JArr _ | JObj _ => true
  end.

Definition join (sep : string) (l : list string) : string :=
  match l with
  | [] => ""
  | x :: r => fold_left (fun acc y => acc +:+ sep +:+ y) r x
  end.

(** [String(v)]: an array joins the texts of its items with commas, a
    [null] item giving the empty text. *)
Fixpoint js_String (v : json) : string :=
  match v with
  | JNull => "null"
  | JBool true => "true"
  | JBool false => "false"
  | JNum n => Z_to_string n
  | JStr s => s
  | JArr items =>
      join "," (map (fun i => match i with JNull => "" | _ => js_String i end) items)
  | JObj _ => "[object Object]"
  end.

(** [resolveArgType].  The recursive calls are on the value stored under
    the [option] (or [coption]) key; [key in obj] holds there, so the
    lookup finds it. *)
Fixpoint resolveArgType (type : json) : string :=
  match type with
  | JStr s => s
  | JObj obj =>
      if has_key "defined" obj then
        match get_key "defined" obj with
        | Some d => if truthy d then js_String d else "string"
        | None => "string"
        end
      else if has_key "vec" obj then "vec"
      else if has_key "option" obj then
        (fix lookup (props : list (string * json)) : string :=
           match props with
           | [] => "string"
           | (k, v) :: r => if String.eqb k "option" then resolveArgType v else lookup r
           end) obj
      else if has_key "coption" obj then
        (fix lookup (props : list (string * json)) : string :=
           match props with
           | [] => "string"
           | (k, v) :: r => if String.eqb k "coption" then resolveArgType v else lookup r
           end) obj
      else if has_key "array" obj then "array"
      else "string"
  | _ => "string"
  end.

(** The tagged variant of the specification, and the shape each case has
    in an Anchor interface description. *)
Inductive TypeDescriptor : Type :=
| Primitive (kind : string)
| Vector (elem : TypeDescriptor)
| Option (elem : TypeDescriptor)
| CompatOption (elem : TypeDescriptor)
| Array (elem : TypeDescriptor) (len : Z)
| Defined (name : string).

Fixpoint to_json (t : TypeDescriptor) : json :=
  match t with
  | Primitive kind => JStr kind
  | Vector e => JObj [("vec", to_json e)]
  | Option e => JObj [("option", to_json e)]
  | CompatOption e => JObj [("coption", to_json e)]
  | Array e n => JObj [("array", JArr [to_json e; JNum n])]
  | Defined name => JObj [("defined", JStr name)]
  end.

(** ** Reading a plain object *)

(** The value maps of the page ([argValues], [accountValues],
    [generatedKeypairs]) are plain objects, and so is the table
    [numericTypes] of the decoder: a read [obj[key]] of a key that was
    never set finds what every object inherits from [Object.prototype].
    These are its properties, each with the [length] of the function found
    under it; [__proto__] is an accessor that gives [Object.prototype]
    itself, an object without a [length]. *)
Definition object_prototype : list (string * option Z) :=
  [ ("constructor", Some 1); ("__defineGetter__", Some 2);
    ("__defineSetter__", Some 2); ("hasOwnProperty", Some 1);
    ("__lookupGetter__", Some 1); ("__lookupSetter__", Some 1);
    ("isPrototypeOf", Some 1); ("propertyIsEnumerable", Some 1);
    ("toString", Some 0); ("valueOf", Some 0); ("__proto__", None);
    ("toLocaleString", Some 0) ].

(** [key in Object.prototype]. *)
Definition inherited (key : string) : bool :=
  existsb (fun p => String.eqb (fst p) key) object_prototype.

(** [Object.prototype[key].length], [None] being [undefined]. *)
Definition inherited_length (key : string) : option Z :=
  match find (fun p => String.eqb (fst p) key) object_prototype with
  | Some (_, len) => len
  | None => None
  end.

(** [String(Object.prototype[key])], as V8 prints a built-in function. *)
Definition inherited_text (key : string) : string :=
  if String.eqb key "__proto__" then "[object Object]"
  else "function " +:+ (if String.eqb key "constructor" then "Object" else key)
       +:+ "() { [native code] }".

(** The read [obj[key]] finds an inherited property: the key was never
    set in the object, and [Object.prototype] defines it. *)
Definition reads_inherited {A : Type} (obj : gmap string A) (key : string) : bool :=
  match obj !! key with
  | Some _ => false
  | None => inherited key
  end.

(** ** Base-58 text of account identifiers ([bs58], behind [PublicKey]) *)

Definition base58_alphabet : list ascii :=
  list_ascii_of_string "123456789ABCDEFGHJKLMNPQRSTUVWXYZabcdefghijkmnopqrstuvwxyz".

Fixpoint index_of (c : ascii) (l : list ascii) (i : Z) : option Z :=
  match l with
  | [] => None
  | d :: r => if Ascii.eqb c d then Some i else index_of c r (i + 1)
  end.

Fixpoint base58_value (acc : Z) (l : list ascii) : option Z :=
  match l with
  | [] => Some acc
  | c :: r =>
      match index_of c base58_alphabet 0 with
      | Some v => base58_value (acc * 58 + v) r
      | None => None
      end
  end.

(** The big-endian bytes of a number, without leading zero bytes. *)
Definition minimal_bytes (n : Z) : list Z :=
  if n <=? 0 then [] else be_bytes (Z.to_nat (Z.log2 n / 8 + 1)) n.

Fixpoint leading {A : Type} (is_zero : A → bool) (l : list A) : nat :=
  match l with
  | x :: r => if is_zero x then S (leading is_zero r) else O
  | [] => O
  end.

(** [bs58.decode]: [None] when a character is outside the alphabet. *)
Definition bs58_decode (s : string) : option (list Z) :=
  let l := list_ascii_of_string s in
  n ← base58_value 0 l;
  Some (replicate (leading (fun c => is_char c "1") l) 0 ++ minimal_bytes n).

Fixpoint base58_digits (fuel : nat) (n : Z) (acc : list ascii) : list ascii :=
  match fuel with
  | O => acc
  | S fuel' =>
      if n <=? 0 then acc
      else base58_digits fuel' (n / 58) (nth (Z.to_nat (n mod 58)) base58_alphabet "1"%char :: acc)
  end.

(** [bs58.encode]. *)
Definition bs58_encode (bytes : list Z) : string :=
  string_of_list_ascii
    (replicate (leading (Z.eqb 0) bytes) "1"%char
     ++ base58_digits (2 * length bytes) (be_value bytes) []).

(** [new PublicKey(value).toBuffer()] on the text of an argument: [None]
    when the constructor throws, which it does on [undefined], on text
    that is not base-58 and on text that does not decode to 32 bytes. *)
Definition PublicKey_toBuffer (value : option string) : option (list Z) :=
  s ← value;
  bytes ← bs58_decode s;
  if (length bytes =? 32)%nat then Some bytes else None.

(** [new PublicKey(bytes).toBase58()] on 32 bytes. *)
Definition PublicKey_toBase58 (bytes : list Z) : string := bs58_encode bytes.

(** ** The [Buffer] of the [buffer] package *)

Definition dquote : string := String (ascii_of_nat 34) EmptyString.

(** The length no [Buffer] exceeds ([K_MAX_LENGTH] of the package). *)
Definition K_MAX_LENGTH : Z := 0x7fffffff.

(** [Buffer.alloc(n)]. *)
Definition Buffer_alloc (n : nat) : list Z := replicate n 0.

(** [buf[i] = v] on the typed array under a [Buffer]: an index outside
    the array is ignored, the value is stored modulo 256. *)
Definition set_index (buf : list Z) (i v : Z) : list Z :=
  if 0 <=? i then <[Z.to_nat i := v mod 256]> buf else buf.

(** Consecutive indexed stores. *)
Fixpoint set_bytes (buf : list Z) (pos : Z) (bytes : list Z) : list Z :=
  match bytes with
  | [] => buf
  | b :: r => set_bytes (set_index buf pos b) (pos + 1) r
  end.

(** [source.copy(target, targetStart)]: as many leading bytes of the
    source as fit in the target from [targetStart] on. *)
Definition Buffer_copy (source target : list Z) (targetStart : Z) : list Z :=
  let room := Z.of_nat (length target) - targetStart in
  set_bytes target targetStart (take (Z.to_nat room) source).

(** [n] little-endian bytes of a value. *)
Fixpoint le_bytes (n : nat) (v : Z) : list Z :=
  match n with
  | O => []
  | S n' => v mod 256 :: le_bytes n' (v / 256)
  end.

(** [checkInt] of the package: the value first, then the room. *)
Definition checkInt (buf : list Z) (value offset ext max min : Z) : result unit :=
  if (max <? value) || (value <? min)
  then Throw (RangeError (dquote +:+ "value" +:+ dquote +:+ " argument is out of bounds"))
  else if Z.of_nat (length buf) <? offset + ext
  then Throw (RangeError "Index out of range")
  else Ok tt.

(** The fixed-width writers: [offset >>> 0], [checkInt], then the bytes of
    the value in two's complement, least significant first. *)
Definition writeIntLE (ext : nat) (min max : Z) (buf : list Z) (value offset : Z)
  : result (list Z) :=
  let offset := offset mod 2 ^ 32 in
  checkInt buf value offset (Z.of_nat ext) max min;;
  Ok (set_bytes buf offset (le_bytes ext (value mod 2 ^ (8 * Z.of_nat ext)))).

Definition writeUInt8 := writeIntLE 1 0 0xff.
Definition writeInt8 := writeIntLE 1 (-0x80) 0x7f.
Definition writeUInt16LE := writeIntLE 2 0 0xffff.
Definition writeInt16LE := writeIntLE 2 (-0x8000) 0x7fff.
Definition writeUInt32LE := writeIntLE 4 0 0xffffffff.
Definition writeInt32LE := writeIntLE 4 (-0x80000000) 0x7fffffff.

(** [buf[i]], [None] being [undefined]. *)
Definition get_index (buf : list Z) (i : Z) : option Z :=
  if 0 <=? i then buf !! Z.to_nat i else None.

(** [buf.readUInt8(offset)] and [buf.readUInt32LE(offset)], which throw
    when the bytes are not all inside the buffer. *)
Definition readUIntLE (ext : nat) (buf : list Z) (offset : Z) : result Z :=
  let offset := offset mod 2 ^ 32 in
  if Z.of_nat (length buf) <? offset + Z.of_nat ext
  then Throw (RangeError "Trying to access beyond buffer length")
  else Ok (be_value (rev (take ext (drop (Z.to_nat offset) buf)))).

Definition readUInt8 := readUIntLE 1.
Definition readUInt32LE := readUIntLE 4.

(** [buf.subarray(start, end)] with [0 <= start <= end]. *)
Definition subarray (buf : list Z) (start stop : Z) : list Z :=
  take (Z.to_nat (stop - start)) (drop (Z.to_nat start) buf).

(** ** Range validator and integer writers *)

Definition BIGINT_BYTE_LENGTH (typeName : string) : option Z :=
  if String.eqb typeName "u64" then Some 8
  else if String.eqb typeName "i64" then Some 8
  else if String.eqb typeName "u128" then Some 16
  else if String.eqb typeName "i128" then Some 16
  else None.

Definition parseBigIntInput (raw : option string) (argName : string) : result Z :=
  let normalized := trim (default "0" raw) in
  if String.eqb normalized "" then Ok 0
  else
    match BigInt normalized with
    | Some v => Ok v
    | None =>
        Throw (Error ("[" +:+ argName +:+ "] Invalid integer value: "
                      +:+ default "undefined" raw))
    end.

Definition ensureBigIntRange (value bits : Z) (signed : bool)
    (argName typeLabel : string) : result unit :=
  let totalBits := bits in
  if signed then
    let min := - Z.shiftl 1 (totalBits - 1) in
    let max := Z.shiftl 1 (totalBits - 1) - 1 in
    if (value <? min) || (max <? value) then
      Throw (Error ("[" +:+ argName +:+ "] Value " +:+ Z_to_string value
                    +:+ " is out of range for " +:+ typeLabel))
    else Ok tt
  else
    if value <? 0 then
      Throw (Error ("[" +:+ argName +:+ "] " +:+ typeLabel
                    +:+ " must be greater than or equal to 0"))
    else
      let max := Z.shiftl 1 totalBits - 1 in
      if max <? value then
        Throw (Error ("[" +:+ argName +:+ "] Value " +:+ Z_to_string value
                      +:+ " is out of range for " +:+ typeLabel))
      else Ok tt.

(** The byte loop at the end of [writeBigIntToBuffer]. *)
Fixpoint write_loop (count : nat) (buffer : list Z) (pos normalized : Z) : list Z :=
  match count with
  | O => buffer
  | S count' =>
      write_loop count' (set_index buffer pos (Z.land normalized 0xff))
                 (pos + 1) (Z.shiftr normalized 8)
  end.

(** [writeBigIntToBuffer]: the buffer after the stores, and the number of
    bytes reported as written. *)
Definition writeBigIntToBuffer (buffer : list Z) (rawValue : option string)
    (offset : Z) (typeName argName : string) : result (list Z * Z) :=
  match BIGINT_BYTE_LENGTH typeName with
  | None => Throw (Error ("Unsupported bigint type " +:+ typeName))
  | Some byteLength =>
      let signed := startsWith "i" typeName in
      let bits := byteLength * 8 in
      value ← parseBigIntInput rawValue argName;
      ensureBigIntRange value bits signed argName typeName;;
      let normalized :=
        if signed && (value <? 0) then Z.shiftl 1 bits + value else value in
      Ok (write_loop (Z.to_nat byteLength) buffer offset normalized, byteLength)
  end.

Definition parseIntegerInput (raw : option string) (argName : string) : result Z :=
  match raw with
  | None => Ok 0
  | Some text =>
      if String.eqb text "" then Ok 0
      else
        match Number text with
        | NaN | Infinity => Throw (Error ("[" +:+ argName +:+ "] Value must be a finite number"))
        | Fraction => Throw (Error ("[" +:+ argName +:+ "] Value must be an integer"))
        | Integral num => Ok num
        end
  end.

Definition ensureNumberRange (value bits : Z) (signed : bool)
    (argName typeLabel : string) : result unit :=
  let min := if signed then - 2 ^ (bits - 1) else 0 in
  let max := if signed then 2 ^ (bits - 1) - 1 else 2 ^ bits - 1 in
  if (value <? min) || (max <? value) then
    Throw (Error ("[" +:+ argName +:+ "] Value " +:+ Number_toString value
                  +:+ " is out of range for " +:+ typeLabel))
  else Ok tt.

(** ** Argument encoder: the [try] block of [handleSend] *)

Record IdlArg : Type := { arg_name : string; arg_type : json }.

Record IdlAccount : Type := { acc_name : string; isMut : bool; isSigner : bool }.

Record IdlInstruction : Type :=
  { name : string; accounts : list IdlAccount; args : list IdlArg }.

(** The buffer of one call and its write offset. *)
Record cursor : Type := { argsBuffer : list Z; offset : Z }.

Definition capacity : nat := 1024.

(** [value || ''] on an argument's text. *)
Definition or_empty (value : option string) : string := default "" value.

(** The string case, which is also the fallback of the last [else]. *)
Definition encode_text (c : cursor) (value : option string) : result cursor :=
  let strBytes := utf8_bytes (or_empty value) in
  buf ← writeUInt32LE (argsBuffer c) (Z.of_nat (length strBytes)) (offset c);
  let offset1 := offset c + 4 in
  let buf := Buffer_copy strBytes buf offset1 in
  Ok {| argsBuffer := buf; offset := offset1 + Z.of_nat (length strBytes) |}.

(** The branches for 64 and 128 bits. *)
Definition encode_wide (c : cursor) (arg : IdlArg) (value : option string)
    (typeName : string) : result cursor :=
  '(buf, written) ← writeBigIntToBuffer (argsBuffer c) value (offset c)
                                         typeName (arg_name arg);
  Ok {| argsBuffer := buf; offset := offset c + written |}.

(** The branches for 32, 16 and 8 bits, which differ in the width and in
    the two writers. *)
Definition encode_narrow (bits : Z)
    (unsigned_write signed_write : list Z → Z → Z → result (list Z))
    (c : cursor) (arg : IdlArg) (value : option string)
    (resolvedType typeName : string) : result cursor :=
  val ← parseIntegerInput value (arg_name arg);
  ensureNumberRange val bits (startsWith "i" typeName) (arg_name arg) resolvedType;;
  buf ← (if startsWith "u" typeName
         then unsigned_write (argsBuffer c) val (offset c)
         else signed_write (argsBuffer c) val (offset c));
  Ok {| argsBuffer := buf; offset := offset c + bits / 8 |}.

(** The branch for [bool]. *)
Definition encode_bool (c : cursor) (arg : IdlArg) (value : option string)
  : result cursor :=
  let normalized := toLowerCase (trim (default "" value)) in
  buf ← (if String.eqb normalized "" || String.eqb normalized "false"
            || String.eqb normalized "0"
         then writeUInt8 (argsBuffer c) 0 (offset c)
         else if String.eqb normalized "true" || String.eqb normalized "1"
         then writeUInt8 (argsBuffer c) 1 (offset c)
         else Throw (Error ("[" +:+ arg_name arg
                            +:+ "] Invalid bool value. Use true/false or 1/0.")));
  Ok {| argsBuffer := buf; offset := offset c + 1 |}.

(** The branch for an account identifier; its [catch] replaces whatever
    [PublicKey] throws. *)
Definition encode_pubkey (c : cursor) (arg : IdlArg) (value : option string)
  : result cursor :=
  match PublicKey_toBuffer value with
  | Some pubkeyBytes =>
      Ok {| argsBuffer := Buffer_copy pubkeyBytes (argsBuffer c) (offset c);
            offset := offset c + 32 |}
  | None => Throw (Error ("Invalid PublicKey for " +:+ arg_name arg))
  end.

(** The body of the loop over [instruction.args], for one argument and
    the text [argValues[arg.name]] found for it. *)
Definition encode_arg (c : cursor) (arg : IdlArg) (value : option string)
  : result cursor :=
  let resolvedType := resolveArgType (arg_type arg) in
  let typeName := toLowerCase resolvedType in
  let named t := String.eqb typeName t in
  if named "u64" || named "u128" || named "i64" || named "i128" then
    encode_wide c arg value typeName
  else if named "u32" || named "i32" then
    encode_narrow 32 writeUInt32LE writeInt32LE c arg value resolvedType typeName
  else if named "u16" || named "i16" then
    encode_narrow 16 writeUInt16LE writeInt16LE c arg value resolvedType typeName
  else if named "u8" || named "i8" then
    encode_narrow 8 writeUInt8 writeInt8 c arg value resolvedType typeName
  else if named "string" then encode_text c value
  else if named "bool" then encode_bool c arg value
  else if named "publickey" || named "pubkey" then encode_pubkey c arg value
  else encode_text c value.

(** [Buffer.from(value, 'utf8')] on an inherited value, and the rest of
    the string case: a function is read as an array-like object of
    [length] entries, none of which is defined, so each gives the byte 0;
    [Object.prototype] has no [length] and is refused. *)
Definition encode_array_like (c : cursor) (key : string) : result cursor :=
  match inherited_length key with
  | Some len =>
      let strBytes := replicate (Z.to_nat len) 0 in
      buf ← writeUInt32LE (argsBuffer c) (Z.of_nat (length strBytes)) (offset c);
      let offset1 := offset c + 4 in
      let buf := Buffer_copy strBytes buf offset1 in
      Ok {| argsBuffer := buf; offset := offset1 + Z.of_nat (length strBytes) |}
  | None =>
      Throw (TypeError ("The first argument must be one of type string, Buffer, "
                        +:+ "ArrayBuffer, Array, or Array-like Object. "
                        +:+ "Received type object"))
  end.

(** The body of the loop for an argument whose name was never set in
    [argValues] and is inherited: [value] is then a function, or
    [Object.prototype].  Its text is no integer literal and no boolean
    spelling, [Number] makes [NaN] of it, and [PublicKey] refuses it. *)
Definition encode_inherited (c : cursor) (arg : IdlArg) : result cursor :=
  let resolvedType := resolveArgType (arg_type arg) in
  let typeName := toLowerCase resolvedType in
  let named t := String.eqb typeName t in
  if named "u64" || named "u128" || named "i64" || named "i128" then
    Throw (Error ("[" +:+ arg_name arg +:+ "] Invalid integer value: "
                  +:+ inherited_text (arg_name arg)))
  else if named "u32" || named "i32" then
    Throw (Error ("[" +:+ arg_name arg +:+ "] Value must be a finite number"))
  else if named "u16" || named "i16" then
    Throw (Error ("[" +:+ arg_name arg +:+ "] Value must be a finite number"))
  else if named "u8" || named "i8" then
    Throw (Error ("[" +:+ arg_name arg +:+ "] Value must be a finite number"))
  else if named "string" then encode_array_like c (arg_name arg)
  else if named "bool" then
    Throw (Error ("[" +:+ arg_name arg +:+ "] Invalid bool value. Use true/false or 1/0."))
  else if named "publickey" || named "pubkey" then
    Throw (Error ("Invalid PublicKey for " +:+ arg_name arg))
  else encode_array_like c (arg_name arg).

(** The body of the loop over [instruction.args], with the read of
    [argValues[arg.name]]: the text typed for the argument, [undefined]
    when there is none, or what the object inherits under that name. *)
Definition encode_step (c : cursor) (arg : IdlArg) (argValues : gmap string string)
  : result cursor :=
  if reads_inherited argValues (arg_name arg) then encode_inherited c arg
  else encode_arg c arg (argValues !! arg_name arg).

Fixpoint encode_args (c : cursor) (args : list IdlArg)
    (argValues : gmap string string) : result cursor :=
  match args with
  | [] => Ok c
  | arg :: rest =>
      c' ← encode_step c arg argValues;
      encode_args c' rest argValues
  end.

(** The cursor after the discriminator has been copied in. *)
Definition start (instruction : IdlInstruction) : cursor :=
  let discriminator := getInstructionDiscriminator (name instruction) in
  {| argsBuffer := Buffer_copy discriminator (Buffer_alloc capacity) 0; offset := 8 |}.

(** From [Buffer.alloc(1024)] to [finalBuffer]: the bytes handed to the
    transaction builder, or the exception that reaches the [catch]. *)
Definition encode (instruction : IdlInstruction) (argValues : gmap string string)
  : result (list Z) :=
  c ← encode_args (start instruction) (args instruction) argValues;
  Ok (slice (argsBuffer c) 0 (offset c)).

(** ** Return decoder *)

Inductive ReturnFieldType : Type :=
| TU8 | TU16 | TU32 | TU64 | TU128
| TI8 | TI16 | TI32 | TI64 | TI128
| TBool | TString | TBytes | TPubkey.

(** The string literal each member of the union type stands for. *)
Definition type_label (t : ReturnFieldType) : string :=
  match t with
  | TU8 => "u8" | TU16 => "u16" | TU32 => "u32" | TU64 => "u64" | TU128 => "u128"
  | TI8 => "i8" | TI16 => "i16" | TI32 => "i32" | TI64 => "i64" | TI128 => "i128"
  | TBool => "bool" | TString => "string" | TBytes => "bytes" | TPubkey => "pubkey"
  end.

Record ReturnField : Type :=
  { field_id : string; field_name : string; field_type : ReturnFieldType }.

Record DecodedReturnField : Type :=
  { decoded_name : string; decoded_type : ReturnFieldType; decoded_value : string }.

(** The loop of [readBigIntFromBuffer]; a byte outside the buffer is
    [undefined], which [BigInt] refuses. *)
Fixpoint read_loop (count : nat) (buffer : list Z) (offset i res : Z) : result Z :=
  match count with
  | O => Ok res
  | S count' =>
      match get_index buffer (offset + i) with
      | Some byte =>
          read_loop count' buffer offset (i + 1) (Z.lor res (Z.shiftl byte (8 * i)))
      | None => Throw (TypeError "Cannot convert undefined to a BigInt")
      end
  end.

Definition readBigIntFromBuffer (buffer : list Z) (offset byteLength : Z)
    (signed : bool) : result Z :=
  res ← read_loop (Z.to_nat byteLength) buffer offset 0 0;
  if signed then
    let max := Z.shiftl 1 (byteLength * 8) in
    let threshold := Z.shiftr max 1 in
    if threshold <=? res then Ok (res - max) else Ok res
  else Ok res.

(** The table [numericTypes] of [decodeWithLayout]: bytes and signedness. *)
Definition numericTypes (type : ReturnFieldType) : option (Z * bool) :=
  match type with
  | TU8 => Some (1, false)
  | TU16 => Some (2, false)
  | TU32 => Some (4, false)
  | TU64 => Some (8, false)
  | TU128 => Some (16, false)
  | TI8 => Some (1, true)
  | TI16 => Some (2, true)
  | TI32 => Some (4, true)
  | TI64 => Some (8, true)
  | TI128 => Some (16, true)
  | TBool | TString | TBytes | TPubkey => None
  end.

(** The closure [ensureBytes], at the offset it reads when it is called. *)
Definition ensureBytes (buffer : list Z) (offset required : Z) : result unit :=
  let remaining := Z.of_nat (length buffer) - offset in
  if remaining <? required then
    Throw (Error ("Need " +:+ Z_to_string required +:+ " more bytes, only "
                  +:+ Z_to_string remaining +:+ " left"))
  else Ok tt.

(** [slice.toString("utf8")], exact on well-formed UTF-8. *)
Definition utf8_toString (bytes : list Z) : string := string_of_bytes bytes.

(** The body of the [try] of [decodeWithLayout] for a field of the given
    type: the text of the value and the offset after it, or what is
    thrown.  The final [throw] of the source is the last case; no member of
    [ReturnFieldType] reaches it ([decode_field_erased] below is the body
    for a type that is any text). *)
Definition decode_field (buffer : list Z) (offset : Z) (type : ReturnFieldType)
  : result (string * Z) :=
  match numericTypes type with
  | Some (bytes, signed) =>
      ensureBytes buffer offset bytes;;
      value ← readBigIntFromBuffer buffer offset bytes signed;
      Ok (Z_to_string value, offset + bytes)
  | None =>
      match type with
      | TBool =>
          ensureBytes buffer offset 1;;
          byte ← readUInt8 buffer offset;
          Ok (if byte =? 1 then "true" else "false", offset + 1)
      | TPubkey =>
          ensureBytes buffer offset 32;;
          let pubkeyBytes := subarray buffer offset (offset + 32) in
          Ok (PublicKey_toBase58 pubkeyBytes, offset + 32)
      | TString | TBytes =>
          ensureBytes buffer offset 4;;
          len ← readUInt32LE buffer offset;
          let offset := offset + 4 in
          ensureBytes buffer offset len;;
          let slice := subarray buffer offset (offset + len) in
          let offset := offset + len in
          Ok (match type with
              | TString => utf8_toString slice
              | _ => hex_of_bytes slice
              end, offset)
      | _ => Throw (Error ("Unsupported field type '" +:+ type_label type +:+ "'"))
      end
  end.

(** [field.name?.trim() || `field_${decoded.length + 1}`]. *)
Definition display_name (field : ReturnField) (decoded : list DecodedReturnField)
  : string :=
  let trimmed := trim (field_name field) in
  if String.eqb trimmed "" then "field_" +:+ Z_to_string (Z.of_nat (length decoded) + 1)
  else trimmed.

(** The loop of [decodeWithLayout]: a field that decodes is pushed and the
    loop goes on; a field whose [try] throws is pushed with the message of
    the exception, and the loop is left. *)
Fixpoint decode_loop (buffer : list Z) (layout : list ReturnField) (offset : Z)
    (decoded : list DecodedReturnField) : list DecodedReturnField :=
  match layout with
  | [] => decoded
  | field :: rest =>
      let name := display_name field decoded in
      let type := field_type field in
      match decode_field buffer offset type with
      | Ok (value, offset') =>
          decode_loop buffer rest offset'
            (decoded ++ [{| decoded_name := name; decoded_type := type;
                            decoded_value := value |}])
      | Throw error =>
          decoded ++ [{| decoded_name := name; decoded_type := type;
                         decoded_value := "Decode error: " +:+ exn_message error |}]
      end
  end.

Definition decodeWithLayout (buffer : list Z) (layout : list ReturnField)
  : list DecodedReturnField :=
  decode_loop buffer layout 0 [].

(** ** The decoder on a layout of any types *)

(** [ReturnFieldType] is erased when the page is compiled: at run time
    [field.type] is a text, and [decodeWithLayout] takes whatever text it
    finds there.  The definitions above are the function on the layouts
    that the type allows; these are the function on every layout. *)
Record LayoutField : Type := { layout_name : string; layout_type : string }.

Record DecodedField : Type :=
  { shown_name : string; shown_type : string; shown_value : string }.

Definition field_types : list ReturnFieldType :=
  [TU8; TU16; TU32; TU64; TU128; TI8; TI16; TI32; TI64; TI128;
   TBool; TString; TBytes; TPubkey].

(** The member of [ReturnFieldType] whose literal a text is. *)
Definition type_of_label (label : string) : option ReturnFieldType :=
  find (fun t => String.eqb (type_label t) label) field_types.

(** The body of the [try] once the offset is [NaN]: no comparison of
    [ensureBytes] holds then, [buffer[NaN]] is [undefined], [readUInt8] and
    [readUInt32LE] read at [NaN >>> 0], which is 0, and [subarray(NaN, NaN)]
    is empty, which [PublicKey] takes for the number 0 and shows on 32
    bytes. *)
Definition decode_field_adrift (buffer : list Z) (type : ReturnFieldType)
  : result string :=
  match numericTypes type with
  | Some _ => Throw (TypeError "Cannot convert undefined to a BigInt")
  | None =>
      match type with
      | TBool =>
          byte ← readUInt8 buffer 0;
          Ok (if byte =? 1 then "true" else "false")
      | TPubkey => Ok (PublicKey_toBase58 (replicate 32 0))
      | _ => readUInt32LE buffer 0;; Ok ""
      end
  end.

(** The body of the [try] for a field of any type, the offset being a
    number or [NaN] ([None]).  [numericTypes] is a plain object: under a
    name that every object inherits, [numericTypes[type]] is a function or
    [Object.prototype], whose [bytes] is [undefined]; no byte is read, the
    value is 0 and the offset becomes [NaN]. *)
Definition decode_field_erased (buffer : list Z) (offset : option Z) (type : string)
  : result (string * option Z) :=
  match type_of_label type with
  | Some t =>
      match offset with
      | Some o => '(value, o') ← decode_field buffer o t; Ok (value, Some o')
      | None => value ← decode_field_adrift buffer t; Ok (value, None)
      end
  | None =>
      if inherited type then Ok ("0", None)
      else Throw (Error ("Unsupported field type '" +:+ type +:+ "'"))
  end.

(** [field.name?.trim() || `field_${decoded.length + 1}`]. *)
Definition display_name_erased (field : LayoutField) (decoded : list DecodedField)
  : string :=
  let trimmed := trim (layout_name field) in
  if String.eqb trimmed "" then "field_" +:+ Z_to_string (Z.of_nat (length decoded) + 1)
  else trimmed.

Fixpoint decode_loop_erased (buffer : list Z) (layout : list LayoutField)
    (offset : option Z) (decoded : list DecodedField) : list DecodedField :=
  match layout with
  | [] => decoded
  | field :: rest =>
      let name := display_name_erased field decoded in
      let type := layout_type field in
      match decode_field_erased buffer offset type with
      | Ok (value, offset') =>
          decode_loop_erased buffer rest offset'
            (decoded ++ [{| shown_name := name; shown_type := type;
                            shown_value := value |}])
      | Throw error =>
          decoded ++ [{| shown_name := name; shown_type := type;
                         shown_value := "Decode error: " +:+ exn_message error |}]
      end
  end.

Definition decodeWithLayout_erased (buffer : list Z) (layout : list LayoutField)
  : list DecodedField :=
  decode_loop_erased buffer layout (Some 0) [].

(** ** The layout of the return data, as the modal edits it *)

(** [handleAddReturnField], given the identifier [createId()] draws. *)
Definition handleAddReturnField (id : string) (prev : list ReturnField) : list ReturnField :=
  prev ++ [{| field_id := id;
              field_name := "field_" +:+ Z_to_string (Z.of_nat (length prev) + 1);
              field_type := TU64 |}].

(** The patch of [handleUpdateReturnField]: each of the two properties is
    there or not. *)
Record FieldPatch : Type :=
  { patch_name : option string; patch_type : option ReturnFieldType }.

Definition handleUpdateReturnField (id : string) (patch : FieldPatch)
    (prev : list ReturnField) : list ReturnField :=
  map (fun field =>
         if String.eqb (field_id field) id
         then {| field_id := field_id field;
                 field_name := default (field_name field) (patch_name patch);
                 field_type := default (field_type field) (patch_type patch) |}
         else field) prev.

Definition handleRemoveReturnField (id : string) (prev : list ReturnField)
  : list ReturnField :=
  List.filter (fun field => negb (String.eqb (field_id field) id)) prev.

Definition handleClearReturnLayout (prev : list ReturnField) : list ReturnField := [].

(** ** Base-64 text ([base64-js], behind [Buffer]) *)

Module Base64.

Definition code : list ascii :=
  list_ascii_of_string
    "ABCDEFGHIJKLMNOPQRSTUVWXYZabcdefghijklmnopqrstuvwxyz0123456789+/".

(** [lookup[i]]. *)
Definition lookup (i : Z) : ascii := nth (Z.to_nat i) code "A"%char.

(** [revLookup[c]] inside a bitwise operation, where the [undefined] of a
    character outside the table counts as 0. *)
Definition revLookup (c : ascii) : Z :=
  match index_of c code 0 with
  | Some i => i
  | None => if Ascii.eqb c "-" then 62 else if Ascii.eqb c "_" then 63 else 0
  end.

Definition tripletToBase64 (num : Z) : list ascii :=
  [ lookup (Z.land (Z.shiftr num 18) 0x3F); lookup (Z.land (Z.shiftr num 12) 0x3F);
    lookup (Z.land (Z.shiftr num 6) 0x3F); lookup (Z.land num 0x3F) ].

(** [fromByteArray]: three bytes give four characters, and the one or two
    bytes left over give two or three characters and the padding. *)
Fixpoint fromByteArray (uint8 : list Z) : list ascii :=
  match uint8 with
  | a :: b :: c :: r =>
      tripletToBase64 (Z.land (Z.shiftl a 16) 0xFF0000 + Z.land (Z.shiftl b 8) 0xFF00
                       + Z.land c 0xFF)
      ++ fromByteArray r
  | [a] =>
      [lookup (Z.shiftr a 2); lookup (Z.land (Z.shiftl a 4) 0x3F); "="; "="]%char
  | [a; b] =>
      let tmp := Z.shiftl a 8 + b in
      [lookup (Z.shiftr tmp 10); lookup (Z.land (Z.shiftr tmp 4) 0x3F);
       lookup (Z.land (Z.shiftl tmp 2) 0x3F); "="]%char
  | [] => []
  end.

(** [toByteArray] on a text without its padding: four characters give
    three bytes; of the characters left over, two give one byte, three
    give two bytes, and a single one gives nothing. *)
Fixpoint toByteArray (b64 : list ascii) : list Z :=
  match b64 with
  | a :: b :: c :: d :: r =>
      let tmp := Z.lor (Z.lor (Z.lor (Z.shiftl (revLookup a) 18) (Z.shiftl (revLookup b) 12))
                              (Z.shiftl (revLookup c) 6)) (revLookup d) in
      Z.land (Z.shiftr tmp 16) 0xFF :: Z.land (Z.shiftr tmp 8) 0xFF :: Z.land tmp 0xFF
      :: toByteArray r
  | [a; b] =>
      let tmp := Z.lor (Z.shiftl (revLookup a) 2) (Z.shiftr (revLookup b) 4) in
      [Z.land tmp 0xFF]
  | [a; b; c] =>
      let tmp := Z.lor (Z.lor (Z.shiftl (revLookup a) 10) (Z.shiftl (revLookup b) 4))
                       (Z.shiftr (revLookup c) 2) in
      [Z.land (Z.shiftr tmp 8) 0xFF; Z.land tmp 0xFF]
  | _ => []
  end.

End Base64.

(** [buf.toString("base64")]. *)
Definition toString_base64 (buf : list Z) : string :=
  string_of_list_ascii (Base64.fromByteArray buf).

(** The characters [INVALID_BASE64_RE] leaves in place. *)
Definition base64_char (c : ascii) : bool :=
  let n := code c in
  (n =? 43) || (n =? 47) || (48 <=? n) && (n <=? 57) || (65 <=? n) && (n <=? 90)
  || (97 <=? n) && (n <=? 122) || (n =? 45) || (n =? 95).

(** [str.split('=')[0]]. *)
Fixpoint before_equals (l : list ascii) : list ascii :=
  match l with
  | [] => []
  | c :: r => if Ascii.eqb c "=" then [] else c :: before_equals r
  end.

(** [base64clean], without the padding it appends: [toByteArray] reads
    the length of the text before it back from where the padding starts. *)
Definition base64clean (str : string) : list ascii :=
  let str := string_of_list_ascii (before_equals (list_ascii_of_string str)) in
  let str := List.filter base64_char (list_ascii_of_string (trim str)) in
  if (length str <? 2)%nat then [] else str.

(** [Buffer.from(text, "base64")]. *)
Definition Buffer_from_base64 (text : string) : list Z := Base64.toByteArray (base64clean text).

(** [buf.readBigUInt64LE(offset)]. *)
Definition readBigUInt64LE (buf : list Z) (offset : Z) : result Z :=
  let offset := offset mod 2 ^ 32 in
  match get_index buf offset, get_index buf (offset + 7) with
  | Some first, Some last =>
      let at_ i := default 0 (get_index buf (offset + i)) in
      let lo := first + at_ 1 * 2 ^ 8 + at_ 2 * 2 ^ 16 + at_ 3 * 2 ^ 24 in
      let hi := at_ 4 + at_ 5 * 2 ^ 8 + at_ 6 * 2 ^ 16 + last * 2 ^ 24 in
      Ok (lo + Z.shiftl hi 32)
  | _, _ =>
      let length := Z.of_nat (length buf) - 8 in
      if length <? 0
      then Throw (RangeError "Attempt to access memory outside buffer bounds")
      else Throw (RangeError ("The value of " +:+ dquote +:+ "offset" +:+ dquote
                              +:+ " is out of range. It must be >= 0 and <= "
                              +:+ Z_to_string length +:+ ". Received "
                              +:+ Z_to_string offset))
  end.

(** ** The return data of a transaction *)

Record ApiReturnData : Type :=
  { return_programId : string; return_data : option (list string) }.

Record ReturnDataInfo : Type :=
  { info_programId : string;
    info_base64 : string;
    info_hex : string;
    info_encoding : option string;
    info_decoded : option string;
    info_fields : option (list DecodedReturnField) }.

(** [formatReturnData].  [Buffer.from] and [toString] do not throw on a
    text, so the outer [catch] is never entered. *)
Definition formatReturnData (raw : option ApiReturnData) (layout : list ReturnField)
  : option ReturnDataInfo :=
  match raw with
  | None => None
  | Some raw =>
      match return_data raw with
      | None | Some [] => None
      | Some (payload :: rest) =>
          let encoding := head rest in
          let buffer := Buffer_from_base64 payload in
          let hex := hex_of_bytes buffer in
          match layout with
          | _ :: _ =>
              Some {| info_programId := return_programId raw;
                      info_base64 := payload;
                      info_hex := hex;
                      info_encoding := encoding;
                      info_decoded := None;
                      info_fields := Some (decodeWithLayout buffer layout) |}
          | [] =>
              let decoded :=
                if (length buffer =? 8)%nat then
                  match readBigUInt64LE buffer 0 with
                  | Ok value => Some (Z_to_string value)
                  | Throw _ => None
                  end
                else None in
              Some {| info_programId := return_programId raw;
                      info_base64 := payload;
                      info_hex := hex;
                      info_encoding := encoding;
                      info_decoded := decoded;
                      info_fields := None |}
          end
      end
  end.

(** ** [handleSend], from the click to the request *)

(** An entry of [generatedKeypairs]. *)
Record Keypair : Type := { generated_pubkey : string; generated_secret_key : list Z }.

(** The request body, [ApiSendTxRequest].  The [pubkey] of an account is
    [None] when what the page puts there is no text but the function the
    name of the account inherits: [JSON.stringify] leaves such a property
    out of the body. *)
Record AccountMeta : Type :=
  { pubkey : option string; is_signer : bool; is_writable : bool }.

Record Signer : Type := { signer_name : string; secret_key : list Z }.

Record ApiSendTxRequest : Type :=
  { rpc_url : string;
    program_id : string;
    request_accounts : list AccountMeta;
    instruction_data : string;
    sign_with_backend : bool;
    fee_payer : string;
    additional_signers : option (list Signer) }.

(** What a click on the button comes to: a message shown before anything
    is encoded, the status and the message set by the [catch], or the
    request handed to [fetch]. *)
Inductive outcome : Type :=
| Rejected (message : string)
| Caught (status : Z) (message : string)
| Sent (payload : ApiSendTxRequest).

(** [value || otherwise] on a text that may be missing. *)
Definition text_or (value : option string) (otherwise : string) : string :=
  match value with
  | Some text => if String.eqb text "" then otherwise else text
  | None => otherwise
  end.

(** [!accountValues[acc.name]]: the text typed for the account is empty,
    or there is none and no object inherits a property of that name. *)
Definition lacks_value (accountValues : gmap string string) (acc : IdlAccount) : bool :=
  match accountValues !! acc_name acc with
  | Some text => String.eqb text ""
  | None => negb (inherited (acc_name acc))
  end.

(** The entry of [generatedKeypairs] set under a name, the state being the
    list of its entries. *)
Fixpoint generated (generatedKeypairs : list (string * Keypair)) (key : string)
  : option Keypair :=
  match generatedKeypairs with
  | [] => None
  | (k, kp) :: r => if String.eqb k key then Some kp else generated r key
  end.

(** [accountsPayload]: [generatedKeypairs[acc.name]] is the entry set
    under the name, or else what every object inherits under it, which is
    truthy and has no [pubkey]; [accountValues[acc.name]] is the text
    typed, or else what is inherited, which is truthy and no text. *)
Definition accountsPayload (instruction : IdlInstruction)
    (accountValues : gmap string string) (generatedKeypairs : list (string * Keypair))
  : list AccountMeta :=
  map (fun acc =>
         let generated := generated generatedKeypairs (acc_name acc) in
         let typed :=
           if reads_inherited accountValues (acc_name acc) then None
           else Some (text_or (accountValues !! acc_name acc) "") in
         {| pubkey :=
              match generated with
              | Some kp =>
                  if String.eqb (generated_pubkey kp) "" then typed
                  else Some (generated_pubkey kp)
              | None => typed
              end;
            is_signer :=
              isSigner acc
              || match generated with
                 | Some _ => true
                 | None => inherited (acc_name acc)
                 end;
            is_writable := isMut acc |})
      (accounts instruction).

Definition handleSend (instruction : IdlInstruction) (programId network : string)
    (rpcUrl : option string) (argValues accountValues : gmap string string)
    (backendWallet : option string) (generatedKeypairs : list (string * Keypair))
  : outcome :=
  match find (lacks_value accountValues) (accounts instruction) with
  | Some acc =>
      Rejected ("Error: Missing public key for account '" +:+ acc_name acc +:+ "'")
  | None =>
      match encode instruction argValues with
      | Ok finalBuffer =>
          let instructionData := toString_base64 finalBuffer in
          let additionalSigners :=
            map (fun entry => {| signer_name := fst entry;
                                 secret_key := generated_secret_key (snd entry) |})
                generatedKeypairs in
          let feePayerValue :=
            text_or (accountValues !! "authority")
              (text_or (accountValues !! "payer")
                 (text_or (accountValues !! "signer") (text_or backendWallet ""))) in
          Sent {| rpc_url := text_or rpcUrl
                               (if String.eqb network "mainnet"
                                then "https://api.mainnet-beta.solana.com"
                                else "https://api.devnet.solana.com");
                  program_id := programId;
                  request_accounts := accountsPayload instruction accountValues generatedKeypairs;
                  instruction_data := instructionData;
                  sign_with_backend := true;
                  fee_payer := feePayerValue;
                  additional_signers :=
                    match additionalSigners with
                    | [] => None
                    | _ :: _ => Some additionalSigners
                    end |}
      | Throw error =>
          let friendly := text_or (Some (exn_message error)) "Failed to send transaction" in
          let isUserError := startsWith "[" (trim friendly) in
          Caught (if isUserError then 400 else 500) friendly
      end
  end.

(** ** The page around the codec *)

(** [isValidProgramId]: [new PublicKey(value)] does not throw. *)
Definition isValidProgramId (value : string) : bool :=
  match PublicKey_toBuffer (Some value) with
  | Some _ => true
  | None => false
  end.

Definition SYSTEM_PROGRAM_ID : string := "11111111111111111111111111111111".

(** The test of the effect that fills in the system program. *)
Definition names_system_program (acc : IdlAccount) : bool :=
  let name := toLowerCase (acc_name acc) in
  String.eqb name "systemprogram" || String.eqb name "system_program".

(** The updater that effect passes to [setAccountValues]: the account
    values after it.  When nothing changes the source returns [prev]
    itself, which holds the same values as [next]. *)
Definition fill_system_program (instruction : IdlInstruction)
    (prev : gmap string string) : gmap string string :=
  fold_left (fun next acc =>
               if names_system_program acc then
                 if bool_decide (next !! acc_name acc = Some SYSTEM_PROGRAM_ID)
                 then next
                 else <[acc_name acc := SYSTEM_PROGRAM_ID]> next
               else next)
            (accounts instruction) prev.

(** * Notions the properties are stated with *)

Definition is_byte (b : Z) : Prop := 0 ≤ b < 256.

(** The names, in lower case, that a branch of the encoder other than the
    last [else] is written for. *)
Definition recognized (typeName : string) : bool :=
  existsb (String.eqb typeName)
    [ "u64"; "u128"; "i64"; "i128"; "u32"; "i32"; "u16"; "i16"; "u8"; "i8";
      "string"; "bool"; "publickey"; "pubkey" ].

(** A resolved type is of the unknown kind when the encoder has no branch
    for it and falls back to the length-prefixed text. *)
Definition unknown_kind (resolvedType : string) : bool :=
  negb (recognized (toLowerCase resolvedType)).

(** The ten integer kinds. *)
Inductive IntKind : Type :=
| U8 | U16 | U32 | U64 | U128
| I8 | I16 | I32 | I64 | I128.

Definition kind_bits (k : IntKind) : Z :=
  match k with
  | U8 | I8 => 8
  | U16 | I16 => 16
  | U32 | I32 => 32
  | U64 | I64 => 64
  | U128 | I128 => 128
  end.

Definition kind_signed (k : IntKind) : bool :=
  match k with
  | U8 | U16 | U32 | U64 | U128 => false
  | I8 | I16 | I32 | I64 | I128 => true
  end.

Definition kind_label (k : IntKind) : string :=
  match k with
  | U8 => "u8" | U16 => "u16" | U32 => "u32" | U64 => "u64" | U128 => "u128"
  | I8 => "i8" | I16 => "i16" | I32 => "i32" | I64 => "i64" | I128 => "i128"
  end.

Definition kind_field (k : IntKind) : ReturnFieldType :=
  match k with
  | U8 => TU8 | U16 => TU16 | U32 => TU32 | U64 => TU64 | U128 => TU128
  | I8 => TI8 | I16 => TI16 | I32 => TI32 | I64 => TI64 | I128 => TI128
  end.

(** The byte width, the range of the specification, and the path the
    encoder takes: arbitrary precision from 64 bits on. *)
Definition kind_width (k : IntKind) : nat := Z.to_nat (kind_bits k / 8).
Definition kind_min (k : IntKind) : Z :=
  if kind_signed k then - 2 ^ (kind_bits k - 1) else 0.
Definition kind_max (k : IntKind) : Z :=
  if kind_signed k then 2 ^ (kind_bits k - 1) - 1 else 2 ^ kind_bits k - 1.
Definition in_range (k : IntKind) (v : Z) : bool :=
  (kind_min k <=? v) && (v <=? kind_max k).
Definition wide (k : IntKind) : bool := 64 <=? kind_bits k.

(** The parser the encoder applies to the text of an argument of the
    kind. *)
Definition parse_for (k : IntKind) (raw : option string) (argName : string) : result Z :=
  if wide k then parseBigIntInput raw argName else parseIntegerInput raw argName.

(** The message of the error for a value outside the range. *)
Definition range_message (k : IntKind) (argName : string) (v : Z) : string :=
  if wide k && negb (kind_signed k) && (v <? 0)
  then "[" +:+ argName +:+ "] " +:+ kind_label k +:+ " must be greater than or equal to 0"
  else "[" +:+ argName +:+ "] Value "
       +:+ (if wide k then Z_to_string v else Number_toString v)
       +:+ " is out of range for " +:+ kind_label k.

(** The bytes of a value of the kind: little-endian, two's complement. *)
Definition kind_bytes (k : IntKind) (v : Z) : list Z :=
  le_bytes (kind_width k) (v mod 2 ^ kind_bits k).

(** The bytes an argument added to the buffer. *)
Definition written (c c' : cursor) : list Z :=
  slice (argsBuffer c') (offset c) (offset c').

(** An argument appended the given bytes: the offset moved by their
    number, they are the bytes between the two offsets, and the bytes
    before them are as they were. *)
Definition appends (c c' : cursor) (bytes : list Z) : Prop :=
  offset c' = offset c + Z.of_nat (length bytes)
  ∧ written c c' = bytes
  ∧ take (Z.to_nat (offset c)) (argsBuffer c') = take (Z.to_nat (offset c)) (argsBuffer c).

(** A call with the one argument given. *)
Definition one_argument (instructionName : string) (arg : IdlArg) : IdlInstruction :=
  {| name := instructionName; accounts := []; args := [arg] |}.

(** The cursor of a call just after the discriminator of [initialize]. *)
Definition sample_cursor : cursor := start {| name := "initialize"; accounts := []; args := [] |}.

Definition sample_arg (argName type : string) : IdlArg :=
  {| arg_name := argName; arg_type := JStr type |}.

(** The byte of a normalized boolean text, as the specification lists
    them. *)
Definition bool_byte (normalized : string) : option Z :=
  if existsb (String.eqb normalized) [""; "false"; "0"] then Some 0
  else if existsb (String.eqb normalized) ["true"; "1"] then Some 1
  else None.

(** The width of the write that the buffer package checks against the
    length of the buffer, for a resolved type: the integer itself up to 32
    bits, the byte of a boolean, the length prefix of a text.  The integers
    of 64 and 128 bits are stored byte by byte and an account identifier is
    copied, neither with a check. *)
Definition checked_width (resolvedType : string) : option Z :=
  let typeName := toLowerCase resolvedType in
  let named t := String.eqb typeName t in
  if named "u64" || named "u128" || named "i64" || named "i128" then None
  else if named "u32" || named "i32" then Some 4
  else if named "u16" || named "i16" then Some 2
  else if named "u8" || named "i8" then Some 1
  else if named "string" then Some 4
  else if named "bool" then Some 1
  else if named "publickey" || named "pubkey" then None
  else Some 4.

(** A text of [n] letters. *)
Definition letters (n : nat) : string := string_of_list_ascii (replicate n "a"%char).

(** The discriminator of [initialize]. *)
Definition initialize_discriminator : list Z := [175; 175; 109; 31; 13; 152; 155; 237].

(** The value of bytes read least significant first. *)
Definition le_value (bytes : list Z) : Z := be_value (rev bytes).

(** The bytes a field needs before anything of it is read, and the bytes
    it occupies in all: a text or a byte string has a prefix of four bytes
    that gives the length of the rest. *)
Definition fixed_size (type : ReturnFieldType) : Z :=
  match type with
  | TU8 | TI8 | TBool => 1
  | TU16 | TI16 => 2
  | TU32 | TI32 | TString | TBytes => 4
  | TU64 | TI64 => 8
  | TU128 | TI128 => 16
  | TPubkey => 32
  end.

Definition field_size (buffer : list Z) (offset : Z) (type : ReturnFieldType) : Z :=
  match type with
  | TString | TBytes => 4 + le_value (take 4 (drop (Z.to_nat offset) buffer))
  | _ => fixed_size type
  end.

(** The bytes that remain at the offset are enough for the field. *)
Definition fits (buffer : list Z) (offset : Z) (type : ReturnFieldType) : bool :=
  let remaining := Z.of_nat (length buffer) - offset in
  (fixed_size type <=? remaining) && (field_size buffer offset type <=? remaining).

(** The index of the first field of a layout that does not fit, the
    fields before it being read one after the other from the offset. *)
Fixpoint first_failure (buffer : list Z) (offset : Z) (layout : list ReturnField)
  : option nat :=
  match layout with
  | [] => None
  | field :: rest =>
      if fits buffer offset (field_type field)
      then S <$> first_failure buffer (offset + field_size buffer offset (field_type field)) rest
      else Some O
  end.

(** The message of [ensureBytes]. *)
Definition need_message (required remaining : Z) : string :=
  "Need " +:+ Z_to_string required +:+ " more bytes, only "
  +:+ Z_to_string remaining +:+ " left".

(** A [Buffer]: bytes, and no more of them than the package allows. *)
Definition is_buffer (buffer : list Z) : Prop :=
  Forall is_byte buffer ∧ Z.of_nat (length buffer) ≤ K_MAX_LENGTH.

(** The name a field is shown under when [n] fields are decoded already. *)
Definition name_at (field : ReturnField) (n : nat) : string :=
  let trimmed := trim (field_name field) in
  if String.eqb trimmed "" then "field_" +:+ Z_to_string (Z.of_nat n + 1) else trimmed.

(** The entries the loop adds from an offset on, the [n] entries decoded
    before them left aside. *)
Fixpoint decode_from (buffer : list Z) (offset : Z) (n : nat)
    (layout : list ReturnField) : list DecodedReturnField :=
  match layout with
  | [] => []
  | field :: rest =>
      match decode_field buffer offset (field_type field) with
      | Ok (value, offset') =>
          {| decoded_name := name_at field n; decoded_type := field_type field;
             decoded_value := value |} :: decode_from buffer offset' (S n) rest
      | Throw error =>
          [{| decoded_name := name_at field n; decoded_type := field_type field;
              decoded_value := "Decode error: " +:+ exn_message error |}]
      end
  end.

(** Every field of the layout is decoded: no [try] of the loop throws. *)
Fixpoint all_decode (buffer : list Z) (offset : Z) (layout : list ReturnField) : bool :=
  match layout with
  | [] => true
  | field :: rest =>
      match decode_field buffer offset (field_type field) with
      | Ok (_, offset') => all_decode buffer offset' rest
      | Throw _ => false
      end
  end.

Definition sample_field (fieldName : string) (type : ReturnFieldType) : ReturnField :=
  {| field_id := "id"; field_name := fieldName; field_type := type |}.

(** The layout of the examples of the specification. *)
Definition amount_active : list ReturnField :=
  [sample_field "amount" TU32; sample_field "active" TBool].

(** A field and an entry of the result, without their types. *)
Definition erase (field : ReturnField) : LayoutField :=
  {| layout_name := field_name field; layout_type := type_label (field_type field) |}.

Definition erase_decoded (d : DecodedReturnField) : DecodedField :=
  {| shown_name := decoded_name d; shown_type := type_label (decoded_type d);
     shown_value := decoded_value d |}.




Definition name_at_erased (field : LayoutField) (n : nat) : string :=
  let trimmed := trim (layout_name field) in
  if String.eqb trimmed "" then "field_" +:+ Z_to_string (Z.of_nat n + 1) else trimmed.

Fixpoint decode_from_erased (buffer : list Z) (offset : option Z) (n : nat)
    (layout : list LayoutField) : list DecodedField :=
  match layout with
  | [] => []
  | field :: rest =>
      match decode_field_erased buffer offset (layout_type field) with
      | Ok (value, offset') =>
          {| shown_name := name_at_erased field n; shown_type := layout_type field;
             shown_value := value |} :: decode_from_erased buffer offset' (S n) rest
      | Throw error =>
          [{| shown_name := name_at_erased field n; shown_type := layout_type field;
              shown_value := "Decode error: " +:+ exn_message error |}]
      end
  end.

Definition sample_layout_field (fieldName type : string) : LayoutField :=
  {| layout_name := fieldName; layout_type := type |}.

(** The layout of the examples with a field of a type that is no field
    type. *)
Definition amount_ratio_active : list LayoutField :=
  [ sample_layout_field "amount" "u32"; sample_layout_field "ratio" "f32";
    sample_layout_field "active" "bool" ].

(** The values at which the specification tests the round trip. *)
Definition round_trip_values (k : IntKind) : list Z :=
  [kind_min k; kind_max k; 0] ++ (if kind_signed k then [-1] else []).

(** ** Notions of the further properties *)

(** A text of ASCII characters that are neither white space nor control
    characters. *)
Definition plain (s : string) : Prop := Forall (fun b => 33 ≤ b < 128) (utf8_bytes s).

(** One step of reading a decimal numeral. *)
Definition decimal_step (acc : Z) (c : ascii) : Z := acc * 10 + (code c - 48).

(** The characters of an unsigned decimal numeral. *)
Definition chars (d : Decimal.uint) : list ascii :=
  list_ascii_of_string (NilEmpty.string_of_uint d).

(** The integer kind a type name, in lower case, stands for. *)
Definition int_kind (typeName : string) : option IntKind :=
  find (fun k => String.eqb typeName (kind_label k))
       [U8; U16; U32; U64; U128; I8; I16; I32; I64; I128].

(** The bytes of a text argument: the length of its UTF-8 form on four
    bytes, then that form. *)
Definition text_bytes (text : string) : list Z :=
  le_bytes 4 (Z.of_nat (length (utf8_bytes text))) ++ utf8_bytes text.

(** The bytes an argument stands for in the instruction data, [None] when
    its text is refused: an integer outside its range or not a literal, a
    boolean that is not one of the five spellings, an account identifier
    that is not 32 bytes in base 58. *)
Definition arg_bytes (arg : IdlArg) (value : option string) : option (list Z) :=
  let typeName := toLowerCase (resolveArgType (arg_type arg)) in
  match int_kind typeName with
  | Some k =>
      match parse_for k value (arg_name arg) with
      | Ok v => if in_range k v then Some (kind_bytes k v) else None
      | Throw _ => None
      end
  | None =>
      if String.eqb typeName "bool" then
        b ← bool_byte (toLowerCase (trim (default "" value))); Some [b]
      else if String.eqb typeName "publickey" || String.eqb typeName "pubkey" then
        PublicKey_toBuffer value
      else Some (text_bytes (or_empty value))
  end.

(** The argument is read as the text typed for it, or as [undefined]
    when nothing was typed and no object inherits its name, and it stands
    for the given bytes: [None] when the encoder refuses it. *)
Definition stands_for (argValues : gmap string string) (arg : IdlArg)
    (bytes : option (list Z)) : Prop :=
  reads_inherited argValues (arg_name arg) = false
  ∧ arg_bytes arg (argValues !! arg_name arg) = bytes.

(** An error message that names an argument, in one of the two forms the
    encoder uses. *)
Definition names_argument (argName message : string) : Prop :=
  (∃ rest, message = "[" +:+ argName +:+ "] " +:+ rest)
  ∨ message = "Invalid PublicKey for " +:+ argName.

(** [lo <= b <= hi]. *)
Definition between (lo b hi : Z) : bool := (lo <=? b) && (b <=? hi).

(** Well-formed UTF-8 (Unicode, table 3-7): the byte sequences that
    [utf8Slice] of the buffer package decodes without a replacement
    character, and the only ones a text without lone surrogates is
    encoded to. *)
Fixpoint well_formed_utf8 (l : list Z) : bool :=
  match l with
  | [] => true
  | a :: r =>
      between 0 a 0x7F && well_formed_utf8 r
      || match r with
         | b :: r1 =>
             between 0xC2 a 0xDF && between 0x80 b 0xBF && well_formed_utf8 r1
             || match r1 with
                | c :: r2 =>
                    ((a =? 0xE0) && between 0xA0 b 0xBF
                     || (between 0xE1 a 0xEC || between 0xEE a 0xEF) && between 0x80 b 0xBF
                     || (a =? 0xED) && between 0x80 b 0x9F)
                    && between 0x80 c 0xBF && well_formed_utf8 r2
                    || match r2 with
                       | d :: r3 =>
                           ((a =? 0xF0) && between 0x90 b 0xBF
                            || between 0xF1 a 0xF3 && between 0x80 b 0xBF
                            || (a =? 0xF4) && between 0x80 b 0x8F)
                           && between 0x80 c 0xBF && between 0x80 d 0xBF
                           && well_formed_utf8 r3
                       | [] => false
                       end
                | [] => false
                end
         | [] => false
         end
  end.

(** A value of one of the types the encoder and the decoder share. *)
Inductive typed_value : Type :=
| VInt (k : IntKind) (v : Z)
| VBool (b : bool)
| VText (text : string)
| VKey (key : list Z).

(** The values the types hold: an integer of the range of its kind, a
    text in well-formed UTF-8, an account identifier of 32 bytes. *)
Definition value_ok (tv : typed_value) : Prop :=
  match tv with
  | VInt k v => in_range k v = true
  | VBool _ => True
  | VText text => well_formed_utf8 (utf8_bytes text) = true
  | VKey key => length key = 32%nat ∧ Forall is_byte key
  end.

(** The type names, in lower case, an argument of the value can have. *)
Definition value_type (tv : typed_value) (typeName : string) : Prop :=
  match tv with
  | VInt k _ => typeName = kind_label k
  | VBool _ => typeName = "bool"
  | VText _ => typeName = "string"
  | VKey _ => typeName = "pubkey" ∨ typeName = "publickey"
  end.

Definition value_field (tv : typed_value) : ReturnFieldType :=
  match tv with
  | VInt k _ => kind_field k
  | VBool _ => TBool
  | VText _ => TString
  | VKey _ => TPubkey
  end.

(** The text of the value, as the decoder shows it. *)
Definition value_text (tv : typed_value) : string :=
  match tv with
  | VInt _ v => Z_to_string v
  | VBool b => if b then "true" else "false"
  | VText text => text
  | VKey key => bs58_encode key
  end.

(** The bytes of the value in the instruction data. *)
Definition value_bytes (tv : typed_value) : list Z :=
  match tv with
  | VInt k v => kind_bytes k v
  | VBool b => [if b then 1 else 0]
  | VText text => text_bytes text
  | VKey key => key
  end.

(** The integer a kind reads from an unsigned value of its width. *)
Definition signed_value (k : IntKind) (x : Z) : Z :=
  if kind_signed k && (2 ^ (kind_bits k - 1) <=? x) then x - 2 ^ kind_bits k else x.

(** The field types whose decoded text determines the bytes it was read
    from: the integers and the account identifier.  A boolean is shown as
    [false] for 255 bytes, and a text only shows well-formed UTF-8 as it
    is. *)
Definition reencodable (type : ReturnFieldType) : bool :=
  match type with
  | TBool | TString | TBytes => false
  | _ => true
  end.

(** What an entry shows besides its name. *)
Definition shown (d : DecodedReturnField) : ReturnFieldType * string :=
  (decoded_type d, decoded_value d).

(** A character of the base-64 encoding that is not padding. *)
Definition payload_char (ch : ascii) : Prop :=
  Ascii.eqb ch "=" = false ∧ base64_char ch = true ∧ 33 ≤ code ch < 128.

(** The account has a public key in [accountValues]: a text that is not
    empty. *)
Definition has_value (accountValues : gmap string string) (acc : IdlAccount) : Prop :=
  ∃ text, accountValues !! acc_name acc = Some text ∧ text ≠ "".

(** The account check finds nothing for the account: the text typed is
    empty, or nothing was typed and no object inherits a property of that
    name. *)
Definition no_value (accountValues : gmap string string) (acc : IdlAccount) : Prop :=
  accountValues !! acc_name acc = Some ""
  ∨ (accountValues !! acc_name acc = None ∧ inherited (acc_name acc) = false).

(** A bound on what an argument adds to the write offset: the 32 bytes
    of an account identifier at most, or the four bytes of a length and
    the bytes of the text. *)
Definition extent (value : option string) : Z :=
  36 + Z.of_nat (length (utf8_bytes (or_empty value))).

(** The bound on the write offset at the end of a call. *)
Definition reach (args : list IdlArg) (argValues : gmap string string) : Z :=
  fold_right (fun arg total => extent (argValues !! arg_name arg) + total) 8 args.

(** The offset moved forward by at most [room], and the bytes before it
    are as they were. *)
Definition keeps (c c' : cursor) (room : Z) : Prop :=
  offset c ≤ offset c' ≤ offset c + room
  ∧ take (Z.to_nat (offset c)) (argsBuffer c') = take (Z.to_nat (offset c)) (argsBuffer c).

(** ** A call of the examples *)

Definition authority_account : IdlAccount :=
  {| acc_name := "authority"; isMut := true; isSigner := true |}.

Definition system_program_account : IdlAccount :=
  {| acc_name := "systemProgram"; isMut := false; isSigner := false |}.

(** A call with two accounts and three arguments. *)
Definition transfer_call : IdlInstruction :=
  {| name := "transferTokens";
     accounts := [authority_account; system_program_account];
     args := [ sample_arg "amount" "u64"; sample_arg "memo" "string";
               sample_arg "urgent" "bool" ] |}.

(** The texts typed for its arguments, and the values they stand for. *)
Definition transfer_args : gmap string string :=
  {[ "amount" := "500"; "memo" := "rent"; "urgent" := "true" ]}.

Definition transfer_values : list typed_value :=
  [VInt U64 500; VText "rent"; VBool true].

(** A layout that reads the three values back. *)
Definition transfer_layout : list ReturnField :=
  [sample_field "amount" TU64; sample_field "memo" TString; sample_field "urgent" TBool].

Definition transfer_accounts : gmap string string :=
  {[ "authority" := SYSTEM_PROGRAM_ID; "systemProgram" := SYSTEM_PROGRAM_ID ]}.

(** * Properties *)

(** Unfolds the sequencing of [result]. *)
Ltac unbind := unfold mbind, result_bind, mret, result_ret in *.

(** ** Stores into a buffer *)

Section BufferFacts.

Implicit Types (buf bytes : list Z) (n : nat).

Lemma set_index_length buf i v : length (set_index buf i v) = length buf.
Proof.
  unfold set_index. destruct (0 <=? i); [apply length_insert | reflexivity].
Qed.

Lemma set_bytes_length bytes : ∀ buf pos, length (set_bytes buf pos bytes) = length buf.
Proof.
  induction bytes as [|b r IH]; intros buf pos; simpl; [reflexivity|].
  rewrite IH. apply set_index_length.
Qed.

Lemma Buffer_copy_length source target targetStart :
  length (Buffer_copy source target targetStart) = length target.
Proof. apply set_bytes_length. Qed.

Lemma set_index_nat buf n v : set_index buf (Z.of_nat n) v = <[n := v mod 256]> buf.
Proof.
  unfold set_index. destruct (Z.leb_spec 0 (Z.of_nat n)); [|lia].
  by rewrite Nat2Z.id.
Qed.

(** Stores that stay inside the buffer replace exactly the bytes they
    cover. *)
Lemma set_bytes_inside bytes : ∀ buf n,
  (n + length bytes ≤ length buf)%nat →
  set_bytes buf (Z.of_nat n) bytes
  = take n buf ++ map (fun b => b mod 256) bytes ++ drop (n + length bytes) buf.
Proof.
  induction bytes as [|b r IH]; intros buf n Hfit; simpl in *.
  - by rewrite Nat.add_0_r, take_drop.
  - rewrite set_index_nat.
    replace (Z.of_nat n + 1) with (Z.of_nat (S n)) by lia.
    rewrite IH by (rewrite length_insert; lia).
    rewrite (take_S_r _ n (b mod 256)) by (apply list_lookup_insert_eq; lia).
    rewrite take_insert_ge by lia.
    rewrite drop_insert_lt by lia.
    rewrite <- app_assoc. simpl.
    replace (S (n + length r))%nat with (n + S (length r))%nat by lia.
    reflexivity.
Qed.

(** The bytes between two offsets, as [Buffer.slice] returns them. *)
Lemma slice_set_bytes buf bytes n :
  (n + length bytes ≤ length buf)%nat →
  slice (set_bytes buf (Z.of_nat n) bytes) (Z.of_nat n)
        (Z.of_nat n + Z.of_nat (length bytes))
  = map (fun b => b mod 256) bytes.
Proof.
  intros Hfit. unfold slice. rewrite set_bytes_inside by done.
  replace (Z.to_nat (Z.of_nat n + Z.of_nat (length bytes)))
    with (n + length bytes)%nat by lia.
  rewrite Nat2Z.id.
  assert (Hn : length (take n buf) = n) by (rewrite length_take; lia).
  rewrite app_assoc, take_app_length'
    by (rewrite length_app, length_map; lia).
  by rewrite drop_app_length'.
Qed.

Lemma le_bytes_length n v : length (le_bytes n v) = n.
Proof. revert v. induction n as [|n IH]; intros v; simpl; [done | by rewrite IH]. Qed.

Lemma le_bytes_reduced n : ∀ v, map (fun b => b mod 256) (le_bytes n v) = le_bytes n v.
Proof.
  induction n as [|n IH]; intros v; simpl; [done|].
  rewrite IH. f_equal. apply Z.mod_mod. lia.
Qed.

(** The byte loop of [writeBigIntToBuffer] stores the little-endian
    bytes of the normalized value. *)
Lemma write_loop_le_bytes n : ∀ buf pos v,
  write_loop n buf pos v = set_bytes buf pos (le_bytes n v).
Proof.
  induction n as [|n IH]; intros buf pos v; simpl; [done|].
  rewrite IH. change 0xff with (Z.ones 8).
  rewrite Z.land_ones, Z.shiftr_div_pow2 by lia.
  reflexivity.
Qed.

End BufferFacts.

(** ** Discriminator deriver *)

Section Discriminator.

Lemma lower_char_upper c : is_upper c = true → Ascii.eqb (lower_char c) "_" = false.
Proof.
  destruct c as [[] [] [] [] [] [] [] []]; vm_compute; congruence.
Qed.

Lemma lower_char_other c : is_upper c = false → lower_char c = c.
Proof. unfold lower_char. by intros ->. Qed.

(** Past the first character both normalizations do the same. *)
Lemma replace_capitals_later s : ∀ offset,
  (0 < offset)%nat →
  replace_capitals offset s = spec_lower (spec_underscores false s).
Proof.
  induction s as [|c r IH]; intros offset Hpos; simpl; [reflexivity|].
  destruct (Nat.ltb_spec 0 offset) as [_|]; [|lia].
  rewrite andb_true_r.
  destruct (is_upper c) eqn:Hc; simpl.
  - by rewrite IH by lia.
  - by rewrite IH, lower_char_other by (done || lia).
Qed.

(** [toSnakeCase] is the normalization of the specification on every
    name that does not begin with an underscore. *)
Lemma toSnakeCase_spec name :
  startsWith "_" name = false → toSnakeCase name = spec_snake_case name.
Proof.
  destruct name as [|c r]; [reflexivity|].
  change (startsWith "_" (String c r)) with (Ascii.eqb "_" c && true).
  rewrite andb_true_r, Ascii.eqb_sym. intros Hc.
  unfold toSnakeCase, spec_snake_case, remove_leading_underscore, is_char.
  cbn [replace_capitals spec_underscores spec_lower Nat.ltb Nat.leb negb].
  rewrite andb_false_r.
  destruct (is_upper c) eqn:Hup; simpl.
  - rewrite lower_char_upper by done.
    by rewrite replace_capitals_later by lia.
  - rewrite Hc, lower_char_other by done.
    by rewrite replace_capitals_later by lia.
Qed.

Lemma hex_digit_val v : 0 ≤ v < 16 → digit_val 16 (hex_digit v) = Some v.
Proof.
  intros Hv. rewrite <- (Z2Nat.id v) by lia.
  assert (Hn : (Z.to_nat v < 16)%nat) by lia. revert Hn.
  generalize (Z.to_nat v) as n. intros n Hn.
  do 16 (destruct n as [|n]; [reflexivity|]). lia.
Qed.

Lemma bytes_of_hex_of_bytes l : Forall is_byte l → bytes_of_hex (hex_of_bytes l) = l.
Proof.
  induction 1 as [|b r Hb _ IH]; simpl; [reflexivity|].
  unfold is_byte in Hb.
  rewrite !hex_digit_val, IH
    by (try apply Z.mod_pos_bound; try split;
        try apply Z.div_pos; try apply Z.div_lt_upper_bound; lia).
  f_equal. symmetry. apply Z.div_mod. lia.
Qed.

Lemma be_bytes_are_bytes n : ∀ v, Forall is_byte (be_bytes n v).
Proof.
  induction n as [|n IH]; intros v; simpl; [constructor|].
  apply Forall_app. split; [apply IH|].
  repeat constructor; apply Z.mod_pos_bound; lia.
Qed.

Lemma digest_bytes msg : Forall is_byte (SHA256.digest msg).
Proof.
  unfold SHA256.digest.
  destruct (fold_left _ _ _) as [[[[[[[a b] c] d] e] f] g] h].
  rewrite !Forall_app. repeat split; apply be_bytes_are_bytes.
Qed.

Lemma digest_length msg : length (SHA256.digest msg) = 32%nat.
Proof.
  unfold SHA256.digest.
  by destruct (fold_left _ _ _) as [[[[[[[a b] c] d] e] f] g] h].
Qed.

(** The discriminator is the first eight bytes of the digest of the
    prefixed, normalized name. *)
Lemma getInstructionDiscriminator_digest name :
  getInstructionDiscriminator name
  = take 8 (SHA256.digest (utf8_bytes ("global:" +:+ toSnakeCase name))).
Proof.
  unfold getInstructionDiscriminator, sha256, slice.
  by rewrite bytes_of_hex_of_bytes by apply digest_bytes.
Qed.

Lemma getInstructionDiscriminator_length name :
  length (getInstructionDiscriminator name) = 8%nat.
Proof.
  rewrite getInstructionDiscriminator_digest, length_take, digest_length. lia.
Qed.

Lemma getInstructionDiscriminator_spec name :
  startsWith "_" name = false →
  getInstructionDiscriminator name = spec_discriminator name.
Proof.
  intros H. rewrite getInstructionDiscriminator_digest.
  unfold spec_discriminator. by rewrite toSnakeCase_spec.
Qed.

End Discriminator.

(** C4.  The claim: for every method name the discriminator is the first
    eight bytes of SHA-256 of [global:] followed by the name with an
    underscore before every upper-case letter but the first and then in
    lower case, [setAuthority] giving [set_authority].  [toSnakeCase] does
    so for [setAuthority], and for every name that does not begin with an
    underscore ([getInstructionDiscriminator_spec]); but its second
    [replace], which its comment reserves for a first character that was
    upper case, removes the underscore a name itself begins with: [_init] is
    hashed as [global:init], the discriminator of the method [init], and
    not as [global:_init]. *)
Theorem C4_leading_underscore_is_dropped :
  toSnakeCase "setAuthority" = "set_authority"
  ∧ spec_snake_case "_init" = "_init"
  ∧ toSnakeCase "_init" = "init"
  ∧ getInstructionDiscriminator "_init" = getInstructionDiscriminator "init"
  ∧ getInstructionDiscriminator "_init" ≠ spec_discriminator "_init".
Proof.
  repeat split; try (vm_compute; reflexivity).
  vm_compute. discriminate.
Qed.

(** ** Type resolver *)


(** C3, as amended.  [resolveArgType] returns the name of a primitive as
    it is, resolves an option and a compat-option to what their element
    resolves to, resolves a vector to [vec] and an array to [array], both
    of the unknown kind, and resolves a named type to its own name (to
    [string] when the name is empty): a named type is of the unknown kind
    only when its name is not a name the encoder recognizes, and every
    type of the unknown kind, an unrecognized primitive name included, is
    encoded by the fallback ([unknown_kind_fallback]). *)
Theorem C3_resolveArgType (t : TypeDescriptor) :
  match t with
  | Primitive kind => resolveArgType (to_json t) = kind
  | Option elem | CompatOption elem =>
      resolveArgType (to_json t) = resolveArgType (to_json elem)
  | Vector _ =>
      resolveArgType (to_json t) = "vec" ∧ unknown_kind (resolveArgType (to_json t)) = true
  | Array _ _ =>
      resolveArgType (to_json t) = "array" ∧ unknown_kind (resolveArgType (to_json t)) = true
  | Defined name =>
      resolveArgType (to_json t) = (if String.eqb name "" then "string" else name)
  end.
Proof.
  destruct t as [kind|elem|elem|elem|elem len|name]; try reflexivity.
  - by split.
  - by split.
  - simpl. by destruct (String.eqb name "").
Qed.

(** C3 as stated fails: a type defined under the name [u64] resolves to
    [u64], which is not of the unknown kind: the encoder writes it as a
    64-bit integer, eight bytes, and not as length-prefixed text. *)
Lemma C3_defined_name_is_not_unknown :
  resolveArgType (to_json (Defined "u64")) = "u64"
  ∧ unknown_kind (resolveArgType (to_json (Defined "u64"))) = false
  ∧ encode {| name := "initialize"; accounts := [];
              args := [{| arg_name := "amount"; arg_type := to_json (Defined "u64") |}] |}
           {[ "amount" := "7" ]}
    = Ok [175; 175; 109; 31; 13; 152; 155; 237; 7; 0; 0; 0; 0; 0; 0; 0].
Proof. repeat split; vm_compute; reflexivity. Qed.

(** ** Argument encoder *)

Section Encoder.

Implicit Types (c : cursor) (arg : IdlArg) (buf : list Z).

Lemma writeIntLE_inside ext min max buf v off :
  min ≤ v ≤ max → 0 ≤ off < 2 ^ 32 →
  off + Z.of_nat ext ≤ Z.of_nat (length buf) →
  writeIntLE ext min max buf v off
  = Ok (set_bytes buf off (le_bytes ext (v mod 2 ^ (8 * Z.of_nat ext)))).
Proof.
  intros Hv Hoff Hroom. unfold writeIntLE, checkInt.
  rewrite Z.mod_small by lia.
  destruct (Z.ltb_spec max v); [lia|].
  destruct (Z.ltb_spec v min); [lia|].
  destruct (Z.ltb_spec (Z.of_nat (length buf)) (off + Z.of_nat ext)); [lia|].
  reflexivity.
Qed.


Lemma writeIntLE_length ext min max buf v off buf' :
  writeIntLE ext min max buf v off = Ok buf' → length buf' = length buf.
Proof.
  unfold writeIntLE. destruct (checkInt _ _ _ _ _ _); simpl; [|discriminate].
  intros [= <-]. apply set_bytes_length.
Qed.

Lemma ensureNumberRange_spec v bits signed argName typeLabel :
  ensureNumberRange v bits signed argName typeLabel
  = if ((if signed then - 2 ^ (bits - 1) else 0) <=? v)
       && (v <=? (if signed then 2 ^ (bits - 1) - 1 else 2 ^ bits - 1))
    then Ok tt
    else Throw (Error ("[" +:+ argName +:+ "] Value " +:+ Number_toString v
                       +:+ " is out of range for " +:+ typeLabel)).
Proof.
  unfold ensureNumberRange.
  destruct (Z.ltb_spec v (if signed then - 2 ^ (bits - 1) else 0)),
    (Z.ltb_spec (if signed then 2 ^ (bits - 1) - 1 else 2 ^ bits - 1) v),
    (Z.leb_spec (if signed then - 2 ^ (bits - 1) else 0) v),
    (Z.leb_spec v (if signed then 2 ^ (bits - 1) - 1 else 2 ^ bits - 1));
    cbn [andb orb]; try reflexivity; lia.
Qed.

Lemma ensureBigIntRange_spec v bits signed argName typeLabel :
  0 < bits →
  ensureBigIntRange v bits signed argName typeLabel
  = if ((if signed then - 2 ^ (bits - 1) else 0) <=? v)
       && (v <=? (if signed then 2 ^ (bits - 1) - 1 else 2 ^ bits - 1))
    then Ok tt
    else if negb signed && (v <? 0)
    then Throw (Error ("[" +:+ argName +:+ "] " +:+ typeLabel
                       +:+ " must be greater than or equal to 0"))
    else Throw (Error ("[" +:+ argName +:+ "] Value " +:+ Z_to_string v
                       +:+ " is out of range for " +:+ typeLabel)).
Proof.
  intros Hbits. unfold ensureBigIntRange.
  rewrite !Z.shiftl_1_l.
  destruct signed; simpl negb; cbn [andb].
  - destruct (Z.ltb_spec v (- 2 ^ (bits - 1))),
      (Z.ltb_spec (2 ^ (bits - 1) - 1) v),
      (Z.leb_spec (- 2 ^ (bits - 1)) v),
      (Z.leb_spec v (2 ^ (bits - 1) - 1));
      simpl; try reflexivity; lia.
  - destruct (Z.ltb_spec v 0), (Z.leb_spec 0 v); try lia; cbn [andb].
    + reflexivity.
    + destruct (Z.ltb_spec (2 ^ bits - 1) v), (Z.leb_spec v (2 ^ bits - 1));
        try reflexivity; lia.
Qed.

End Encoder.

Section IntegerArguments.

Implicit Types (k : IntKind) (c : cursor) (arg : IdlArg).

Lemma kind_width_bits k : Z.of_nat (kind_width k) * 8 = kind_bits k.
Proof. by destruct k. Qed.

Lemma kind_bits_pos k : 0 < kind_bits k.
Proof. by destruct k. Qed.

Lemma kind_label_signed k : startsWith "i" (kind_label k) = kind_signed k.
Proof. by destruct k. Qed.

Lemma kind_label_unsigned k : startsWith "u" (kind_label k) = negb (kind_signed k).
Proof. by destruct k. Qed.

Lemma encode_arg_narrow_kind k c arg raw :
  wide k = false → arg_type arg = JStr (kind_label k) →
  encode_arg c arg raw
  = encode_narrow (kind_bits k)
      (writeIntLE (kind_width k) 0 (2 ^ kind_bits k - 1))
      (writeIntLE (kind_width k) (- 2 ^ (kind_bits k - 1)) (2 ^ (kind_bits k - 1) - 1))
      c arg raw (kind_label k) (kind_label k).
Proof.
  destruct k; try discriminate; intros _ H; unfold encode_arg; rewrite H;
    reflexivity.
Qed.

Lemma encode_arg_wide_kind k c arg raw :
  wide k = true → arg_type arg = JStr (kind_label k) →
  encode_arg c arg raw = encode_wide c arg raw (kind_label k)
  ∧ BIGINT_BYTE_LENGTH (kind_label k) = Some (Z.of_nat (kind_width k)).
Proof.
  destruct k; try discriminate; intros _ H; unfold encode_arg; rewrite H;
    split; reflexivity.
Qed.

(** A value inside the range is its own residue, or the residue of its
    two's complement. *)
Lemma normalized_residue k v :
  in_range k v = true →
  (if kind_signed k && (v <? 0) then Z.shiftl 1 (kind_bits k) + v else v)
  = v mod 2 ^ kind_bits k.
Proof.
  unfold in_range, kind_min, kind_max. intros H.
  apply andb_true_iff in H as [Hlo Hhi].
  apply Z.leb_le in Hlo, Hhi.
  pose proof (kind_bits_pos k) as Hb.
  assert (Hpow : 2 ^ kind_bits k = 2 * 2 ^ (kind_bits k - 1)).
  { rewrite <- Z.pow_succ_r by lia. f_equal. lia. }
  assert (0 < 2 ^ (kind_bits k - 1)) by (apply Z.pow_pos_nonneg; lia).
  rewrite Z.shiftl_1_l.
  destruct (kind_signed k); cbn [andb].
  - destruct (Z.ltb_spec v 0).
    + apply (Z.mod_unique _ _ (-1)); lia.
    + symmetry. apply Z.mod_small. lia.
  - symmetry. apply Z.mod_small. lia.
Qed.

(** What the encoder does with an integer argument whose text parses:
    inside the range the bytes of the value are stored, outside it the
    call fails with the message of the range check. *)
Lemma encode_arg_integer k c arg raw v :
  arg_type arg = JStr (kind_label k) →
  parse_for k raw (arg_name arg) = Ok v →
  encode_arg c arg raw
  = if in_range k v then
      if wide k then
        Ok {| argsBuffer := set_bytes (argsBuffer c) (offset c) (kind_bytes k v);
              offset := offset c + Z.of_nat (kind_width k) |}
      else
        buf ← writeIntLE (kind_width k) (kind_min k) (kind_max k)
                         (argsBuffer c) v (offset c);
        Ok {| argsBuffer := buf; offset := offset c + Z.of_nat (kind_width k) |}
    else Throw (Error (range_message k (arg_name arg) v)).
Proof.
  intros Harg Hparse. unfold parse_for in Hparse.
  unfold range_message. destruct (wide k) eqn:Hw; cbn [andb].
  - destruct (encode_arg_wide_kind k c arg raw Hw Harg) as [-> Hlen].
    unfold encode_wide, writeBigIntToBuffer. rewrite Hlen, Hparse.
    rewrite kind_width_bits, kind_label_signed. unbind.
    rewrite ensureBigIntRange_spec by apply kind_bits_pos.
    fold (kind_min k) (kind_max k). fold (in_range k v).
    destruct (in_range k v) eqn:Hr.
    + rewrite normalized_residue by done.
      by rewrite Nat2Z.id, write_loop_le_bytes.
    + by destruct (negb (kind_signed k) && (v <? 0)).
  - rewrite (encode_arg_narrow_kind k) by done.
    unfold encode_narrow. rewrite Hparse. unbind.
    rewrite ensureNumberRange_spec, kind_label_signed, kind_label_unsigned.
    fold (kind_min k) (kind_max k). fold (in_range k v).
    destruct (in_range k v); [|reflexivity].
    replace (kind_bits k / 8) with (Z.of_nat (kind_width k))
      by (by destruct k).
    unfold kind_min, kind_max.
    by destruct (kind_signed k).
Qed.

End IntegerArguments.

Section Cursor.

Implicit Types (c : cursor) (arg : IdlArg).

Lemma written_set_bytes c bytes :
  0 ≤ offset c →
  offset c + Z.of_nat (length bytes) ≤ Z.of_nat (length (argsBuffer c)) →
  written c {| argsBuffer := set_bytes (argsBuffer c) (offset c) bytes;
               offset := offset c + Z.of_nat (length bytes) |}
  = map (fun b => b mod 256) bytes.
Proof.
  intros Hpos Hroom. unfold written. cbn [argsBuffer offset].
  rewrite <- (Z2Nat.id (offset c)) by done.
  apply slice_set_bytes. lia.
Qed.

Lemma set_bytes_prefix bytes : ∀ (buf : list Z) (n m : nat),
  (n ≤ m)%nat → take n (set_bytes buf (Z.of_nat m) bytes) = take n buf.
Proof.
  induction bytes as [|b r IH]; intros buf n m Hnm; simpl; [done|].
  rewrite set_index_nat.
  replace (Z.of_nat m + 1) with (Z.of_nat (S m)) by lia.
  rewrite IH by lia. apply take_insert_ge. lia.
Qed.

Lemma map_mod_bytes (bytes : list Z) :
  Forall is_byte bytes → map (fun b => b mod 256) bytes = bytes.
Proof.
  induction 1 as [|b r Hb _ IH]; simpl; [done|].
  unfold is_byte in Hb. by rewrite IH, Z.mod_small.
Qed.

(** Stores that fit append the bytes they store. *)
Lemma appends_set_bytes c bytes :
  0 ≤ offset c →
  offset c + Z.of_nat (length bytes) ≤ Z.of_nat (length (argsBuffer c)) →
  Forall is_byte bytes →
  appends c {| argsBuffer := set_bytes (argsBuffer c) (offset c) bytes;
               offset := offset c + Z.of_nat (length bytes) |} bytes.
Proof.
  intros Hpos Hroom Hbytes. split; [done|]. split.
  - rewrite written_set_bytes by done. by apply map_mod_bytes.
  - cbn [argsBuffer]. rewrite <- (Z2Nat.id (offset c)) at 2 by done.
    by apply set_bytes_prefix.
Qed.

Lemma le_bytes_are_bytes n : ∀ v, Forall is_byte (le_bytes n v).
Proof.
  induction n as [|n IH]; intros v; simpl; constructor; [|apply IH].
  apply Z.mod_pos_bound. lia.
Qed.

Lemma write_loop_length n : ∀ buf pos v, length (write_loop n buf pos v) = length buf.
Proof. intros. rewrite write_loop_le_bytes. apply set_bytes_length. Qed.

Lemma encode_wide_length c arg value typeName c' :
  encode_wide c arg value typeName = Ok c' →
  length (argsBuffer c') = length (argsBuffer c).
Proof.
  unfold encode_wide, writeBigIntToBuffer.
  destruct (BIGINT_BYTE_LENGTH typeName); [|discriminate].
  destruct (parseBigIntInput _ _); [|discriminate]. unbind.
  destruct (ensureBigIntRange _ _ _ _ _); [|discriminate].
  intros [= <-]. apply write_loop_length.
Qed.

Lemma encode_narrow_length bits ext umin umax smin smax c arg value rt tn c' :
  encode_narrow bits (writeIntLE ext umin umax) (writeIntLE ext smin smax)
                c arg value rt tn = Ok c' →
  length (argsBuffer c') = length (argsBuffer c).
Proof.
  unfold encode_narrow. unbind.
  destruct (parseIntegerInput _ _); [|discriminate].
  destruct (ensureNumberRange _ _ _ _ _); [|discriminate].
  destruct (startsWith "u" tn).
  - destruct (writeIntLE ext umin umax _ _ _) eqn:Hw; [|discriminate].
    intros [= <-]. eapply writeIntLE_length, Hw.
  - destruct (writeIntLE ext smin smax _ _ _) eqn:Hw; [|discriminate].
    intros [= <-]. eapply writeIntLE_length, Hw.
Qed.

Lemma encode_text_length c value c' :
  encode_text c value = Ok c' → length (argsBuffer c') = length (argsBuffer c).
Proof.
  unfold encode_text. unbind.
  destruct (writeUInt32LE _ _ _) eqn:Hw; [|discriminate].
  intros [= <-]. cbn [argsBuffer]. rewrite Buffer_copy_length.
  eapply writeIntLE_length, Hw.
Qed.

Lemma encode_bool_length c arg value c' :
  encode_bool c arg value = Ok c' → length (argsBuffer c') = length (argsBuffer c).
Proof.
  unfold encode_bool. unbind.
  destruct (_ || _).
  - destruct (writeUInt8 _ _ _) eqn:Hw; [|discriminate].
    intros [= <-]. eapply writeIntLE_length, Hw.
  - destruct (_ || _); [|discriminate].
    destruct (writeUInt8 _ _ _) eqn:Hw; [|discriminate].
    intros [= <-]. eapply writeIntLE_length, Hw.
Qed.

Lemma encode_pubkey_length c arg value c' :
  encode_pubkey c arg value = Ok c' → length (argsBuffer c') = length (argsBuffer c).
Proof.
  unfold encode_pubkey. destruct (PublicKey_toBuffer value); [|discriminate].
  intros [= <-]. apply Buffer_copy_length.
Qed.

(** No argument changes the length of the buffer. *)
Lemma encode_arg_length c arg value c' :
  encode_arg c arg value = Ok c' → length (argsBuffer c') = length (argsBuffer c).
Proof.
  unfold encode_arg.
  repeat match goal with
         | |- (if ?b then _ else _) = _ → _ => destruct b
         end;
    eauto using encode_wide_length, encode_text_length, encode_bool_length,
      encode_pubkey_length, encode_narrow_length.
Qed.

Lemma encode_array_like_length c key c' :
  encode_array_like c key = Ok c' → length (argsBuffer c') = length (argsBuffer c).
Proof.
  unfold encode_array_like. destruct (inherited_length key); [|discriminate]. unbind.
  destruct (writeUInt32LE _ _ _) eqn:Hw; [|discriminate].
  intros [= <-]. cbn [argsBuffer]. rewrite Buffer_copy_length.
  eapply writeIntLE_length, Hw.
Qed.

Lemma encode_inherited_length c arg c' :
  encode_inherited c arg = Ok c' → length (argsBuffer c') = length (argsBuffer c).
Proof.
  unfold encode_inherited.
  repeat match goal with
         | |- (if ?b then _ else _) = _ → _ => destruct b
         end;
    try discriminate; apply encode_array_like_length.
Qed.

(** A name that has a value, or that no object inherits, is read as the
    text typed for it. *)
Lemma encode_step_own c arg argValues :
  reads_inherited argValues (arg_name arg) = false →
  encode_step c arg argValues = encode_arg c arg (argValues !! arg_name arg).
Proof. unfold encode_step. by intros ->. Qed.

Lemma reads_inherited_value {A : Type} (obj : gmap string A) key a :
  obj !! key = Some a → reads_inherited obj key = false.
Proof. unfold reads_inherited. by intros ->. Qed.

Lemma encode_step_length c arg argValues c' :
  encode_step c arg argValues = Ok c' → length (argsBuffer c') = length (argsBuffer c).
Proof.
  unfold encode_step. destruct (reads_inherited _ _);
    [apply encode_inherited_length | apply encode_arg_length].
Qed.

Lemma encode_args_length args : ∀ c argValues c',
  encode_args c args argValues = Ok c' →
  length (argsBuffer c') = length (argsBuffer c).
Proof.
  induction args as [|arg rest IH]; intros c argValues c'; simpl.
  - by intros [= <-].
  - unbind. destruct (encode_step c arg _) as [c1|] eqn:H1; [|discriminate].
    intros H. rewrite (IH _ _ _ H). eapply encode_step_length, H1.
Qed.

Lemma start_length instruction :
  length (argsBuffer (start instruction)) = capacity.
Proof.
  unfold start, Buffer_alloc. cbn [argsBuffer].
  by rewrite Buffer_copy_length, length_replicate.
Qed.

(** An exception thrown for one argument is the outcome of the loop. *)
Lemma encode_args_throw c arg rest argValues e :
  encode_step c arg argValues = Throw e →
  encode_args c (arg :: rest) argValues = Throw e.
Proof. simpl. by intros ->. Qed.

End Cursor.

Section Calls.

Implicit Types (k : IntKind) (c : cursor) (arg : IdlArg).

Lemma start_prefix instruction :
  take 8 (argsBuffer (start instruction))
  = getInstructionDiscriminator (name instruction).
Proof.
  pose proof (getInstructionDiscriminator_length (name instruction)) as Hlen.
  unfold start, Buffer_copy, Buffer_alloc. cbn [argsBuffer].
  rewrite length_replicate.
  change (Z.to_nat (Z.of_nat capacity - 0)) with (8 + 1016)%nat.
  rewrite (take_ge (getInstructionDiscriminator _)) by lia.
  change 0 with (Z.of_nat 0).
  rewrite set_bytes_inside
    by (rewrite length_replicate; change capacity with (8 + 1016)%nat; lia).
  rewrite map_mod_bytes.
  - rewrite take_0. simpl app. by apply take_app_length'.
  - rewrite getInstructionDiscriminator_digest. apply Forall_take, digest_bytes.
Qed.

(** The output of a call with one argument is the discriminator and
    then the bytes the argument appended. *)
Lemma encode_one_argument instructionName arg argValues c' bytes :
  reads_inherited argValues (arg_name arg) = false →
  encode_arg (start (one_argument instructionName arg)) arg (argValues !! arg_name arg)
  = Ok c' →
  appends (start (one_argument instructionName arg)) c' bytes →
  encode (one_argument instructionName arg) argValues
  = Ok (getInstructionDiscriminator instructionName ++ bytes).
Proof.
  intros Hown Henc (Hoff & Hwritten & Hprefix).
  unfold encode. cbn [args one_argument encode_args].
  rewrite encode_step_own, Henc by done. unbind.
  f_equal. unfold written, slice in *.
  change (offset (start (one_argument instructionName arg))) with 8 in *.
  change (Z.to_nat 8) with 8%nat in *. change (Z.to_nat 0) with 0%nat.
  rewrite drop_0, <- (take_drop 8 (take _ (argsBuffer c'))), Hwritten.
  f_equal. rewrite take_take, Hoff.
  replace (8 `min` Z.to_nat (8 + Z.of_nat (length bytes)))%nat with 8%nat by lia.
  rewrite Hprefix. apply (start_prefix (one_argument instructionName arg)).
Qed.

Lemma encode_one_argument_throw instructionName arg argValues e :
  reads_inherited argValues (arg_name arg) = false →
  encode_arg (start (one_argument instructionName arg)) arg (argValues !! arg_name arg)
  = Throw e →
  encode (one_argument instructionName arg) argValues = Throw e.
Proof.
  intros Hown Henc. unfold encode. cbn [args one_argument encode_args].
  by rewrite encode_step_own, Henc.
Qed.

(** The cursor of a call that begins has room for any one integer, for a
    boolean and for an empty text. *)
Lemma start_room instruction (w : Z) :
  w ≤ 1016 →
  0 ≤ offset (start instruction) < 2 ^ 32
  ∧ offset (start instruction) + w ≤ Z.of_nat (length (argsBuffer (start instruction))).
Proof.
  intros Hw. rewrite start_length.
  change (Z.of_nat capacity) with 1024. unfold start. cbn [offset]. lia.
Qed.

Lemma kind_bytes_length k v : length (kind_bytes k v) = kind_width k.
Proof. apply le_bytes_length. Qed.

Lemma in_range_bounds k v : in_range k v = true ↔ kind_min k ≤ v ≤ kind_max k.
Proof.
  unfold in_range. rewrite andb_true_iff, !Z.leb_le. tauto.
Qed.

(** An integer argument inside the range of its kind appends the bytes of
    the value. *)
Lemma encode_arg_in_range k c arg raw v :
  arg_type arg = JStr (kind_label k) →
  parse_for k raw (arg_name arg) = Ok v →
  0 ≤ offset c < 2 ^ 32 →
  offset c + Z.of_nat (kind_width k) ≤ Z.of_nat (length (argsBuffer c)) →
  in_range k v = true →
  ∃ c', encode_arg c arg raw = Ok c' ∧ appends c c' (kind_bytes k v).
Proof.
  intros Harg Hparse Hoff Hroom Hr.
  rewrite (encode_arg_integer k c arg raw v Harg Hparse), Hr.
  pose proof (kind_bytes_length k v) as Hbytes.
  assert (Happ :
    appends c {| argsBuffer := set_bytes (argsBuffer c) (offset c) (kind_bytes k v);
                 offset := offset c + Z.of_nat (kind_width k) |} (kind_bytes k v)).
  { rewrite <- Hbytes at 1.
    apply appends_set_bytes; [lia | lia | apply le_bytes_are_bytes]. }
  apply in_range_bounds in Hr.
  destruct (wide k).
  - by eexists.
  - rewrite writeIntLE_inside by lia. unbind.
    replace (8 * Z.of_nat (kind_width k)) with (kind_bits k)
      by (by destruct k).
    by eexists.
Qed.

(** An integer argument outside the range of its kind makes the call
    fail, whatever the cursor. *)
Lemma encode_arg_out_of_range k c arg raw v :
  arg_type arg = JStr (kind_label k) →
  parse_for k raw (arg_name arg) = Ok v →
  in_range k v = false →
  encode_arg c arg raw = Throw (Error (range_message k (arg_name arg) v)).
Proof.
  intros Harg Hparse Hr.
  by rewrite (encode_arg_integer k c arg raw v Harg Hparse), Hr.
Qed.

End Calls.

(** ** Range validation (C5) *)

(** The decimal text of the bounds of a kind, of the values one past
    them, of zero and of minus one parses to the value. *)
Lemma parse_for_bounds (k : IntKind) (argName : string) (v : Z) :
  In v [kind_min k; kind_max k; kind_min k - 1; kind_max k + 1; 0; -1] →
  parse_for k (Some (Z_to_string v)) argName = Ok v.
Proof.
  intros Hv. simpl in Hv.
  destruct k;
    repeat (destruct Hv as [<- | Hv]; [vm_compute; reflexivity|]);
    contradiction.
Qed.

(** C5, as amended.  For every integer kind of [b] bits the encoder
    accepts exactly the values of [0, 2^b - 1] when the kind is unsigned
    and of [-2^(b-1), 2^(b-1) - 1] when it is signed.  At a write offset
    that leaves room for the bytes of the kind, a text that is read as a
    value inside the range is appended on the bytes of the kind, and so
    are the decimal texts of the two bounds; a text that is read as a
    value outside the range, such as the decimal texts of the values one
    past the bounds, makes the call fail with an [Error] whose message
    names the argument and the type, and the value too, printed as
    JavaScript prints it (a double for the kinds of up to 32 bits), except
    for a negative value of [u64] or [u128], whose message says that the
    type must be greater than or equal to 0 ([range_message]). *)
Theorem C5_range_validation (k : IntKind) (c : cursor) (arg : IdlArg) :
  arg_type arg = JStr (kind_label k) →
  0 ≤ offset c < 2 ^ 32 →
  offset c + Z.of_nat (kind_width k) ≤ Z.of_nat (length (argsBuffer c)) →
  (∀ raw v,
     parse_for k raw (arg_name arg) = Ok v →
     kind_min k ≤ v ≤ kind_max k →
     ∃ c', encode_arg c arg raw = Ok c' ∧ appends c c' (kind_bytes k v))
  ∧ (∀ raw v,
       parse_for k raw (arg_name arg) = Ok v →
       v < kind_min k ∨ kind_max k < v →
       encode_arg c arg raw = Throw (Error (range_message k (arg_name arg) v)))
  ∧ (∀ v, In v [kind_min k; kind_max k] →
       ∃ c', encode_arg c arg (Some (Z_to_string v)) = Ok c'
             ∧ appends c c' (kind_bytes k v))
  ∧ (∀ v, In v [kind_min k - 1; kind_max k + 1] →
       encode_arg c arg (Some (Z_to_string v))
       = Throw (Error (range_message k (arg_name arg) v))).
Proof.
  intros Harg Hoff Hroom.
  assert (Hinside : ∀ raw v,
            parse_for k raw (arg_name arg) = Ok v → kind_min k ≤ v ≤ kind_max k →
            ∃ c', encode_arg c arg raw = Ok c' ∧ appends c c' (kind_bytes k v)).
  { intros raw v Hparse Hv. apply encode_arg_in_range; [done..|].
    by apply in_range_bounds. }
  assert (Houtside : ∀ raw v,
            parse_for k raw (arg_name arg) = Ok v → v < kind_min k ∨ kind_max k < v →
            encode_arg c arg raw = Throw (Error (range_message k (arg_name arg) v))).
  { intros raw v Hparse Hv. apply encode_arg_out_of_range; [done..|].
    destruct (in_range k v) eqn:Hr; [|done].
    apply in_range_bounds in Hr. lia. }
  assert (Hbounds : kind_min k ≤ kind_max k) by (destruct k; vm_compute; discriminate).
  split; [exact Hinside|]. split; [exact Houtside|]. split.
  - intros v Hv. apply Hinside.
    + apply parse_for_bounds. simpl. simpl in Hv. tauto.
    + simpl in Hv. destruct Hv as [<- | [<- | []]]; lia.
  - intros v Hv. apply Houtside.
    + apply parse_for_bounds. simpl. simpl in Hv. tauto.
    + simpl in Hv. destruct Hv as [<- | [<- | []]]; lia.
Qed.

Lemma C5_range_validation_witness :
  (∃ c', encode_arg sample_cursor (sample_arg "x" "u8") (Some "255") = Ok c'
         ∧ appends sample_cursor c' (kind_bytes U8 255))
  ∧ encode_arg sample_cursor (sample_arg "x" "u8") (Some "256")
    = Throw (Error (range_message U8 "x" 256)).
Proof.
  destruct (C5_range_validation U8 sample_cursor (sample_arg "x" "u8"))
    as (_ & _ & Hbound & Hpast).
  - reflexivity.
  - vm_compute. split; [discriminate | reflexivity].
  - vm_compute. discriminate.
  - split.
    + apply (Hbound 255). right. left. reflexivity.
    + apply (Hpast 256). right. left. reflexivity.
Defined.

(** A value that no text of digits of the range names is printed as the
    double it is read as. *)
Example u32_1e21 :
  encode (one_argument "initialize" (sample_arg "x" "u32")) {[ "x" := "1e21" ]}
  = Throw (Error "[x] Value 1e+21 is out of range for u32")
  ∧ encode (one_argument "initialize" (sample_arg "x" "u32")) {[ "x" := "1e400" ]}
    = Throw (Error "[x] Value must be a finite number")
  ∧ encode (one_argument "initialize" (sample_arg "x" "u8"))
           {[ "x" := "255.00000000000000001" ]}
    = Ok (initialize_discriminator ++ [0xFF]).
Proof. repeat split; vm_compute; reflexivity. Qed.

(** Two examples of the specification: [-1] of kind [i16] is stored as
    [FF FF], and the text [Hello] is stored after its length. *)
Example i16_and_text :
  encode (one_argument "initialize" (sample_arg "delta" "i16")) {[ "delta" := "-1" ]}
  = Ok (initialize_discriminator ++ [0xFF; 0xFF])
  ∧ encode (one_argument "initialize" (sample_arg "greeting" "string"))
           {[ "greeting" := "Hello" ]}
    = Ok (initialize_discriminator ++ [5; 0; 0; 0; 0x48; 0x65; 0x6c; 0x6c; 0x6f]).
Proof. split; vm_compute; reflexivity. Qed.

(** Two more: [255] of kind [u8] is stored as the byte [0xFF], and [256]
    fails. *)
Example u8_255_and_256 :
  encode {| name := "initialize"; accounts := []; args := [sample_arg "x" "u8"] |}
         {[ "x" := "255" ]}
  = Ok [175; 175; 109; 31; 13; 152; 155; 237; 255]
  ∧ encode {| name := "initialize"; accounts := []; args := [sample_arg "x" "u8"] |}
           {[ "x" := "256" ]}
    = Throw (Error "[x] Value 256 is out of range for u8").
Proof. split; vm_compute; reflexivity. Qed.

(** C5 as stated fails: [-1] is one past the lower bound of [u64], and the
    message of the failure does not name the value. *)
Lemma C5_negative_u64_message_has_no_value :
  kind_min U64 - 1 = -1
  ∧ encode {| name := "initialize"; accounts := []; args := [sample_arg "x" "u64"] |}
           {[ "x" := "-1" ]}
    = Throw (Error "[x] u64 must be greater than or equal to 0")
  ∧ includes "-1" "[x] u64 must be greater than or equal to 0" = false.
Proof. repeat split; vm_compute; reflexivity. Qed.

(** ** Boolean arguments (C8) *)

Lemma encode_arg_bool c arg value :
  toLowerCase (resolveArgType (arg_type arg)) = "bool" →
  encode_arg c arg value
  = match bool_byte (toLowerCase (trim (default "" value))) with
    | Some b =>
        buf ← writeUInt8 (argsBuffer c) b (offset c);
        Ok {| argsBuffer := buf; offset := offset c + 1 |}
    | None =>
        Throw (Error ("[" +:+ arg_name arg
                      +:+ "] Invalid bool value. Use true/false or 1/0."))
    end.
Proof.
  intros Htype.
  transitivity (encode_bool c arg value);
    [unfold encode_arg; rewrite Htype; reflexivity|].
  unfold encode_bool, bool_byte. cbn [existsb]. rewrite !orb_false_r.
  rewrite <- !orb_assoc.
  destruct (_ || _); [reflexivity|].
  by destruct (_ || _).
Qed.

(** The names under which every object inherits a property. *)
Lemma inherited_names (key : string) :
  inherited key = true → In key (map fst object_prototype).
Proof.
  unfold inherited. intros H. apply existsb_exists in H as (p & Hin & Heq).
  apply String.eqb_eq in Heq as <-. by apply in_map.
Qed.

(** What an object inherits is shown as a text that is none of the
    spellings of a boolean. *)
Lemma inherited_text_no_boolean (key : string) :
  inherited key = true → bool_byte (toLowerCase (trim (inherited_text key))) = None.
Proof.
  intros H. apply inherited_names in H. simpl in H.
  repeat (destruct H as [<- | H]; [vm_compute; reflexivity|]). contradiction.
Qed.

(** C8.  A boolean argument is trimmed and lower-cased; the empty text,
    [false] and [0] are appended as the single byte [0x00], [true] and [1]
    as the single byte [0x01], and any other text makes the call fail with
    the error of an invalid boolean, which names the argument.  So it is
    wherever the argument stands, as long as a byte of the buffer is left
    for it, and so it is in particular for a call with that one argument.
    An argument without a text counts as the empty text, unless its name
    is one that every object inherits: [argValues] then holds a function
    under it (or [Object.prototype]), whose text is none of the five
    spellings, and the call fails with the same error. *)
Theorem C8_boolean_argument (arg : IdlArg) (value : option string) :
  toLowerCase (resolveArgType (arg_type arg)) = "bool" →
  match bool_byte (toLowerCase (trim (default "" value))) with
  | Some b =>
      (∀ c, 0 ≤ offset c < 2 ^ 32 →
            offset c + 1 ≤ Z.of_nat (length (argsBuffer c)) →
            ∃ c', encode_arg c arg value = Ok c' ∧ appends c c' [b])
      ∧ (∀ instructionName argValues,
           argValues !! arg_name arg = value →
           reads_inherited argValues (arg_name arg) = false →
           encode (one_argument instructionName arg) argValues
           = Ok (getInstructionDiscriminator instructionName ++ [b]))
  | None =>
      (∀ c, encode_arg c arg value
            = Throw (Error ("[" +:+ arg_name arg
                            +:+ "] Invalid bool value. Use true/false or 1/0.")))
      ∧ (∀ instructionName argValues,
           argValues !! arg_name arg = value →
           reads_inherited argValues (arg_name arg) = false →
           encode (one_argument instructionName arg) argValues
           = Throw (Error ("[" +:+ arg_name arg
                           +:+ "] Invalid bool value. Use true/false or 1/0.")))
  end
  ∧ (∀ instructionName argValues,
       reads_inherited argValues (arg_name arg) = true →
       bool_byte (toLowerCase (trim (inherited_text (arg_name arg)))) = None
       ∧ encode (one_argument instructionName arg) argValues
         = Throw (Error ("[" +:+ arg_name arg
                         +:+ "] Invalid bool value. Use true/false or 1/0."))).
Proof.
  intros Htype. split.
  - destruct (bool_byte _) as [b|] eqn:Hb.
    + assert (Hbyte : b = 0 ∨ b = 1).
      { unfold bool_byte in Hb.
        destruct (existsb _ _); [left; congruence|].
        destruct (existsb _ _); [right; congruence | discriminate]. }
      assert (Hcursor : ∀ c, 0 ≤ offset c < 2 ^ 32 →
                offset c + 1 ≤ Z.of_nat (length (argsBuffer c)) →
                ∃ c', encode_arg c arg value = Ok c' ∧ appends c c' [b]).
      { intros c Hoff Hroom. rewrite encode_arg_bool, Hb by done.
        unfold writeUInt8. rewrite writeIntLE_inside by lia. unbind.
        eexists. split; [reflexivity|].
        replace (le_bytes 1 (b mod 2 ^ (8 * Z.of_nat 1))) with [b]
          by (by destruct Hbyte as [-> | ->]).
        apply (appends_set_bytes c [b]); [lia | simpl; lia |].
        repeat constructor; unfold is_byte; lia. }
      split; [done|]. intros instructionName argValues Hvalue Hown.
      destruct (start_room (one_argument instructionName arg) 1) as [Hoff Hroom]; [lia|].
      destruct (Hcursor _ Hoff Hroom) as (c' & Henc & Happ).
      apply (encode_one_argument _ _ _ c'); [done | by rewrite Hvalue | done].
    + assert (Hcursor : ∀ c, encode_arg c arg value
                = Throw (Error ("[" +:+ arg_name arg
                                +:+ "] Invalid bool value. Use true/false or 1/0.")))
        by (intros c; by rewrite encode_arg_bool, Hb).
      split; [done|]. intros instructionName argValues Hvalue Hown.
      apply encode_one_argument_throw; [done | by rewrite Hvalue].
  - intros instructionName argValues Hinh. split.
    + apply inherited_text_no_boolean. unfold reads_inherited in Hinh.
      by destruct (argValues !! arg_name arg).
    + unfold encode. cbn [args one_argument encode_args].
      unfold encode_step. rewrite Hinh. unfold encode_inherited. by rewrite Htype.
Qed.

Lemma C8_boolean_argument_witness :
  match bool_byte (toLowerCase (trim (default "" (Some "  True ")))) with
  | Some b =>
      (∀ c, 0 ≤ offset c < 2 ^ 32 →
            offset c + 1 ≤ Z.of_nat (length (argsBuffer c)) →
            ∃ c', encode_arg c (sample_arg "active" "bool") (Some "  True ") = Ok c'
                  ∧ appends c c' [b])
      ∧ (∀ instructionName argValues,
           argValues !! arg_name (sample_arg "active" "bool") = Some "  True " →
           reads_inherited argValues (arg_name (sample_arg "active" "bool")) = false →
           encode (one_argument instructionName (sample_arg "active" "bool")) argValues
           = Ok (getInstructionDiscriminator instructionName ++ [b]))
  | None =>
      (∀ c, encode_arg c (sample_arg "active" "bool") (Some "  True ")
            = Throw (Error ("[" +:+ arg_name (sample_arg "active" "bool")
                            +:+ "] Invalid bool value. Use true/false or 1/0.")))
      ∧ (∀ instructionName argValues,
           argValues !! arg_name (sample_arg "active" "bool") = Some "  True " →
           reads_inherited argValues (arg_name (sample_arg "active" "bool")) = false →
           encode (one_argument instructionName (sample_arg "active" "bool")) argValues
           = Throw (Error ("[" +:+ arg_name (sample_arg "active" "bool")
                           +:+ "] Invalid bool value. Use true/false or 1/0.")))
  end
  ∧ (∀ instructionName argValues,
       reads_inherited argValues (arg_name (sample_arg "active" "bool")) = true →
       bool_byte (toLowerCase (trim (inherited_text (arg_name (sample_arg "active" "bool")))))
       = None
       ∧ encode (one_argument instructionName (sample_arg "active" "bool")) argValues
         = Throw (Error ("[" +:+ arg_name (sample_arg "active" "bool")
                         +:+ "] Invalid bool value. Use true/false or 1/0."))).
Proof.
  apply (C8_boolean_argument (sample_arg "active" "bool") (Some "  True ")).
  reflexivity.
Defined.

(** The five recognized spellings and one that is refused, through the
    whole encoder. *)
Example boolean_spellings :
  let call text :=
    encode {| name := "initialize"; accounts := [];
              args := [sample_arg "active" "Bool"] |} {[ "active" := text ]} in
  let bytes b := Ok [175; 175; 109; 31; 13; 152; 155; 237; b] in
  call "" = bytes 0 ∧ call " FALSE" = bytes 0 ∧ call "0" = bytes 0
  ∧ call "true " = bytes 1 ∧ call "1" = bytes 1
  ∧ call "yes" = Throw (Error "[active] Invalid bool value. Use true/false or 1/0.").
Proof. repeat split; vm_compute; reflexivity. Qed.

(** A boolean argument named [constructor] for which nothing is typed is
    not read as the empty text: the function every object inherits under
    that name is, and it is refused. *)
Example boolean_named_constructor :
  encode {| name := "initialize"; accounts := [];
            args := [sample_arg "constructor" "bool"] |} ∅
  = Throw (Error "[constructor] Invalid bool value. Use true/false or 1/0.").
Proof. vm_compute. reflexivity. Qed.

(** ** Text arguments and the capacity of the buffer (C10, C1) *)

Section Capacity.

Implicit Types (c : cursor) (arg : IdlArg).



Lemma writeIntLE_no_room ext min max buf v off :
  0 ≤ off < 2 ^ 32 → Z.of_nat (length buf) < off + Z.of_nat ext →
  ∃ e, writeIntLE ext min max buf v off = Throw e.
Proof.
  intros Hoff Hroom. unfold writeIntLE, checkInt.
  rewrite Z.mod_small by lia.
  destruct (_ || _); [by eexists|].
  destruct (Z.ltb_spec (Z.of_nat (length buf)) (off + Z.of_nat ext)); [|lia].
  by eexists.
Qed.

Lemma encode_text_no_room c value :
  0 ≤ offset c < 2 ^ 32 →
  Z.of_nat (length (argsBuffer c)) < offset c + 4 →
  ∃ e, encode_text c value = Throw e.
Proof.
  intros Hoff Hroom. unfold encode_text, writeUInt32LE.
  destruct (writeIntLE_no_room 4 0 0xffffffff (argsBuffer c)
              (Z.of_nat (length (utf8_bytes (or_empty value)))) (offset c))
    as [e ->]; [done | simpl; lia |].
  by eexists.
Qed.


Lemma encode_narrow_no_room bits ext umin umax smin smax c arg value rt tn :
  0 ≤ offset c < 2 ^ 32 →
  Z.of_nat (length (argsBuffer c)) < offset c + Z.of_nat ext →
  ∃ e, encode_narrow bits (writeIntLE ext umin umax) (writeIntLE ext smin smax)
                     c arg value rt tn = Throw e.
Proof.
  intros Hoff Hroom. unfold encode_narrow. unbind.
  destruct (parseIntegerInput _ _) as [v|]; [|by eexists].
  destruct (ensureNumberRange _ _ _ _ _); [|by eexists].
  destruct (startsWith "u" tn).
  - destruct (writeIntLE_no_room ext umin umax (argsBuffer c) v (offset c))
      as [e ->]; [done..|]. by eexists.
  - destruct (writeIntLE_no_room ext smin smax (argsBuffer c) v (offset c))
      as [e ->]; [done..|]. by eexists.
Qed.

Lemma encode_bool_no_room c arg value :
  0 ≤ offset c < 2 ^ 32 →
  Z.of_nat (length (argsBuffer c)) < offset c + 1 →
  ∃ e, encode_bool c arg value = Throw e.
Proof.
  intros Hoff Hroom. unfold encode_bool, writeUInt8. unbind.
  destruct (_ || _).
  - destruct (writeIntLE_no_room 1 0 0xff (argsBuffer c) 0 (offset c))
      as [e ->]; [done | simpl; lia |]. by eexists.
  - destruct (_ || _); [|by eexists].
    destruct (writeIntLE_no_room 1 0 0xff (argsBuffer c) 1 (offset c))
      as [e ->]; [done | simpl; lia |]. by eexists.
Qed.

Lemma encode_array_like_no_room c key :
  0 ≤ offset c < 2 ^ 32 →
  Z.of_nat (length (argsBuffer c)) < offset c + 4 →
  ∃ e, encode_array_like c key = Throw e.
Proof.
  intros Hoff Hroom. unfold encode_array_like, writeUInt32LE.
  destruct (inherited_length key) as [len|]; [|by eexists].
  destruct (writeIntLE_no_room 4 0 0xffffffff (argsBuffer c)
              (Z.of_nat (length (replicate (Z.to_nat len) 0))) (offset c))
    as [e ->]; [done | simpl; lia |].
  by eexists.
Qed.

End Capacity.




(** A text argument named [constructor] for which nothing is typed is not
    missing for the encoder: [Buffer.from] reads the function every object
    inherits under that name as one undefined entry, and the argument is
    encoded as the length 1 and the byte 0. *)
Example missing_text_named_constructor :
  encode {| name := "initialize"; accounts := [];
            args := [sample_arg "constructor" "string"] |} ∅
  = Ok (initialize_discriminator ++ [1; 0; 0; 0; 0]).
Proof. vm_compute. reflexivity. Qed.

(** C1, as amended.  The output of a call that succeeds is never longer
    than the 1024 bytes of the buffer.  The encoder has no overflow error
    of its own: when an argument is written through a checked writer of the
    buffer package (an integer of up to 32 bits, the byte of a boolean, the
    length prefix of a text) and the write would go past the end of the
    buffer, the writer throws, the loop over the arguments is left with
    that exception and no output is produced. *)
Theorem C1_output_within_capacity :
  (∀ instruction argValues out,
     encode instruction argValues = Ok out → (length out ≤ capacity)%nat)
  ∧ (∀ c arg rest argValues w,
       checked_width (resolveArgType (arg_type arg)) = Some w →
       length (argsBuffer c) = capacity →
       0 ≤ offset c < 2 ^ 32 →
       Z.of_nat capacity < offset c + w →
       ∃ e, encode_args c (arg :: rest) argValues = Throw e).
Proof.
  split.
  - intros instruction argValues out. unfold encode. unbind.
    destruct (encode_args _ _ _) as [c|] eqn:Hc; [|discriminate].
    intros [= <-]. unfold slice. rewrite length_drop, length_take.
    rewrite (encode_args_length _ _ _ _ Hc), start_length. lia.
  - intros c arg rest argValues w Hw Hlen Hoff Hroom.
    assert (H : ∃ e, encode_step c arg argValues = Throw e).
    { unfold encode_step. destruct (reads_inherited _ _).
      - revert Hw. unfold checked_width, encode_inherited.
        repeat match goal with
               | |- (if ?b then _ else _) = _ → _ => destruct b
               end;
          cbn [orb]; intros [= <-];
          first [ by eexists | apply encode_array_like_no_room; simpl; lia ].
      - revert Hw. unfold checked_width, encode_arg.
        unfold writeUInt32LE, writeInt32LE, writeUInt16LE, writeInt16LE,
          writeUInt8, writeInt8.
        repeat match goal with
               | |- (if ?b then _ else _) = _ → _ => destruct b
               end;
          intros [= <-];
          first [ apply encode_narrow_no_room
                | apply encode_text_no_room
                | apply encode_bool_no_room ];
          simpl; lia. }
    destruct H as [e H]. exists e. by apply encode_args_throw.
Qed.

Lemma C1_output_within_capacity_witness :
  (length (initialize_discriminator ++ [7%Z]) ≤ capacity)%nat
  ∧ ∃ e, encode_args {| argsBuffer := Buffer_alloc capacity; offset := 1022 |}
                     [sample_arg "amount" "u32"] {[ "amount" := "7" ]}
         = Throw e.
Proof.
  split.
  - apply (proj1 C1_output_within_capacity
             {| name := "initialize"; accounts := [];
                args := [sample_arg "amount" "u8"] |}
             {[ "amount" := "7" ]}).
    vm_compute. reflexivity.
  - apply (proj2 C1_output_within_capacity
             {| argsBuffer := Buffer_alloc capacity; offset := 1022 |}
             (sample_arg "amount" "u32") [] {[ "amount" := "7" ]} 4).
    + reflexivity.
    + reflexivity.
    + vm_compute. split; [discriminate | reflexivity].
    + vm_compute. reflexivity.
Defined.

(** C1 as stated fails: a text of 1100 bytes after the discriminator would
    take the write offset to 1112, yet the call succeeds, and its output is
    the 1024 bytes of the buffer, the text cut short. *)
Lemma C1_long_text_is_cut_short :
  match encode {| name := "initialize"; accounts := [];
                  args := [sample_arg "note" "string"] |}
               {[ "note" := letters 1100 ]} with
  | Ok out =>
      length out = 1024%nat
      ∧ out = [175; 175; 109; 31; 13; 152; 155; 237; 76; 4; 0; 0] ++ replicate 1012 97
  | Throw _ => False
  end.
Proof. vm_compute. split; reflexivity. Qed.

(** ** Return decoder *)

Section DecodeField.

Implicit Types (buffer : list Z) (type : ReturnFieldType).

Lemma get_index_inside buffer i :
  0 ≤ i < Z.of_nat (length buffer) → ∃ b, get_index buffer i = Some b.
Proof.
  intros Hi. unfold get_index.
  destruct (Z.leb_spec 0 i); [|lia].
  destruct (lookup_lt_is_Some_2 buffer (Z.to_nat i)) as [b Hb]; [lia|].
  by exists b.
Qed.

Lemma read_loop_inside buffer count : ∀ offset i acc,
  0 ≤ offset + i →
  offset + i + Z.of_nat count ≤ Z.of_nat (length buffer) →
  ∃ res, read_loop count buffer offset i acc = Ok res.
Proof.
  induction count as [|count IH]; intros offset i acc Hlo Hhi; simpl.
  - by eexists.
  - destruct (get_index_inside buffer (offset + i)) as [b ->]; [lia|].
    apply IH; lia.
Qed.

Lemma readBigIntFromBuffer_inside buffer offset byteLength signed :
  0 ≤ offset → 0 ≤ byteLength →
  offset + byteLength ≤ Z.of_nat (length buffer) →
  ∃ value, readBigIntFromBuffer buffer offset byteLength signed = Ok value.
Proof.
  intros Hoff Hlen Hroom. unfold readBigIntFromBuffer.
  destruct (read_loop_inside buffer (Z.to_nat byteLength) offset 0 0) as [res ->];
    [lia | lia |].
  unbind. destruct signed; [|by eexists].
  destruct (_ <=? _); by eexists.
Qed.

Lemma readUIntLE_inside buffer ext offset :
  0 ≤ offset < 2 ^ 32 → offset + Z.of_nat ext ≤ Z.of_nat (length buffer) →
  readUIntLE ext buffer offset
  = Ok (le_value (take ext (drop (Z.to_nat offset) buffer))).
Proof.
  intros Hoff Hroom. unfold readUIntLE.
  rewrite Z.mod_small by lia.
  destruct (Z.ltb_spec (Z.of_nat (length buffer)) (offset + Z.of_nat ext)); [lia|].
  reflexivity.
Qed.

Lemma ensureBytes_enough buffer offset required :
  required ≤ Z.of_nat (length buffer) - offset →
  ensureBytes buffer offset required = Ok tt.
Proof.
  intros H. unfold ensureBytes.
  by destruct (Z.ltb_spec (Z.of_nat (length buffer) - offset) required); [lia|].
Qed.

Lemma ensureBytes_short buffer offset required :
  Z.of_nat (length buffer) - offset < required →
  ensureBytes buffer offset required
  = Throw (Error (need_message required (Z.of_nat (length buffer) - offset))).
Proof.
  intros H. unfold ensureBytes.
  by destruct (Z.ltb_spec (Z.of_nat (length buffer) - offset) required); [|lia].
Qed.

Lemma le_value_nonneg bytes : Forall (fun b => 0 ≤ b) bytes → 0 ≤ le_value bytes.
Proof.
  unfold le_value, be_value. intros H.
  apply Forall_rev in H. revert H.
  assert (G : ∀ l acc, 0 ≤ acc → Forall (fun b => 0 ≤ b) l →
              0 ≤ fold_left (fun acc b => acc * 256 + b) l acc).
  { induction l as [|b l IH]; intros acc Hacc Hl; simpl; [done|].
    inversion Hl; subst. apply IH; [lia | done]. }
  apply G. lia.
Qed.

(** A field that fits is decoded, and the offset moves past it. *)
Lemma decode_field_fits buffer offset type :
  Z.of_nat (length buffer) ≤ K_MAX_LENGTH →
  0 ≤ offset → fits buffer offset type = true →
  ∃ value, decode_field buffer offset type
           = Ok (value, offset + field_size buffer offset type).
Proof.
  intros Hmax Hoff Hfits. unfold fits in Hfits. unfold K_MAX_LENGTH in Hmax.
  apply andb_true_iff in Hfits as [Hfixed Hsize].
  apply Z.leb_le in Hfixed, Hsize.
  destruct type; unfold decode_field; cbn [numericTypes];
    cbn [fixed_size field_size] in *;
    try (rewrite ensureBytes_enough by lia; unbind;
         match goal with
         | |- context [readBigIntFromBuffer buffer offset ?n ?s] =>
             destruct (readBigIntFromBuffer_inside buffer offset n s) as [value ->];
             [lia | lia | lia | by eexists]
         end).
  - rewrite ensureBytes_enough by lia. unbind.
    unfold readUInt8. rewrite readUIntLE_inside by (simpl; lia).
    by eexists.
  - rewrite ensureBytes_enough by lia. unbind.
    unfold readUInt32LE. rewrite readUIntLE_inside by (simpl; lia).
    rewrite ensureBytes_enough by lia.
    eexists. f_equal. f_equal. lia.
  - rewrite ensureBytes_enough by lia. unbind.
    unfold readUInt32LE. rewrite readUIntLE_inside by (simpl; lia).
    rewrite ensureBytes_enough by lia.
    eexists. f_equal. f_equal. lia.
  - rewrite ensureBytes_enough by lia. by eexists.
Qed.

(** A field that does not fit makes [ensureBytes] throw. *)
Lemma decode_field_short buffer offset type :
  Z.of_nat (length buffer) ≤ K_MAX_LENGTH →
  0 ≤ offset → fits buffer offset type = false →
  ∃ required remaining,
    decode_field buffer offset type = Throw (Error (need_message required remaining)).
Proof.
  intros Hmax Hoff Hfits. unfold fits in Hfits. unfold K_MAX_LENGTH in Hmax.
  apply andb_false_iff in Hfits.
  destruct (Z.leb_spec (fixed_size type) (Z.of_nat (length buffer) - offset))
    as [Hfixed|Hfixed].
  - destruct Hfits as [Hfits|Hfits]; [discriminate|].
    apply Z.leb_gt in Hfits.
    destruct type; cbn [fixed_size field_size] in *; try lia;
      unfold decode_field; cbn [numericTypes];
      rewrite ensureBytes_enough by lia; unbind;
      unfold readUInt32LE; rewrite readUIntLE_inside by (simpl; lia);
      rewrite ensureBytes_short by lia; by do 2 eexists.
  - destruct type; cbn [fixed_size] in *;
      unfold decode_field; cbn [numericTypes];
      rewrite ensureBytes_short by lia; by do 2 eexists.
Qed.

End DecodeField.

Section DecodeLoop.

Implicit Types (buffer : list Z) (layout : list ReturnField).

Lemma decode_loop_from buffer layout : ∀ offset decoded,
  decode_loop buffer layout offset decoded
  = decoded ++ decode_from buffer offset (length decoded) layout.
Proof.
  induction layout as [|field rest IH]; intros offset decoded; simpl.
  - by rewrite app_nil_r.
  - change (display_name field decoded) with (name_at field (length decoded)).
    destruct (decode_field buffer offset (field_type field)) as [[value offset']|e];
      [|reflexivity].
    rewrite IH, <- app_assoc, length_app. simpl.
    by replace (length decoded + 1)%nat with (S (length decoded)) by lia.
Qed.

Lemma field_size_nonneg buffer offset type :
  is_buffer buffer → 0 ≤ field_size buffer offset type.
Proof.
  intros [Hbytes _].
  assert (0 ≤ le_value (take 4 (drop (Z.to_nat offset) buffer))).
  { apply le_value_nonneg, Forall_take, Forall_drop.
    apply (Forall_impl _ _ _ Hbytes). by intros x [? ?]. }
  destruct type; simpl; lia.
Qed.

(** The entries follow the layout: the entry at an index has the type of
    the field at that index, and the name the field has there. *)
Lemma decode_from_order buffer layout : ∀ offset n i d,
  decode_from buffer offset n layout !! i = Some d →
  ∃ field, layout !! i = Some field
           ∧ decoded_type d = field_type field
           ∧ decoded_name d = name_at field (n + i).
Proof.
  induction layout as [|field rest IH]; intros offset n i d; simpl; [done|].
  destruct (decode_field buffer offset (field_type field)) as [[value offset']|e].
  - destruct i as [|i]; simpl.
    + intros [= <-]. exists field. by rewrite Nat.add_0_r.
    + intros H. destruct (IH _ _ _ _ H) as (f & ? & ? & ?).
      exists f. by replace (n + S i)%nat with (S n + i)%nat by lia.
  - destruct i as [|i]; simpl; [|done].
    intros [= <-]. exists field. by rewrite Nat.add_0_r.
Qed.

(** The loop stops at the first field that does not fit: the entries are
    as many as the fields before it and one more, the last of which holds
    the message of [ensureBytes]; when every field fits there is one entry
    for each. *)
Lemma decode_from_stop buffer layout : ∀ offset n,
  is_buffer buffer →
  0 ≤ offset →
  match first_failure buffer offset layout with
  | None => length (decode_from buffer offset n layout) = length layout
  | Some k =>
      length (decode_from buffer offset n layout) = S k
      ∧ ∃ d required remaining,
          decode_from buffer offset n layout !! k = Some d
          ∧ decoded_value d = "Decode error: " +:+ need_message required remaining
  end.
Proof.
  induction layout as [|field rest IH]; intros offset n Hbuf Hoff; simpl; [done|].
  pose proof (proj2 Hbuf) as Hlen.
  destruct (fits buffer offset (field_type field)) eqn:Hfits.
  - destruct (decode_field_fits buffer offset _ Hlen Hoff Hfits) as [value ->].
    pose proof (field_size_nonneg buffer offset (field_type field) Hbuf) as Hsize.
    specialize (IH (offset + field_size buffer offset (field_type field)) (S n) Hbuf).
    destruct (first_failure buffer _ rest) as [k|]; simpl.
    + destruct IH as [IHlen IHerr]; [lia|]. split; [by rewrite IHlen|done].
    + by rewrite IH by lia.
  - destruct (decode_field_short buffer offset _ Hlen Hoff Hfits)
      as (required & remaining & ->).
    split; [done|]. by eexists _, required, remaining.
Qed.

(** Before the first field that does not fit, every entry holds the text
    of a value that [decode_field] returned. *)
Lemma decode_from_values buffer layout : ∀ offset n i d,
  is_buffer buffer →
  0 ≤ offset →
  decode_from buffer offset n layout !! i = Some d →
  (∀ k, first_failure buffer offset layout = Some k → (i < k)%nat) →
  ∃ o o', decode_field buffer o (decoded_type d) = Ok (decoded_value d, o').
Proof.
  induction layout as [|field rest IH]; intros offset n i d Hbuf Hoff; simpl; [done|].
  pose proof (proj2 Hbuf) as Hlen.
  destruct (fits buffer offset (field_type field)) eqn:Hfits.
  - destruct (decode_field_fits buffer offset _ Hlen Hoff Hfits) as [value Hv].
    rewrite Hv.
    pose proof (field_size_nonneg buffer offset (field_type field) Hbuf) as Hsize.
    destruct i as [|i]; simpl.
    + intros [= <-] _. by eexists _, _.
    + intros Hd Hk. eapply IH; [done| |exact Hd|]; [lia|].
      intros k Hfail. rewrite Hfail in Hk. specialize (Hk (S k) eq_refl). lia.
  - intros _ Hk. specialize (Hk O eq_refl). lia.
Qed.

Lemma all_decode_first_failure buffer layout : ∀ offset,
  is_buffer buffer →
  0 ≤ offset →
  all_decode buffer offset layout = true ↔ first_failure buffer offset layout = None.
Proof.
  induction layout as [|field rest IH]; intros offset Hbuf Hoff; simpl; [done|].
  pose proof (proj2 Hbuf) as Hlen.
  destruct (fits buffer offset (field_type field)) eqn:Hfits.
  - destruct (decode_field_fits buffer offset _ Hlen Hoff Hfits) as [value ->].
    pose proof (field_size_nonneg buffer offset (field_type field) Hbuf) as Hsize.
    rewrite IH by (done || lia).
    destruct (first_failure buffer _ rest); simpl; split; congruence.
  - destruct (decode_field_short buffer offset _ Hlen Hoff Hfits)
      as (required & remaining & ->).
    split; congruence.
Qed.

End DecodeLoop.

Section DecodeErased.

Implicit Types (buffer : list Z) (layout : list LayoutField).

Lemma type_of_label_label t : type_of_label (type_label t) = Some t.
Proof. by destruct t. Qed.

Lemma type_of_label_Some label t : type_of_label label = Some t → label = type_label t.
Proof.
  unfold type_of_label, field_types. cbn [find type_label].
  repeat match goal with
         | |- context [String.eqb ?a label] =>
             destruct (String.eqb_spec a label) as [<-|?]; [by intros [= <-]|]
         end.
  done.
Qed.

Lemma decode_loop_erased_from buffer layout : ∀ offset decoded,
  decode_loop_erased buffer layout offset decoded
  = decoded ++ decode_from_erased buffer offset (length decoded) layout.
Proof.
  induction layout as [|field rest IH]; intros offset decoded; simpl.
  - by rewrite app_nil_r.
  - change (display_name_erased field decoded)
      with (name_at_erased field (length decoded)).
    destruct (decode_field_erased buffer offset (layout_type field))
      as [[value offset']|e]; [|reflexivity].
    rewrite IH, <- app_assoc, length_app. simpl.
    by replace (length decoded + 1)%nat with (S (length decoded)) by lia.
Qed.




(** On a layout that the type allows, the two decoders are one. *)
Lemma decode_from_erased_typed buffer (layout : list ReturnField) : ∀ offset n,
  decode_from_erased buffer (Some offset) n (map erase layout)
  = map erase_decoded (decode_from buffer offset n layout).
Proof.
  induction layout as [|field rest IH]; intros offset n; simpl; [done|].
  unfold decode_field_erased. rewrite type_of_label_label.
  destruct (decode_field buffer offset (field_type field)) as [[value offset']|e]; simpl.
  - by rewrite IH.
  - done.
Qed.

Lemma decodeWithLayout_erased_typed buffer (layout : list ReturnField) :
  decodeWithLayout_erased buffer (map erase layout)
  = map erase_decoded (decodeWithLayout buffer layout).
Proof.
  unfold decodeWithLayout_erased, decodeWithLayout.
  rewrite decode_loop_erased_from, decode_loop_from. simpl app. simpl length.
  apply decode_from_erased_typed.
Qed.

End DecodeErased.

Section TrailingBytes.

Implicit Types (buffer extra : list Z) (layout : list ReturnField).

Lemma get_index_app buffer extra i :
  0 ≤ i < Z.of_nat (length buffer) →
  get_index (buffer ++ extra) i = get_index buffer i.
Proof.
  intros Hi. unfold get_index. destruct (0 <=? i); [|done].
  apply lookup_app_l. lia.
Qed.

Lemma read_loop_app buffer extra count : ∀ offset i acc,
  0 ≤ offset + i →
  offset + i + Z.of_nat count ≤ Z.of_nat (length buffer) →
  read_loop count (buffer ++ extra) offset i acc = read_loop count buffer offset i acc.
Proof.
  induction count as [|count IH]; intros offset i acc Hlo Hhi; simpl; [done|].
  rewrite get_index_app by lia.
  destruct (get_index buffer (offset + i)); [|done].
  apply IH; lia.
Qed.

Lemma take_drop_app buffer extra o n :
  (o + n ≤ length buffer)%nat →
  take n (drop o (buffer ++ extra)) = take n (drop o buffer).
Proof.
  intros H. rewrite drop_app_le by lia.
  apply take_app_le. rewrite length_drop. lia.
Qed.

Lemma field_size_app buffer extra offset type :
  0 ≤ offset → fits buffer offset type = true →
  field_size (buffer ++ extra) offset type = field_size buffer offset type.
Proof.
  intros Hoff Hfits. unfold fits in Hfits.
  apply andb_true_iff in Hfits as [Hfixed _]. apply Z.leb_le in Hfixed.
  destruct type; try reflexivity; cbn [field_size fixed_size] in *;
    by rewrite take_drop_app by lia.
Qed.

(** Whatever follows the bytes of a field that fits has no part in its
    decoding. *)
Lemma decode_field_app buffer extra offset type :
  Z.of_nat (length buffer) ≤ K_MAX_LENGTH →
  0 ≤ offset → fits buffer offset type = true →
  decode_field (buffer ++ extra) offset type = decode_field buffer offset type.
Proof.
  intros Hmax Hoff Hfits. unfold K_MAX_LENGTH in Hmax.
  pose proof Hfits as Hfits'. unfold fits in Hfits'.
  apply andb_true_iff in Hfits' as [Hfixed Hsize].
  apply Z.leb_le in Hfixed, Hsize.
  assert (Hlen : Z.of_nat (length (buffer ++ extra))
                 = Z.of_nat (length buffer) + Z.of_nat (length extra))
    by (rewrite length_app; lia).
  destruct type; unfold decode_field; cbn [numericTypes];
    cbn [fixed_size field_size] in *;
    rewrite !ensureBytes_enough by lia; unbind;
    try (unfold readBigIntFromBuffer; by rewrite read_loop_app by lia).
  - unfold readUInt8. rewrite !readUIntLE_inside by (simpl; lia).
    by rewrite take_drop_app by lia.
  - unfold readUInt32LE. rewrite !readUIntLE_inside by (simpl; lia).
    rewrite take_drop_app by lia.
    rewrite !ensureBytes_enough by lia.
    unfold subarray. by rewrite take_drop_app by lia.
  - unfold readUInt32LE. rewrite !readUIntLE_inside by (simpl; lia).
    rewrite take_drop_app by lia.
    rewrite !ensureBytes_enough by lia.
    unfold subarray. by rewrite take_drop_app by lia.
  - unfold subarray. by rewrite take_drop_app by lia.
Qed.

Lemma decode_from_app buffer extra layout : ∀ offset n,
  is_buffer buffer → 0 ≤ offset →
  first_failure buffer offset layout = None →
  decode_from (buffer ++ extra) offset n layout = decode_from buffer offset n layout.
Proof.
  induction layout as [|field rest IH]; intros offset n Hbuf Hoff; simpl; [done|].
  pose proof (proj2 Hbuf) as Hlen.
  destruct (fits buffer offset (field_type field)) eqn:Hfits; [|done].
  rewrite decode_field_app by done.
  destruct (decode_field_fits buffer offset _ Hlen Hoff Hfits) as [value ->].
  pose proof (field_size_nonneg buffer offset (field_type field) Hbuf) as Hsize.
  destruct (first_failure buffer _ rest) eqn:Hrest; [done|].
  intros _. f_equal. apply IH; [done | lia | done].
Qed.

Lemma first_failure_app buffer extra layout : ∀ offset,
  is_buffer buffer → 0 ≤ offset →
  first_failure buffer offset layout = None →
  first_failure (buffer ++ extra) offset layout = None.
Proof.
  induction layout as [|field rest IH]; intros offset Hbuf Hoff; simpl; [done|].
  destruct (fits buffer offset (field_type field)) eqn:Hfits; [|done].
  assert (Hfits' : fits (buffer ++ extra) offset (field_type field) = true).
  { unfold fits in *. rewrite field_size_app by done.
    apply andb_true_iff in Hfits as [H1 H2]. apply Z.leb_le in H1, H2.
    rewrite length_app.
    apply andb_true_iff. split; apply Z.leb_le; lia. }
  rewrite Hfits', field_size_app by done.
  pose proof (field_size_nonneg buffer offset (field_type field) Hbuf).
  destruct (first_failure buffer _ rest) eqn:H1; [done|]. intros _.
  by rewrite IH by (done || lia).
Qed.

Lemma is_buffer_prefix buffer extra : is_buffer (buffer ++ extra) → is_buffer buffer.
Proof.
  intros [Hbytes Hlen]. split.
  - by apply Forall_app in Hbytes as [? _].
  - rewrite length_app in Hlen. lia.
Qed.

End TrailingBytes.

(** ** The decoder's theorems (C2, C7, C9) *)

(** C2, as amended.  When at least one byte remains at the offset of a
    boolean field, the decoder consumes exactly that byte, and the value is
    [true] when the byte is 1 and [false] for every other byte, 0 and 2 to
    255 alike. *)
Theorem C2_boolean_decoding (buffer : list Z) (offset byte : Z) :
  Z.of_nat (length buffer) ≤ K_MAX_LENGTH →
  0 ≤ offset →
  buffer !! Z.to_nat offset = Some byte →
  decode_field buffer offset TBool
  = Ok (if byte =? 1 then "true" else "false", offset + 1).
Proof.
  intros Hmax Hoff Hbyte. unfold K_MAX_LENGTH in Hmax.
  pose proof (lookup_lt_Some _ _ _ Hbyte) as Hlt.
  unfold decode_field. cbn [numericTypes].
  rewrite ensureBytes_enough by lia. unbind.
  unfold readUInt8. rewrite readUIntLE_inside by (simpl; lia).
  rewrite (drop_S _ _ _ Hbyte). unfold le_value, be_value. simpl.
  reflexivity.
Qed.

Lemma C2_boolean_decoding_witness :
  decode_field [10; 0; 0; 0; 1] 4 TBool
  = Ok (if 1 =? 1 then "true" else "false", 4 + 1).
Proof.
  apply (C2_boolean_decoding [10; 0; 0; 0; 1] 4 1).
  - vm_compute. discriminate.
  - lia.
  - reflexivity.
Defined.

(** C2 as stated fails: the byte 2 is not zero, and it is decoded as
    [false]. *)
Lemma C2_byte_two_decodes_as_false :
  decodeWithLayout [2] [sample_field "active" TBool]
  = [{| decoded_name := "active"; decoded_type := TBool; decoded_value := "false" |}].
Proof. vm_compute. reflexivity. Qed.



(** The layout [u32 amount, f32 ratio, bool active]: [f32] is no field
    type, its entry holds the decode error and [active] has none. *)
Example unsupported_type_stops :
  decodeWithLayout_erased [10; 0; 0; 0; 1] amount_ratio_active
  = [{| shown_name := "amount"; shown_type := "u32"; shown_value := "10" |};
     {| shown_name := "ratio"; shown_type := "f32";
        shown_value := "Decode error: Unsupported field type 'f32'" |}].
Proof. vm_compute. reflexivity. Qed.


(** C9.  When every field of the layout is decoded, there is exactly one
    entry for each field, and the bytes that follow the last field are
    ignored: with them the fields are all decoded too, and the result is
    the same, with no error entry and no trace of the surplus. *)
Theorem C9_trailing_bytes_are_ignored (buffer extra : list Z)
    (layout : list ReturnField) :
  is_buffer (buffer ++ extra) →
  all_decode buffer 0 layout = true →
  length (decodeWithLayout buffer layout) = length layout
  ∧ all_decode (buffer ++ extra) 0 layout = true
  ∧ decodeWithLayout (buffer ++ extra) layout = decodeWithLayout buffer layout.
Proof.
  intros Hall Hdec.
  pose proof (is_buffer_prefix _ _ Hall) as Hbuf.
  apply all_decode_first_failure in Hdec; [|done|lia].
  unfold decodeWithLayout. rewrite !decode_loop_from. simpl app. simpl length.
  pose proof (decode_from_stop buffer layout 0 O Hbuf) as Hstop.
  rewrite Hdec in Hstop.
  split; [apply Hstop; lia|]. split.
  - apply all_decode_first_failure; [done | lia |].
    apply first_failure_app; [done | lia | done].
  - apply decode_from_app; [done | lia | done].
Qed.

Lemma C9_trailing_bytes_are_ignored_witness :
  length (decodeWithLayout [10; 0; 0; 0; 1] amount_active) = length amount_active
  ∧ all_decode ([10; 0; 0; 0; 1] ++ [7; 7; 7]) 0 amount_active = true
  ∧ decodeWithLayout ([10; 0; 0; 0; 1] ++ [7; 7; 7]) amount_active
    = decodeWithLayout [10; 0; 0; 0; 1] amount_active.
Proof.
  apply (C9_trailing_bytes_are_ignored [10; 0; 0; 0; 1] [7; 7; 7] amount_active).
  - split.
    + repeat constructor; vm_compute; discriminate.
    + vm_compute. discriminate.
  - reflexivity.
Defined.

(** ** Round trip of the integer kinds (C6) *)

Section RoundTrip.

Implicit Types (k : IntKind) (c : cursor) (arg : IdlArg).

Lemma byte_split x : Z.lor (x mod 256) (Z.shiftl (x / 256) 8) = x.
Proof.
  change 256 with (2 ^ 8).
  rewrite <- Z.land_ones, <- Z.shiftr_div_pow2 by lia.
  apply Z.bits_inj'. intros n Hn.
  rewrite Z.lor_spec, Z.land_spec, Z.shiftl_spec by lia.
  destruct (Z.ltb_spec n 8).
  - rewrite Z.ones_spec_low, (Z.testbit_neg_r _ (n - 8)) by lia.
    by rewrite andb_true_r, orb_false_r.
  - rewrite Z.ones_spec_high, Z.shiftr_spec by lia.
    rewrite andb_false_r. simpl. f_equal. lia.
Qed.

(** Reading back the little-endian bytes of a value gives the value. *)
Lemma read_loop_le_bytes count : ∀ pre x acc,
  0 ≤ x < 2 ^ (8 * Z.of_nat count) →
  read_loop count (pre ++ le_bytes count x) 0 (Z.of_nat (length pre)) acc
  = Ok (Z.lor acc (Z.shiftl x (8 * Z.of_nat (length pre)))).
Proof.
  induction count as [|count IH]; intros pre x acc Hx.
  - simpl in *. assert (x = 0) as -> by lia.
    by rewrite Z.shiftl_0_l, Z.lor_0_r.
  - cbn [le_bytes read_loop].
    assert (Hget : get_index (pre ++ x mod 256 :: le_bytes count (x / 256))
                             (0 + Z.of_nat (length pre)) = Some (x mod 256)).
    { unfold get_index. destruct (Z.leb_spec 0 (0 + Z.of_nat (length pre))); [|lia].
      apply list_lookup_middle. lia. }
    rewrite Hget.
    rewrite (cons_middle (x mod 256)), app_assoc.
    replace (Z.of_nat (length pre) + 1) with (Z.of_nat (length (pre ++ [x mod 256])))
      by (rewrite length_app; simpl; lia).
    rewrite IH.
    + f_equal. rewrite length_app. simpl length.
      rewrite <- Z.lor_assoc. f_equal.
      replace (8 * Z.of_nat (length pre + 1)) with (8 + 8 * Z.of_nat (length pre)) by lia.
      rewrite <- Z.shiftl_shiftl, <- Z.shiftl_lor by lia.
      by rewrite byte_split.
    + replace (8 * Z.of_nat (S count)) with (8 + 8 * Z.of_nat count) in Hx by lia.
      rewrite Z.pow_add_r in Hx by lia. change (2 ^ 8) with 256 in Hx.
      split; [apply Z.div_pos; lia | apply Z.div_lt_upper_bound; lia].
Qed.

Lemma kind_field_numeric k :
  numericTypes (kind_field k) = Some (Z.of_nat (kind_width k), kind_signed k).
Proof. by destruct k. Qed.

(** The decoder reads back, from the bytes of a value inside the range of
    its kind, the decimal text of that value. *)
Lemma decode_field_kind_bytes k v :
  in_range k v = true →
  decode_field (kind_bytes k v) 0 (kind_field k)
  = Ok (Z_to_string v, Z.of_nat (kind_width k)).
Proof.
  intros Hr. unfold decode_field. rewrite kind_field_numeric.
  assert (Hlen : length (kind_bytes k v) = kind_width k) by apply le_bytes_length.
  rewrite ensureBytes_enough by lia. unbind.
  unfold readBigIntFromBuffer. rewrite Nat2Z.id.
  pose proof (kind_bits_pos k) as Hb.
  pose proof (kind_width_bits k) as Hw.
  assert (Hu : 0 ≤ v mod 2 ^ kind_bits k < 2 ^ kind_bits k)
    by (apply Z.mod_pos_bound, Z.pow_pos_nonneg; lia).
  unfold kind_bytes.
  pose proof (read_loop_le_bytes (kind_width k) [] (v mod 2 ^ kind_bits k) 0) as Hread.
  change (Z.of_nat (length (@nil Z))) with 0 in Hread.
  cbn [app] in Hread.
  rewrite Hread
    by (replace (8 * Z.of_nat (kind_width k)) with (kind_bits k) by lia; done).
  clear Hread. rewrite Z.mul_0_r, Z.shiftl_0_r, Z.lor_0_l.
  rewrite Hw, Z.shiftl_1_l, Z.shiftr_div_pow2 by lia.
  assert (Hpow : 2 ^ kind_bits k = 2 * 2 ^ (kind_bits k - 1)).
  { rewrite <- Z.pow_succ_r by lia. f_equal. lia. }
  assert (Hhalf : 2 ^ kind_bits k / 2 ^ 1 = 2 ^ (kind_bits k - 1)).
  { rewrite Hpow. change (2 ^ 1) with 2. rewrite Z.mul_comm. apply Z.div_mul. lia. }
  rewrite Hhalf.
  assert (0 < 2 ^ (kind_bits k - 1)) by (apply Z.pow_pos_nonneg; lia).
  rewrite <- (normalized_residue k v Hr), Z.shiftl_1_l in *.
  unfold in_range, kind_min, kind_max in Hr.
  apply andb_true_iff in Hr as [Hlo Hhi]. apply Z.leb_le in Hlo, Hhi.
  destruct (kind_signed k); cbn [andb] in *; unbind.
  - destruct (Z.ltb_spec v 0).
    + destruct (Z.leb_spec (2 ^ (kind_bits k - 1)) (2 ^ kind_bits k + v)); [|lia].
      rewrite Z.add_0_l. do 3 f_equal. lia.
    + destruct (Z.leb_spec (2 ^ (kind_bits k - 1)) v); [lia|]. by rewrite Z.add_0_l.
  - by rewrite Z.add_0_l.
Qed.

End RoundTrip.

(** C6.  For every integer kind and each of its minimum, its maximum, zero
    and, when the kind is signed, minus one: the encoder turns the decimal
    text of the value into the bytes of the value, little-endian on the
    width of the kind and in two's complement, both in a call with that one
    argument and wherever the argument stands with room left for it; and
    the decoder, given those bytes and a layout of one field of the kind,
    returns the one entry whose value is the decimal text again. *)
Theorem C6_integer_round_trip (k : IntKind) (v : Z) (arg : IdlArg)
    (field : ReturnField) :
  In v (round_trip_values k) →
  arg_type arg = JStr (kind_label k) →
  field_type field = kind_field k →
  (∀ instructionName argValues,
     argValues !! arg_name arg = Some (Z_to_string v) →
     encode (one_argument instructionName arg) argValues
     = Ok (getInstructionDiscriminator instructionName ++ kind_bytes k v))
  ∧ (∀ c, 0 ≤ offset c < 2 ^ 32 →
          offset c + Z.of_nat (kind_width k) ≤ Z.of_nat (length (argsBuffer c)) →
          ∃ c', encode_arg c arg (Some (Z_to_string v)) = Ok c'
                ∧ appends c c' (kind_bytes k v))
  ∧ decodeWithLayout (kind_bytes k v) [field]
    = [{| decoded_name := display_name field [];
          decoded_type := kind_field k;
          decoded_value := Z_to_string v |}].
Proof.
  intros Hv Harg Hfield.
  assert (Hparse : parse_for k (Some (Z_to_string v)) (arg_name arg) = Ok v).
  { apply parse_for_bounds. unfold round_trip_values in Hv. simpl.
    apply in_app_or in Hv as [Hv | Hv].
    - simpl in Hv. tauto.
    - destruct (kind_signed k); simpl in Hv; tauto. }
  assert (Hr : in_range k v = true).
  { unfold round_trip_values in Hv.
    apply in_app_or in Hv as [Hv | Hv]; simpl in Hv.
    - destruct Hv as [<- | [<- | [<- | []]]]; by destruct k.
    - destruct k; simpl in Hv; try contradiction;
        destruct Hv as [<- | []]; reflexivity. }
  assert (Hcursor : ∀ c, 0 ≤ offset c < 2 ^ 32 →
            offset c + Z.of_nat (kind_width k) ≤ Z.of_nat (length (argsBuffer c)) →
            ∃ c', encode_arg c arg (Some (Z_to_string v)) = Ok c'
                  ∧ appends c c' (kind_bytes k v))
    by (intros c Hoff Hroom; by apply encode_arg_in_range).
  split; [|split; [done|]].
  - intros instructionName argValues Hvalue.
    destruct (start_room (one_argument instructionName arg) (Z.of_nat (kind_width k)))
      as [Hoff Hroom]; [destruct k; vm_compute; discriminate|].
    destruct (Hcursor _ Hoff Hroom) as (c' & Henc & Happ).
    apply (encode_one_argument _ _ _ c');
      [by apply (reads_inherited_value _ _ _ Hvalue) | by rewrite Hvalue | done].
  - unfold decodeWithLayout. simpl decode_loop.
    by rewrite Hfield, decode_field_kind_bytes.
Qed.

Lemma C6_integer_round_trip_witness :
  (∀ instructionName argValues,
     argValues !! arg_name (sample_arg "delta" "i16") = Some (Z_to_string (-1)) →
     encode (one_argument instructionName (sample_arg "delta" "i16")) argValues
     = Ok (getInstructionDiscriminator instructionName ++ kind_bytes I16 (-1)))
  ∧ (∀ c, 0 ≤ offset c < 2 ^ 32 →
          offset c + Z.of_nat (kind_width I16) ≤ Z.of_nat (length (argsBuffer c)) →
          ∃ c', encode_arg c (sample_arg "delta" "i16") (Some (Z_to_string (-1))) = Ok c'
                ∧ appends c c' (kind_bytes I16 (-1)))
  ∧ decodeWithLayout (kind_bytes I16 (-1)) [sample_field "delta" TI16]
    = [{| decoded_name := display_name (sample_field "delta" TI16) [];
          decoded_type := kind_field I16;
          decoded_value := Z_to_string (-1) |}].
Proof.
  apply (C6_integer_round_trip I16 (-1) (sample_arg "delta" "i16")
           (sample_field "delta" TI16)).
  - simpl. tauto.
  - reflexivity.
  - reflexivity.
Defined.

(** * Further properties *)

(** ** Plain texts *)

Section Text.

Lemma chr_code c : chr (code c) = c.
Proof. unfold chr, code. by rewrite N2Z.id, ascii_N_embedding. Qed.

Lemma string_of_bytes_utf8 s : string_of_bytes (utf8_bytes s) = s.
Proof.
  unfold string_of_bytes, utf8_bytes. rewrite map_map.
  rewrite (map_ext _ id) by (intros c; apply chr_code).
  rewrite map_id. apply string_of_list_ascii_of_string.
Qed.

Lemma ws_head_plain b l : 33 ≤ b < 128 → ws_head (b :: l) = O.
Proof.
  intros Hb. unfold ws_head, white_space. cbn [find bytes_start].
  repeat match goal with
         | |- context [(?n =? b)] => destruct (Z.eqb_spec n b); [lia|]
         end.
  reflexivity.
Qed.

Lemma ws_last_plain b l : 33 ≤ b < 128 → ws_last (b :: l) = O.
Proof.
  intros Hb. unfold ws_last, white_space. cbn [find bytes_start rev app].
  repeat match goal with
         | |- context [(?n =? b)] => destruct (Z.eqb_spec n b); [lia|]
         end.
  reflexivity.
Qed.

Lemma strip_none ws fuel l : ws l = O → strip ws fuel l = l.
Proof. intros H. destruct fuel; simpl; [done|]. by rewrite H. Qed.

Lemma trim_plain s : plain s → trim s = s.
Proof.
  unfold plain, trim. intros H.
  assert (H1 : strip ws_head (length (utf8_bytes s)) (utf8_bytes s) = utf8_bytes s).
  { apply strip_none. destruct H; [reflexivity | by apply ws_head_plain]. }
  rewrite H1.
  assert (H2 : strip ws_last (length (utf8_bytes s)) (rev (utf8_bytes s))
               = rev (utf8_bytes s)).
  { apply strip_none. apply Forall_rev in H.
    destruct H; [reflexivity | by apply ws_last_plain]. }
  rewrite H2, rev_involutive. apply string_of_bytes_utf8.
Qed.

Lemma utf8_bytes_app s t : utf8_bytes (s +:+ t) = utf8_bytes s ++ utf8_bytes t.
Proof.
  unfold utf8_bytes. induction s as [|c r IH]; simpl; [done|]. by rewrite IH.
Qed.

Lemma plain_app s t : plain s → plain t → plain (s +:+ t).
Proof. unfold plain. rewrite utf8_bytes_app. apply Forall_app_2. Qed.

End Text.

(** ** Decimal numerals *)

Section Decimal.

Implicit Types (d : Decimal.uint) (l : list ascii).

Lemma chars_digits d : Forall (fun c => is_digit c = true) (chars d).
Proof. unfold chars. induction d; simpl; constructor; done. Qed.

Lemma digit_val_decimal c : is_digit c = true → digit_val 10 c = Some (code c - 48).
Proof.
  unfold is_digit, digit_val. intros H. rewrite H.
  apply andb_true_iff in H as [H1 H2]. apply Z.leb_le in H1, H2.
  destruct (Z.ltb_spec (code c - 48) 10); [done | lia].
Qed.

Lemma digits_from_decimal l : ∀ acc,
  Forall (fun c => is_digit c = true) l →
  digits_from 10 acc l = Some (fold_left decimal_step l acc).
Proof.
  induction l as [|c r IH]; intros acc H; simpl; [done|].
  inversion H; subst. rewrite digit_val_decimal by done. by apply IH.
Qed.

Lemma span_digits_all l :
  Forall (fun c => is_digit c = true) l → span_digits l = (l, []).
Proof.
  induction 1 as [|c r Hc _ IH]; simpl; [done|]. by rewrite Hc, IH.
Qed.

Lemma fold_chars_acc d : ∀ acc,
  fold_left decimal_step (chars d) (Z.pos acc) = Z.pos (Pos.of_uint_acc d acc).
Proof.
  unfold chars.
  induction d; intros acc;
    cbn [NilEmpty.string_of_uint list_ascii_of_string fold_left Pos.of_uint_acc];
    [done|..]; rewrite <- IHd; f_equal; unfold decimal_step; vm_compute code; lia.
Qed.

Lemma fold_chars d : fold_left decimal_step (chars d) 0 = Z.of_N (Pos.of_uint d).
Proof.
  unfold chars.
  induction d;
    cbn [NilEmpty.string_of_uint list_ascii_of_string fold_left Pos.of_uint Z.of_N];
    [done | exact IHd |..];
    rewrite <- (fold_chars_acc d); f_equal.
Qed.

Lemma chars_plain d : Forall (fun b => 33 ≤ b < 128) (map code (chars d)).
Proof.
  unfold chars. induction d; simpl; constructor; try done; vm_compute; split; discriminate || reflexivity.
Qed.

Lemma to_uint_chars p :
  list_ascii_of_string (NilZero.string_of_uint (Pos.to_uint p)) = chars (Pos.to_uint p)
  ∧ chars (Pos.to_uint p) ≠ [].
Proof.
  pose proof (Unsigned.to_uint_nonnil p) as H.
  unfold chars. destruct (Pos.to_uint p); simpl; try done.
Qed.

Lemma Z_to_string_plain v : plain (Z_to_string v).
Proof.
  unfold plain, utf8_bytes, Z_to_string.
  destruct v as [|p|p]; simpl.
  - repeat constructor; vm_compute; discriminate.
  - rewrite (proj1 (to_uint_chars p)). apply chars_plain.
  - constructor; [vm_compute; split; discriminate || reflexivity|].
    rewrite (proj1 (to_uint_chars p)). apply chars_plain.
Qed.

Lemma radix_prefix_digits l :
  Forall (fun c => is_digit c = true) l → radix_prefix l = None.
Proof.
  intros H. destruct l as [|z [|p r]]; try done.
  inversion H as [|? ? _ H']; subst. inversion H' as [|? ? Hp _]; subst.
  unfold radix_prefix.
  destruct (is_char z "0"); [|done].
  assert (G : ∀ x, is_digit p = true → 58 ≤ code x → is_char p (String x EmptyString) = false).
  { intros x Hd Hx. unfold is_char. apply Ascii.eqb_neq. intros ->.
    unfold is_digit in Hd. apply andb_true_iff in Hd as [_ Hd]. apply Z.leb_le in Hd. lia. }
  rewrite !G by (done || vm_compute; discriminate). done.
Qed.

Lemma is_digit_not c x :
  is_digit c = true → is_digit x = false → Ascii.eqb c x = false.
Proof.
  intros Hc Hx. apply Ascii.eqb_neq. intros ->. congruence.
Qed.

(** [BigInt] reads the decimal text of an integer back. *)
Lemma BigInt_Z_to_string v : BigInt (Z_to_string v) = Some v.
Proof.
  unfold BigInt. rewrite trim_plain by apply Z_to_string_plain.
  unfold Z_to_string. destruct v as [|p|p]; [reflexivity|..]; simpl.
  - destruct (to_uint_chars p) as [-> Hne].
    pose proof (chars_digits (Pos.to_uint p)) as Hd.
    destruct (chars (Pos.to_uint p)) as [|c r] eqn:Hc; [done|].
    rewrite radix_prefix_digits by done.
    inversion Hd; subst.
    rewrite !is_digit_not by done.
    unfold all_digits. rewrite digits_from_decimal by done.
    rewrite <- Hc, fold_chars, DecimalPos.Unsigned.of_to. done.
  - destruct (to_uint_chars p) as [-> Hne].
    pose proof (chars_digits (Pos.to_uint p)) as Hd.
    destruct (chars (Pos.to_uint p)) as [|c r] eqn:Hc; [done|].
    cbn -[all_digits].
    unfold all_digits. rewrite digits_from_decimal by done.
    rewrite <- Hc, fold_chars, DecimalPos.Unsigned.of_to. done.
Qed.

Lemma round_half_even_exact (a b : Z) : 0 < b → round_half_even (a * b) b = a.
Proof.
  intros Hb. unfold round_half_even.
  rewrite Z.div_mul, Z.mod_mul by lia. cbv zeta.
  destruct (Z.ltb_spec (2 * 0) b); [done | lia].
Qed.

(** An integer of at most 53 bits is a double. *)
Lemma nearest_double_integer (v : Z) :
  0 ≤ v ≤ 2 ^ 53 → nearest_double v 1 = Integral v.
Proof.
  intros Hv. unfold nearest_double.
  destruct (Z.eqb_spec v 0) as [->|Hne]; [done|].
  unfold binary_exponent. destruct (Z.leb_spec 1 v) as [_|]; [|lia].
  rewrite Z.div_1_r.
  assert (Hk : 0 ≤ Z.log2 v ≤ 53).
  { split; [apply Z.log2_nonneg|].
    rewrite <- (Z.log2_pow2 53) by lia. apply Z.log2_le_mono. lia. }
  destruct (Z.log2_spec v) as [Hlo Hhi]; [lia|].
  rewrite Z.max_l by lia. cbv zeta.
  destruct (Z.leb_spec 0 (Z.log2 v - 52)) as [He|He].
  - assert (Hcase : Z.log2 v = 52 ∨ Z.log2 v = 53) by lia.
    destruct Hcase as [H52 | H53].
    + rewrite H52 in *. change (52 - 52) with 0. change (1 * 2 ^ 0) with 1.
      assert (Hm : round_half_even v 1 = v)
        by (rewrite <- (Z.mul_1_r v) at 1; by apply round_half_even_exact).
      rewrite !Hm.
      destruct (Z.leb_spec (2 ^ 1024) (v * 2 ^ 0)) as [Hbig|_].
      * change (2 ^ 0) with 1 in Hbig.
        assert (Hpow : 2 ^ 53 < 2 ^ 1024) by reflexivity.
        apply (Z.le_lt_trans _ _ _ (proj2 Hv)) in Hpow. rewrite Z.mul_1_r in Hbig.
        exfalso. apply (Z.lt_irrefl v). by apply (Z.lt_le_trans _ _ _ Hpow).
      * f_equal. change (2 ^ 0) with 1. lia.
    + rewrite H53 in *. assert (v = 2 ^ 53) by lia. subst v.
      vm_compute. reflexivity.
  - assert (Hm : ∀ a, round_half_even a 1 = a)
      by (intros a; rewrite <- (Z.mul_1_r a) at 1; by apply round_half_even_exact).
    rewrite !Hm.
    assert (0 < 2 ^ (- (Z.log2 v - 52))) by (apply Z.pow_pos_nonneg; lia).
    rewrite Z.mod_mul by lia. cbn [Z.eqb]. by rewrite Z.div_mul by lia.
Qed.

Lemma unsigned_decimal_digits l :
  l ≠ [] → Forall (fun c => is_digit c = true) l →
  unsigned_decimal l = nearest_double (fold_left decimal_step l 0) 1.
Proof.
  intros Hne Hd. unfold unsigned_decimal.
  assert (Hinf : String.eqb (string_of_list_ascii l) "Infinity" = false).
  { destruct l as [|c r]; [done|]. inversion Hd; subst. simpl.
    destruct (Ascii.eqb_spec c "I"); [subst; done | done]. }
  rewrite Hinf, span_digits_all by done.
  rewrite app_nil_r. destruct l as [|c r]; [done|].
  cbn [exponent_part length Z.of_nat]. rewrite Z.sub_0_r. cbn [Z.leb Z.compare].
  f_equal. change (10 ^ 0) with 1. rewrite Z.mul_1_r. reflexivity.
Qed.

(** So does [Number], for an integer that a double holds. *)
Lemma Number_Z_to_string v :
  - 2 ^ 53 ≤ v ≤ 2 ^ 53 → Number (Z_to_string v) = Integral v.
Proof.
  intros Hv.
  unfold Number. rewrite trim_plain by apply Z_to_string_plain.
  unfold Z_to_string. destruct v as [|p|p]; [reflexivity|..]; simpl.
  - destruct (to_uint_chars p) as [-> Hne].
    pose proof (chars_digits (Pos.to_uint p)) as Hd.
    destruct (chars (Pos.to_uint p)) as [|c r] eqn:Hc; [done|].
    rewrite radix_prefix_digits by done.
    inversion Hd; subst.
    rewrite !is_digit_not by done.
    rewrite unsigned_decimal_digits by done.
    rewrite <- Hc, fold_chars, DecimalPos.Unsigned.of_to.
    apply nearest_double_integer. lia.
  - destruct (to_uint_chars p) as [-> Hne].
    pose proof (chars_digits (Pos.to_uint p)) as Hd.
    destruct (chars (Pos.to_uint p)) as [|c r] eqn:Hc; [done|].
    cbn -[unsigned_decimal].
    rewrite unsigned_decimal_digits by done.
    rewrite <- Hc, fold_chars, DecimalPos.Unsigned.of_to.
    rewrite nearest_double_integer by lia. done.
Qed.

Lemma Z_to_string_nonempty v : String.eqb (Z_to_string v) "" = false.
Proof.
  unfold Z_to_string. destruct v as [|p|p]; [done| |done]. simpl.
  pose proof (Unsigned.to_uint_nonnil p). by destruct (Pos.to_uint p).
Qed.

(** The text the decoder shows for an integer is a text the encoder
    parses to that integer, whatever the kind. *)
Lemma parse_for_Z_to_string (k : IntKind) argName v :
  in_range k v = true →
  parse_for k (Some (Z_to_string v)) argName = Ok v.
Proof.
  intros Hv. unfold parse_for. destruct (wide k) eqn:Hk.
  - unfold parseBigIntInput. cbn [default from_option id].
    rewrite trim_plain by apply Z_to_string_plain. cbv zeta.
    by rewrite Z_to_string_nonempty, BigInt_Z_to_string.
  - unfold parseIntegerInput.
    rewrite Z_to_string_nonempty, Number_Z_to_string; [done|].
    apply andb_true_iff in Hv as [Hlo Hhi]. apply Z.leb_le in Hlo, Hhi.
    assert (Hk' : - 2 ^ 53 ≤ kind_min k ∧ kind_max k ≤ 2 ^ 53)
      by (destruct k; try discriminate Hk; vm_compute; split; discriminate).
    lia.
Qed.

End Decimal.

(** ** Base 58 *)

Section Base58.

Implicit Types (l ds : list ascii) (bytes : list Z).

Lemma index_of_nth c l : ∀ k i,
  index_of c l k = Some i →
  k ≤ i < k + Z.of_nat (length l) ∧ nth (Z.to_nat (i - k)) l "1"%char = c.
Proof.
  induction l as [|d r IH]; intros k i; simpl; [done|].
  destruct (Ascii.eqb_spec c d) as [->|Hne].
  - intros [= <-]. rewrite Z.sub_diag. simpl. split; [lia | done].
  - intros H. destruct (IH _ _ H) as [Hi Hn]. split; [lia|].
    replace (Z.to_nat (i - k)) with (S (Z.to_nat (i - (k + 1)))) by lia.
    done.
Qed.

Lemma nth_index_of i :
  0 ≤ i < 58 →
  index_of (nth (Z.to_nat i) base58_alphabet "1"%char) base58_alphabet 0 = Some i.
Proof.
  intros Hi. rewrite <- (Z2Nat.id i) at 2 by lia.
  assert (Hn : (Z.to_nat i < 58)%nat) by lia. revert Hn.
  generalize (Z.to_nat i) as n. intros n Hn.
  do 58 (destruct n as [|n]; [reflexivity|]). lia.
Qed.

Lemma base58_value_app l1 : ∀ l2 acc,
  base58_value acc (l1 ++ l2) = base58_value acc l1 ≫= fun v => base58_value v l2.
Proof.
  induction l1 as [|c r IH]; intros l2 acc; cbn [app base58_value]; [done|].
  destruct (index_of c base58_alphabet 0); [apply IH | done].
Qed.

Lemma base58_value_ones n : ∀ acc,
  base58_value acc (replicate n "1"%char) = Some (acc * 58 ^ Z.of_nat n).
Proof.
  induction n as [|n IH]; intros acc; cbn [replicate].
  - cbn [base58_value]. f_equal. change (58 ^ Z.of_nat 0) with 1. lia.
  - cbn [base58_value]. change (index_of "1" base58_alphabet 0) with (Some 0).
    cbv beta iota. rewrite IH. f_equal. rewrite Nat2Z.inj_succ, Z.pow_succ_r by lia. lia.
Qed.

Lemma leading_replicate {A} (zero : A → bool) (x : A) n (l : list A) :
  zero x = true →
  leading zero (replicate n x ++ l) = (n + leading zero l)%nat.
Proof. intros H. induction n as [|n IH]; simpl; [done|]. by rewrite H, IH. Qed.

Lemma leading_split {A} (zero : A → bool) (l : list A) :
  leading zero l = O ∨ ∃ x r, l = x :: r ∧ zero x = true.
Proof. destruct l as [|x r]; simpl; [by left|]. destruct (zero x) eqn:H; eauto. Qed.

(** The digits [base58_digits] puts in front of what it is given: they
    spell the number, and the first of them is not the digit zero. *)
Lemma base58_digits_spec fuel : ∀ n acc,
  0 ≤ n < 58 ^ Z.of_nat fuel →
  ∃ ds, base58_digits fuel n acc = ds ++ acc
        ∧ (∀ a, base58_value a ds = Some (a * 58 ^ Z.of_nat (length ds) + n))
        ∧ leading (fun c => is_char c "1") ds = O
        ∧ (n = 0 → ds = []).
Proof.
  induction fuel as [|fuel IH]; intros n acc Hn.
  - change (58 ^ Z.of_nat 0) with 1 in Hn. exists []. repeat split; try done.
    intros a. cbn [base58_value length]. f_equal. change (58 ^ Z.of_nat 0) with 1. lia.
  - cbn [base58_digits]. destruct (Z.leb_spec n 0) as [Hz|Hpos].
    + exists []. repeat split; try done.
      intros a. cbn [base58_value length]. f_equal. change (58 ^ Z.of_nat 0) with 1. lia.
    + rewrite Nat2Z.inj_succ, Z.pow_succ_r in Hn by lia.
      assert (Hq : 0 ≤ n / 58 < 58 ^ Z.of_nat fuel).
      { split; [apply Z.div_pos; lia | apply Z.div_lt_upper_bound; lia]. }
      assert (Hr : 0 ≤ n mod 58 < 58) by (apply Z.mod_pos_bound; lia).
      set (ch := nth (Z.to_nat (n mod 58)) base58_alphabet "1"%char).
      destruct (IH (n / 58) (ch :: acc) Hq) as (ds & Heq & Hval & Hlead & Hzero).
      exists (ds ++ [ch]). rewrite Heq, <- app_assoc. split; [done|]. split; [|split].
      * intros a. rewrite base58_value_app, Hval. cbn [mbind option_bind base58_value].
        unfold ch. rewrite nth_index_of by done. f_equal.
        rewrite length_app, Nat2Z.inj_add. simpl length.
        change (Z.of_nat 1) with 1. rewrite Z.pow_add_r, Z.pow_1_r by lia.
        pose proof (Z.div_mod n 58). lia.
      * destruct ds as [|d ds'].
        -- simpl. unfold is_char.
           destruct (Ascii.eqb_spec ch "1") as [Hone|]; [|done].
           assert (Hidx : index_of ch base58_alphabet 0 = Some (n mod 58))
             by (apply nth_index_of; done).
           rewrite Hone in Hidx. change (index_of "1" base58_alphabet 0) with (Some 0) in Hidx.
           injection Hidx as Hidx.
           specialize (Hval 0). cbn [base58_value length] in Hval.
           injection Hval as Hval. change (58 ^ Z.of_nat 0) with 1 in Hval.
           pose proof (Z.div_mod n 58). lia.
        -- cbn [leading app] in *. by destruct (is_char d "1").
      * lia.
Qed.

Lemma be_value_acc bytes : ∀ acc,
  fold_left (fun acc b => acc * 256 + b) bytes acc
  = acc * 256 ^ Z.of_nat (length bytes) + be_value bytes.
Proof.
  unfold be_value.
  induction bytes as [|b r IH] using rev_ind; intros acc.
  - simpl. lia.
  - rewrite !fold_left_app. simpl. rewrite IH, length_app, Nat2Z.inj_add.
    simpl length. change (Z.of_nat 1) with 1.
    rewrite Z.pow_add_r, Z.pow_1_r by lia. lia.
Qed.

Lemma be_value_cons b bytes :
  be_value (b :: bytes) = b * 256 ^ Z.of_nat (length bytes) + be_value bytes.
Proof. unfold be_value at 1. simpl. apply be_value_acc. Qed.

Lemma be_value_bound bytes :
  Forall is_byte bytes → 0 ≤ be_value bytes < 256 ^ Z.of_nat (length bytes).
Proof.
  induction 1 as [|b r Hb _ IH]; [simpl; unfold be_value; simpl; lia|].
  rewrite be_value_cons. cbn [length]. rewrite Nat2Z.inj_succ, Z.pow_succ_r by lia.
  unfold is_byte in Hb. nia.
Qed.

Lemma be_value_zeros n bytes : be_value (replicate n 0 ++ bytes) = be_value bytes.
Proof.
  induction n as [|n IH]; simpl; [done|].
  rewrite be_value_cons. lia.
Qed.

Lemma be_bytes_snoc n : ∀ v,
  be_bytes (S n) v = (v / 256 ^ Z.of_nat n) mod 256 :: be_bytes n (v mod 256 ^ Z.of_nat n).
Proof.
  induction n as [|n IH]; intros v.
  - simpl. by rewrite Z.div_1_r.
  - change (be_bytes (S (S n)) v) with (be_bytes (S n) (v / 256) ++ [v mod 256]).
    rewrite IH. cbn [app be_bytes].
    rewrite Nat2Z.inj_succ, Z.pow_succ_r by lia.
    assert (Hp : 0 < 256 ^ Z.of_nat n) by (apply Z.pow_pos_nonneg; lia).
    assert (Hsplit : v mod (256 * 256 ^ Z.of_nat n)
                     = v mod 256 + 256 * ((v / 256) mod 256 ^ Z.of_nat n))
      by (apply Z.rem_mul_r; lia).
    assert (Hlow : 0 ≤ v mod 256 < 256) by (apply Z.mod_pos_bound; lia).
    f_equal; [by rewrite Z.div_div by lia|].
    f_equal.
    + f_equal. rewrite Hsplit.
      apply (Z.div_unique _ _ _ (v mod 256)); lia.
    + f_equal. rewrite Hsplit.
      apply (Z.mod_unique _ _ ((v / 256) mod 256 ^ Z.of_nat n)); lia.
Qed.

Lemma length_be_bytes n : ∀ v, length (be_bytes n v) = n.
Proof.
  induction n as [|n IH]; intros v; simpl; [done|].
  rewrite length_app, IH. simpl. lia.
Qed.

Lemma be_bytes_be_value bytes :
  Forall is_byte bytes → be_bytes (length bytes) (be_value bytes) = bytes.
Proof.
  induction 1 as [|b r Hb Hr IH]; [done|].
  cbn [length]. rewrite be_bytes_snoc, be_value_cons.
  pose proof (be_value_bound r Hr) as Hv. unfold is_byte in Hb.
  f_equal.
  - rewrite Z.div_add_l by lia. rewrite (Z.div_small (be_value r)) by done.
    rewrite Z.add_0_r. apply Z.mod_small. done.
  - rewrite Z.add_comm, Z.mod_add by lia. rewrite Z.mod_small by done. done.
Qed.

Lemma be_value_be_bytes n : ∀ v, 0 ≤ v < 256 ^ Z.of_nat n → be_value (be_bytes n v) = v.
Proof.
  induction n as [|n IH]; intros v Hv.
  - simpl in *. unfold be_value. simpl. lia.
  - rewrite be_bytes_snoc, be_value_cons.
    rewrite Nat2Z.inj_succ, Z.pow_succ_r in Hv by lia.
    assert (Hp : 0 < 256 ^ Z.of_nat n) by (apply Z.pow_pos_nonneg; lia).
    rewrite IH by (apply Z.mod_pos_bound; done).
    rewrite (Z.mod_small (v / _)).
    + rewrite length_be_bytes. pose proof (Z.div_mod v (256 ^ Z.of_nat n)). lia.
    + split; [apply Z.div_pos; lia | apply Z.div_lt_upper_bound; lia].
Qed.

End Base58.

(** ** The bytes of one argument *)

Section ArgumentBytes.

Implicit Types (k : IntKind) (c : cursor) (arg : IdlArg).

Lemma int_kind_label typeName k : int_kind typeName = Some k → typeName = kind_label k.
Proof.
  unfold int_kind. intros H. apply find_some in H as [_ H].
  by apply String.eqb_eq in H.
Qed.

Lemma int_kind_none typeName (k : IntKind) :
  int_kind typeName = None → String.eqb typeName (kind_label k) = false.
Proof.
  unfold int_kind. intros H.
  apply (find_none _ _ H k). destruct k; simpl; tauto.
Qed.

(** The branch of the encoder an integer type takes, the type being
    resolved and put in lower case first. *)
Lemma encode_arg_resolved k c arg raw :
  toLowerCase (resolveArgType (arg_type arg)) = kind_label k →
  encode_arg c arg raw
  = if wide k then encode_wide c arg raw (kind_label k)
    else encode_narrow (kind_bits k)
           (writeIntLE (kind_width k) 0 (2 ^ kind_bits k - 1))
           (writeIntLE (kind_width k) (- 2 ^ (kind_bits k - 1)) (2 ^ (kind_bits k - 1) - 1))
           c arg raw (resolveArgType (arg_type arg)) (kind_label k).
Proof.
  unfold encode_arg. intros ->. by destruct k.
Qed.

Lemma encode_arg_parse_error k c arg raw e :
  toLowerCase (resolveArgType (arg_type arg)) = kind_label k →
  parse_for k raw (arg_name arg) = Throw e →
  encode_arg c arg raw = Throw e.
Proof.
  intros Hk Hp. rewrite (encode_arg_resolved k) by done.
  unfold parse_for in Hp. destruct (wide k) eqn:Hw.
  - unfold encode_wide, writeBigIntToBuffer.
    assert (BIGINT_BYTE_LENGTH (kind_label k) = Some (Z.of_nat (kind_width k))) as ->
      by (destruct k; done).
    by rewrite Hp.
  - unfold encode_narrow. by rewrite Hp.
Qed.

(** The label the message of a range error carries: the resolved type as
    it is written for the kinds up to 32 bits, in lower case from 64 bits
    on. *)
Lemma encode_arg_kind k c arg raw v :
  toLowerCase (resolveArgType (arg_type arg)) = kind_label k →
  parse_for k raw (arg_name arg) = Ok v →
  encode_arg c arg raw
  = if in_range k v then
      if wide k then
        Ok {| argsBuffer := set_bytes (argsBuffer c) (offset c) (kind_bytes k v);
              offset := offset c + Z.of_nat (kind_width k) |}
      else
        buf ← writeIntLE (kind_width k) (kind_min k) (kind_max k)
                         (argsBuffer c) v (offset c);
        Ok {| argsBuffer := buf; offset := offset c + Z.of_nat (kind_width k) |}
    else if wide k then Throw (Error (range_message k (arg_name arg) v))
    else Throw (Error ("[" +:+ arg_name arg +:+ "] Value " +:+ Number_toString v
                       +:+ " is out of range for " +:+ resolveArgType (arg_type arg))).
Proof.
  intros Harg Hparse. rewrite (encode_arg_resolved k) by done.
  unfold parse_for in Hparse.
  unfold range_message. destruct (wide k) eqn:Hw; cbn [andb].
  - unfold encode_wide, writeBigIntToBuffer.
    assert (BIGINT_BYTE_LENGTH (kind_label k) = Some (Z.of_nat (kind_width k))) as ->
      by (destruct k; done).
    rewrite Hparse.
    rewrite kind_width_bits, kind_label_signed. unbind.
    rewrite ensureBigIntRange_spec by apply kind_bits_pos.
    fold (kind_min k) (kind_max k). fold (in_range k v).
    destruct (in_range k v) eqn:Hr.
    + rewrite normalized_residue by done.
      by rewrite Nat2Z.id, write_loop_le_bytes.
    + by destruct (negb (kind_signed k) && (v <? 0)).
  - unfold encode_narrow. rewrite Hparse. unbind.
    rewrite ensureNumberRange_spec, kind_label_signed, kind_label_unsigned.
    fold (kind_min k) (kind_max k). fold (in_range k v).
    destruct (in_range k v); [|reflexivity].
    replace (kind_bits k / 8) with (Z.of_nat (kind_width k))
      by (by destruct k).
    unfold kind_min, kind_max.
    by destruct (kind_signed k).
Qed.

Lemma set_bytes_app (first second : list Z) : ∀ (buf : list Z) pos,
  set_bytes buf pos (first ++ second)
  = set_bytes (set_bytes buf pos first) (pos + Z.of_nat (length first)) second.
Proof.
  induction first as [|b r IH]; intros buf pos; simpl.
  - by rewrite Z.add_0_r.
  - rewrite IH. f_equal. lia.
Qed.

Lemma utf8_bytes_are_bytes text : Forall is_byte (utf8_bytes text).
Proof.
  unfold utf8_bytes. apply Forall_map, Forall_forall. intros ch _.
  unfold is_byte, code. pose proof (N_ascii_bounded ch). simpl. lia.
Qed.

Lemma text_bytes_are_bytes text : Forall is_byte (text_bytes text).
Proof.
  apply Forall_app. split; [apply le_bytes_are_bytes | apply utf8_bytes_are_bytes].
Qed.

Lemma text_bytes_length text :
  length (text_bytes text) = (4 + length (utf8_bytes text))%nat.
Proof. unfold text_bytes. by rewrite length_app, le_bytes_length. Qed.

(** A text argument that fits is stored as its length and its bytes. *)
Lemma encode_text_fits c value :
  0 ≤ offset c < 2 ^ 32 →
  offset c + Z.of_nat (length (text_bytes (or_empty value)))
    ≤ Z.of_nat (length (argsBuffer c)) →
  Z.of_nat (length (argsBuffer c)) < 2 ^ 32 →
  encode_text c value
  = Ok {| argsBuffer := set_bytes (argsBuffer c) (offset c) (text_bytes (or_empty value));
          offset := offset c + Z.of_nat (length (text_bytes (or_empty value))) |}.
Proof.
  intros Hoff Hroom Hmax. rewrite text_bytes_length in *.
  unfold encode_text, writeUInt32LE.
  rewrite writeIntLE_inside by (simpl; lia). unbind.
  f_equal. f_equal; [|lia].
  unfold Buffer_copy, text_bytes.
  rewrite set_bytes_length, take_ge by lia.
  rewrite set_bytes_app, le_bytes_length.
  change (8 * Z.of_nat 4) with 32.
  by rewrite Z.mod_small by lia.
Qed.

Lemma minimal_bytes_are_bytes n : Forall is_byte (minimal_bytes n).
Proof.
  unfold minimal_bytes. destruct (n <=? 0); [constructor | apply be_bytes_are_bytes].
Qed.

Lemma PublicKey_toBuffer_bytes value bytes :
  PublicKey_toBuffer value = Some bytes →
  length bytes = 32%nat ∧ Forall is_byte bytes.
Proof.
  unfold PublicKey_toBuffer, bs58_decode.
  destruct value as [s|]; [|done]. simpl.
  destruct (base58_value 0 _) as [n|]; [|done]. simpl.
  match goal with |- context [(length ?l =? 32)%nat] => set (decoded := l) end.
  destruct (Nat.eqb_spec (length decoded) 32) as [Hlen|]; [|done].
  intros [= <-]. split; [done|].
  apply Forall_app. split; [|apply minimal_bytes_are_bytes].
  apply Forall_replicate. unfold is_byte. lia.
Qed.

(** An argument whose text is accepted appends its bytes, wherever it
    stands in a buffer that has room for them. *)
Lemma encode_arg_appends c arg value bytes :
  arg_bytes arg value = Some bytes →
  0 ≤ offset c →
  offset c + Z.of_nat (length bytes) ≤ Z.of_nat (length (argsBuffer c)) →
  Z.of_nat (length (argsBuffer c)) < 2 ^ 32 →
  ∃ c', encode_arg c arg value = Ok c' ∧ appends c c' bytes.
Proof.
  intros Hbytes Hoff Hroom Hmax. unfold arg_bytes in Hbytes. cbv zeta in Hbytes.
  destruct (int_kind _) as [k|] eqn:Hk.
  - apply int_kind_label in Hk.
    destruct (parse_for k value (arg_name arg)) as [v|] eqn:Hparse; [|done].
    destruct (in_range k v) eqn:Hr; [|done].
    injection Hbytes as <-. rewrite kind_bytes_length in Hroom.
    rewrite (encode_arg_kind k c arg value v Hk Hparse), Hr.
    pose proof (kind_bytes_length k v) as Hlen.
    assert (Happ :
      appends c {| argsBuffer := set_bytes (argsBuffer c) (offset c) (kind_bytes k v);
                   offset := offset c + Z.of_nat (kind_width k) |} (kind_bytes k v)).
    { rewrite <- Hlen at 1.
      apply appends_set_bytes; [lia | lia | apply le_bytes_are_bytes]. }
    apply in_range_bounds in Hr.
    destruct (wide k).
    + by eexists.
    + rewrite writeIntLE_inside by lia. unbind.
      replace (8 * Z.of_nat (kind_width k)) with (kind_bits k) by (by destruct k).
      by eexists.
  - destruct (String.eqb _ "bool") eqn:Hbool.
    + apply String.eqb_eq in Hbool.
      destruct (bool_byte _) as [b|] eqn:Hb; [|done]. simpl in Hbytes.
      injection Hbytes as <-. simpl in Hroom.
      assert (Hbyte : b = 0 ∨ b = 1).
      { unfold bool_byte in Hb.
        destruct (existsb _ _); [left; congruence|].
        destruct (existsb _ _); [right; congruence | discriminate]. }
      rewrite encode_arg_bool, Hb by done.
      unfold writeUInt8. rewrite writeIntLE_inside by (simpl; lia). unbind.
      eexists. split; [reflexivity|].
      replace (le_bytes 1 (b mod 2 ^ (8 * Z.of_nat 1))) with [b]
        by (by destruct Hbyte as [-> | ->]).
      apply (appends_set_bytes c [b]); [lia | simpl; lia |].
      repeat constructor; unfold is_byte; lia.
    + destruct (_ || _) eqn:Hkey.
      * destruct (PublicKey_toBuffer_bytes _ _ Hbytes) as [Hlen Hb].
        assert (Henc : encode_arg c arg value = encode_pubkey c arg value).
        { unfold encode_arg. cbv zeta.
          rewrite !(int_kind_none _ U64), !(int_kind_none _ U128),
            !(int_kind_none _ I64), !(int_kind_none _ I128),
            !(int_kind_none _ U32), !(int_kind_none _ I32),
            !(int_kind_none _ U16), !(int_kind_none _ I16),
            !(int_kind_none _ U8), !(int_kind_none _ I8) by done.
          cbn [orb]. rewrite Hbool, Hkey.
          destruct (String.eqb _ "string") eqn:Hs; [|done].
          apply String.eqb_eq in Hs. rewrite Hs in Hkey. done. }
        rewrite Henc. unfold encode_pubkey. rewrite Hbytes.
        eexists. split; [reflexivity|].
        unfold Buffer_copy. rewrite take_ge by lia.
        replace (offset c + 32) with (offset c + Z.of_nat (length bytes)) by lia.
        apply appends_set_bytes; [lia | lia | done].
      * injection Hbytes as <-.
        assert (Henc : encode_arg c arg value = encode_text c value).
        { unfold encode_arg. cbv zeta.
          rewrite !(int_kind_none _ U64), !(int_kind_none _ U128),
            !(int_kind_none _ I64), !(int_kind_none _ I128),
            !(int_kind_none _ U32), !(int_kind_none _ I32),
            !(int_kind_none _ U16), !(int_kind_none _ I16),
            !(int_kind_none _ U8), !(int_kind_none _ I8) by done.
          cbn [orb]. rewrite Hbool, Hkey. by destruct (String.eqb _ "string"). }
        rewrite Henc, encode_text_fits by (done || lia).
        eexists. split; [reflexivity|].
        apply appends_set_bytes; [lia | lia | apply text_bytes_are_bytes].
Qed.

End ArgumentBytes.

(** ** Base 58, both ways *)

Section Base58RoundTrip.

Implicit Types (l ds : list ascii) (bytes : list Z).

Lemma leading_drop {A} (zero : A → bool) (x0 : A) (l : list A) :
  (∀ x, zero x = true → x = x0) →
  l = replicate (leading zero l) x0 ++ drop (leading zero l) l
  ∧ leading zero (drop (leading zero l) l) = O.
Proof.
  intros Hzero. induction l as [|x r [IH1 IH2]]; simpl; [done|].
  destruct (zero x) eqn:Hx; simpl.
  - rewrite (Hzero x Hx) at 1. by rewrite <- IH1.
  - by rewrite Hx.
Qed.

Lemma minimal_bytes_be_value bytes :
  Forall is_byte bytes → leading (Z.eqb 0) bytes = O →
  minimal_bytes (be_value bytes) = bytes.
Proof.
  intros Hb Hlead. destruct Hb as [|h t Hh Ht]; [reflexivity|].
  cbn [leading] in Hlead. destruct (Z.eqb_spec 0 h) as [|Hne]; [done|].
  pose proof (be_value_bound t Ht) as Hv. unfold is_byte in Hh.
  assert (Hp : 0 < 256 ^ Z.of_nat (length t)) by (apply Z.pow_pos_nonneg; lia).
  assert (Hlo : 256 ^ Z.of_nat (length t) ≤ be_value (h :: t))
    by (rewrite be_value_cons; nia).
  assert (Hhi : be_value (h :: t) < 256 ^ Z.of_nat (S (length t))).
  { rewrite be_value_cons, Nat2Z.inj_succ, Z.pow_succ_r by lia. nia. }
  unfold minimal_bytes. destruct (Z.leb_spec (be_value (h :: t)) 0); [lia|].
  assert (Hlog : Z.log2 (be_value (h :: t)) / 8 = Z.of_nat (length t)).
  { change 256 with (2 ^ 8) in Hlo, Hhi. rewrite <- Z.pow_mul_r in Hlo, Hhi by lia.
    apply Z.log2_le_pow2 in Hlo; [|lia].
    apply Z.log2_lt_pow2 in Hhi; [|lia].
    symmetry. apply (Z.div_unique _ _ _ (Z.log2 (be_value (h :: t)) - 8 * Z.of_nat (length t)));
      lia. }
  rewrite Hlog. replace (Z.to_nat (Z.of_nat (length t) + 1)) with (length (h :: t))
    by (simpl; lia).
  apply be_bytes_be_value. by constructor.
Qed.

Lemma pow_256_58 n : 256 ^ Z.of_nat n ≤ 58 ^ Z.of_nat (2 * n).
Proof.
  rewrite Nat2Z.inj_mul, Z.pow_mul_r by lia. change (58 ^ Z.of_nat 2) with 3364.
  apply Z.pow_le_mono_l. lia.
Qed.

(** [bs58.decode] undoes [bs58.encode]. *)
Lemma bs58_decode_encode bytes :
  Forall is_byte bytes → bs58_decode (bs58_encode bytes) = Some bytes.
Proof.
  intros Hb.
  destruct (leading_drop (Z.eqb 0) 0 bytes) as [Hsplit Hrest];
    [by intros x ->%Z.eqb_eq|].
  set (z := leading (Z.eqb 0) bytes) in *. set (rest := drop z bytes) in *.
  assert (Hrb : Forall is_byte rest) by (by apply Forall_drop).
  assert (Hn : be_value bytes = be_value rest)
    by (rewrite Hsplit; apply be_value_zeros).
  pose proof (be_value_bound bytes Hb) as Hbound.
  pose proof (pow_256_58 (length bytes)) as Hpow.
  destruct (base58_digits_spec (2 * length bytes) (be_value bytes) [])
    as (ds & Hds & Hval & Hlead & _); [lia|].
  unfold bs58_encode, bs58_decode. fold z.
  rewrite list_ascii_of_string_of_list_ascii, Hds, app_nil_r.
  rewrite base58_value_app, base58_value_ones. cbn [mbind option_bind].
  rewrite Hval. cbn [mbind option_bind]. f_equal.
  rewrite leading_replicate, Hlead, Nat.add_0_r by done.
  replace (0 * 58 ^ Z.of_nat z * 58 ^ Z.of_nat (length ds) + be_value bytes)
    with (be_value rest) by lia.
  by rewrite minimal_bytes_be_value, <- Hsplit.
Qed.

Lemma base58_value_lower l : ∀ acc n,
  base58_value acc l = Some n → 0 ≤ acc → acc ≤ n.
Proof.
  induction l as [|c r IH]; intros acc n; cbn [base58_value].
  - intros [= <-]. lia.
  - destruct (index_of c base58_alphabet 0) as [i|] eqn:Hi; [|done].
    apply index_of_nth in Hi as [Hi _].
    intros H Hacc. apply IH in H; lia.
Qed.

Lemma canonical_zero l :
  base58_value 0 l = Some 0 → leading (fun c => is_char c "1") l = O → l = [].
Proof.
  destruct l as [|c r]; [done|]. cbn [base58_value leading].
  destruct (index_of c base58_alphabet 0) as [i|] eqn:Hi; [|done].
  pose proof (index_of_nth _ _ _ _ Hi) as [Hrange Hnth].
  intros Hv. unfold is_char. destruct (Ascii.eqb_spec c "1") as [|Hne]; [done|].
  intros _. apply base58_value_lower in Hv; [|lia].
  assert (i = 0) as -> by lia. vm_compute in Hnth. congruence.
Qed.

Lemma leading_prefix l c :
  leading (fun c => is_char c "1") (l ++ [c]) = O →
  leading (fun c => is_char c "1") l = O.
Proof. destruct l as [|d r]; [done|]. cbn [app leading]. by destruct (is_char d "1"). Qed.

(** The digits of a number are the only text without leading [1] that is
    read as that number. *)
Lemma base58_digits_canonical fuel : ∀ n acc l,
  0 ≤ n < 58 ^ Z.of_nat fuel →
  base58_value 0 l = Some n →
  leading (fun c => is_char c "1") l = O →
  base58_digits fuel n acc = l ++ acc.
Proof.
  induction fuel as [|fuel IH]; intros n acc l Hn Hval Hlead.
  - change (58 ^ Z.of_nat 0) with 1 in Hn. assert (n = 0) as -> by lia.
    by rewrite (canonical_zero l).
  - cbn [base58_digits]. destruct (Z.leb_spec n 0) as [Hz|Hpos].
    + assert (n = 0) as -> by lia. by rewrite (canonical_zero l).
    + destruct l as [|c r _] using rev_ind; [cbn in Hval; injection Hval; lia|].
      rewrite base58_value_app in Hval.
      destruct (base58_value 0 r) as [m|] eqn:Hm; [|done].
      cbn [mbind option_bind base58_value] in Hval.
      destruct (index_of c base58_alphabet 0) as [i|] eqn:Hi; [|done].
      injection Hval as <-.
      pose proof (index_of_nth _ _ _ _ Hi) as [Hrange Hnth].
      pose proof (base58_value_lower _ _ _ Hm) as Hm0.
      rewrite Z.sub_0_r in Hnth. change (Z.of_nat (length base58_alphabet)) with 58 in Hrange.
      rewrite Nat2Z.inj_succ, Z.pow_succ_r in Hn by lia.
      assert (Hq : (m * 58 + i) / 58 = m)
        by (symmetry; apply (Z.div_unique _ _ _ i); lia).
      assert (Hr : (m * 58 + i) mod 58 = i)
        by (symmetry; apply (Z.mod_unique _ _ m); lia).
      rewrite Hq, Hr, Hnth, <- app_assoc. cbn [app].
      apply IH; [lia | done | by apply (leading_prefix r c)].
Qed.

Lemma minimal_bytes_leading n : leading (Z.eqb 0) (minimal_bytes n) = O.
Proof.
  unfold minimal_bytes. destruct (Z.leb_spec n 0) as [|Hpos]; [done|].
  replace (Z.to_nat (Z.log2 n / 8 + 1)) with (S (Z.to_nat (Z.log2 n / 8))).
  2:{ pose proof (Z.log2_nonneg n). pose proof (Z.div_pos (Z.log2 n) 8). lia. }
  rewrite be_bytes_snoc. cbn [leading].
  set (m := Z.log2 n / 8).
  assert (Hm : 0 ≤ m) by (apply Z.div_pos; [apply Z.log2_nonneg | lia]).
  rewrite Z2Nat.id by done.
  pose proof (Z.log2_spec n Hpos) as [Hlo Hhi].
  pose proof (Z.div_mod (Z.log2 n) 8) as Hdm.
  pose proof (Z.mod_pos_bound (Z.log2 n) 8) as Hmb.
  assert (Hp : 0 < 256 ^ m) by (apply Z.pow_pos_nonneg; lia).
  assert (H1 : 256 ^ m ≤ n).
  { change 256 with (2 ^ 8). rewrite <- Z.pow_mul_r by lia.
    etransitivity; [|exact Hlo]. apply Z.pow_le_mono_r; lia. }
  assert (H2 : n < 256 * 256 ^ m).
  { rewrite <- Z.pow_succ_r by lia. change 256 with (2 ^ 8).
    rewrite <- Z.pow_mul_r by lia.
    eapply Z.lt_le_trans; [exact Hhi|]. apply Z.pow_le_mono_r; lia. }
  assert (H3 : 1 ≤ n / 256 ^ m < 256).
  { split; [apply Z.div_le_lower_bound; lia | apply Z.div_lt_upper_bound; lia]. }
  rewrite Z.mod_small by lia.
  destruct (Z.eqb_spec 0 (n / 256 ^ m)); [lia | done].
Qed.

Lemma minimal_bytes_value n : 0 ≤ n → be_value (minimal_bytes n) = n.
Proof.
  intros Hn. unfold minimal_bytes. destruct (Z.leb_spec n 0) as [|Hpos].
  - unfold be_value. simpl. lia.
  - apply be_value_be_bytes.
    pose proof (Z.log2_spec n Hpos) as [Hlo Hhi].
    pose proof (Z.log2_nonneg n).
    pose proof (Z.div_mod (Z.log2 n) 8) as Hdm.
    pose proof (Z.mod_pos_bound (Z.log2 n) 8) as Hmb.
    assert (Hm : 0 ≤ Z.log2 n / 8) by (apply Z.div_pos; lia).
    rewrite Z2Nat.id by lia. split; [lia|].
    change 256 with (2 ^ 8). rewrite <- Z.pow_mul_r by lia.
    eapply Z.lt_le_trans; [exact Hhi|]. apply Z.pow_le_mono_r; lia.
Qed.

(** [bs58.encode] undoes [bs58.decode]. *)
Lemma bs58_encode_decode s bytes :
  bs58_decode s = Some bytes → bs58_encode bytes = s.
Proof.
  unfold bs58_decode. set (l := list_ascii_of_string s).
  destruct (base58_value 0 l) as [n|] eqn:Hval; [|done].
  cbn [mbind option_bind]. intros [= <-].
  destruct (leading_drop (fun c => is_char c "1") "1"%char l) as [Hsplit Hrest].
  { intros x. unfold is_char. by intros ->%Ascii.eqb_eq. }
  set (z := leading (fun c => is_char c "1") l) in *. set (rest := drop z l) in *.
  assert (Hrv : base58_value 0 rest = Some n).
  { rewrite Hsplit, base58_value_app, base58_value_ones in Hval.
    by rewrite Z.mul_0_l in Hval. }
  pose proof (base58_value_lower _ _ _ Hrv) as Hn.
  unfold bs58_encode.
  rewrite leading_replicate, minimal_bytes_leading, Nat.add_0_r by done.
  rewrite be_value_zeros, minimal_bytes_value by lia.
  rewrite (base58_digits_canonical _ n [] rest), app_nil_r; [| |done|done].
  - change (leading _ l) with z. rewrite <- Hsplit. apply string_of_list_ascii_of_string.
  - split; [lia|].
    pose proof (be_value_bound (minimal_bytes n) (minimal_bytes_are_bytes n)) as Hb.
    rewrite minimal_bytes_value in Hb by lia.
    eapply Z.lt_le_trans; [apply Hb|].
    etransitivity; [apply pow_256_58|].
    apply Z.pow_le_mono_r; [lia|]. rewrite length_app. lia.
Qed.

End Base58RoundTrip.

(** ** Calls with several arguments *)

Section WholeCalls.

Implicit Types (c : cursor) (arg : IdlArg) (argValues : gmap string string).

Lemma appends_trans c c1 c2 (first second : list Z) :
  0 ≤ offset c →
  offset c ≤ Z.of_nat (length (argsBuffer c1)) →
  appends c c1 first → appends c1 c2 second → appends c c2 (first ++ second).
Proof.
  intros Hoff Hlen (Ho1 & Hw1 & Hp1) (Ho2 & Hw2 & Hp2).
  unfold appends, written, slice in *.
  assert (Hn1 : Z.to_nat (offset c1) = (Z.to_nat (offset c) + length first)%nat) by lia.
  assert (Hn2 : Z.to_nat (offset c2) = (Z.to_nat (offset c1) + length second)%nat) by lia.
  split; [rewrite length_app; lia|]. split.
  - rewrite <- (take_drop (Z.to_nat (offset c1)) (take (Z.to_nat (offset c2)) _)).
    rewrite take_take, Hw2.
    replace (Z.to_nat (offset c1) `min` Z.to_nat (offset c2))%nat
      with (Z.to_nat (offset c1)) by lia.
    rewrite Hp2, drop_app_le by (rewrite length_take; lia).
    by rewrite Hw1.
  - rewrite <- Hp1.
    assert (Hin : ∀ l : list Z, take (Z.to_nat (offset c)) l
                    = take (Z.to_nat (offset c)) (take (Z.to_nat (offset c1)) l)).
    { intros l. rewrite take_take. f_equal. lia. }
    by rewrite (Hin (argsBuffer c2)), Hp2, <- Hin.
Qed.

Lemma appends_nothing c : appends c c [].
Proof.
  split; [simpl; lia|]. split; [|done].
  unfold written, slice. apply nil_length_inv.
  rewrite length_drop, length_take. lia.
Qed.

(** The loop over the arguments appends, one after the other, the bytes
    of each argument. *)
Lemma encode_args_appends args : ∀ c argValues payloads,
  Forall2 (fun arg bytes => stands_for argValues arg (Some bytes)) args payloads →
  0 ≤ offset c →
  offset c + Z.of_nat (length (concat payloads)) ≤ Z.of_nat (length (argsBuffer c)) →
  Z.of_nat (length (argsBuffer c)) < 2 ^ 32 →
  ∃ c', encode_args c args argValues = Ok c' ∧ appends c c' (concat payloads).
Proof.
  induction args as [|arg rest IH]; intros c argValues payloads Hall Hoff Hroom Hmax.
  - inversion Hall; subst. exists c. split; [done | apply appends_nothing].
  - inversion Hall as [|? bytes ? more [Hown Hbytes] Hrest]; subst.
    cbn [concat] in *. rewrite length_app in Hroom.
    destruct (encode_arg_appends c arg _ bytes Hbytes) as (c1 & Henc & Happ);
      [lia..|].
    pose proof (encode_arg_length _ _ _ _ Henc) as Hlen.
    pose proof Happ as (Ho1 & _ & _).
    destruct (IH c1 argValues more Hrest) as (c' & Hargs & Happ'); [lia..|].
    exists c'. split.
    + cbn [encode_args]. rewrite encode_step_own, Henc by done. exact Hargs.
    + apply (appends_trans c c1 c'); [lia | lia | done | done].
Qed.

Lemma encode_of_appends instruction argValues c' bytes :
  encode_args (start instruction) (args instruction) argValues = Ok c' →
  appends (start instruction) c' bytes →
  encode instruction argValues
  = Ok (getInstructionDiscriminator (name instruction) ++ bytes).
Proof.
  intros Henc (Hoff & Hwritten & Hprefix).
  unfold encode. rewrite Henc. unbind.
  f_equal. unfold written, slice in *.
  change (offset (start instruction)) with 8 in *.
  change (Z.to_nat 8) with 8%nat in *. change (Z.to_nat 0) with 0%nat.
  rewrite drop_0, <- (take_drop 8 (take _ (argsBuffer c'))), Hwritten.
  f_equal. rewrite take_take, Hoff.
  replace (8 `min` Z.to_nat (8 + Z.of_nat (length bytes)))%nat with 8%nat by lia.
  rewrite Hprefix. apply start_prefix.
Qed.

(** An argument whose text is refused makes the call fail with an
    [Error] that names it, whatever the buffer holds. *)
Lemma encode_arg_refused c arg value :
  arg_bytes arg value = None →
  ∃ message, encode_arg c arg value = Throw (Error message)
             ∧ names_argument (arg_name arg) message.
Proof.
  unfold arg_bytes. cbv zeta. intros Hbytes.
  destruct (int_kind _) as [k|] eqn:Hk.
  - apply int_kind_label in Hk.
    destruct (parse_for k value (arg_name arg)) as [v|e] eqn:Hparse.
    + destruct (in_range k v) eqn:Hr; [done|].
      rewrite (encode_arg_kind k c arg value v Hk Hparse), Hr.
      destruct (wide k).
      * eexists. split; [reflexivity|]. left. unfold range_message.
        destruct (_ && _); by eexists.
      * eexists. split; [reflexivity|]. left. by eexists.
    + rewrite (encode_arg_parse_error k c arg value e Hk Hparse).
      unfold parse_for, parseBigIntInput, parseIntegerInput in Hparse.
      destruct (wide k).
      * destruct (String.eqb _ ""); [done|].
        destruct (BigInt _); [done|]. injection Hparse as <-.
        eexists. split; [reflexivity|]. left. by eexists.
      * destruct value as [text|]; [|done].
        destruct (String.eqb text ""); [done|].
        destruct (Number text); try done; injection Hparse as <-;
          (eexists; split; [reflexivity|]; left; by eexists).
  - assert (Hints : ∀ k : IntKind,
              String.eqb (toLowerCase (resolveArgType (arg_type arg))) (kind_label k) = false)
      by (intros k; by apply int_kind_none).
    pose proof (Hints U64) as H1. pose proof (Hints U128) as H2.
    pose proof (Hints I64) as H3. pose proof (Hints I128) as H4.
    pose proof (Hints U32) as H5. pose proof (Hints I32) as H6.
    pose proof (Hints U16) as H7. pose proof (Hints I16) as H8.
    pose proof (Hints U8) as H9. pose proof (Hints I8) as H10.
    cbn [kind_label] in *.
    destruct (String.eqb _ "bool") eqn:Hbool.
    + apply String.eqb_eq in Hbool.
      destruct (bool_byte _) as [b|] eqn:Hb; [done|].
      rewrite encode_arg_bool, Hb by done.
      eexists. split; [reflexivity|]. left. by eexists.
    + destruct (_ || _) eqn:Hkey; [|done].
      unfold encode_arg. cbv zeta.
      rewrite H1, H2, H3, H4, H5, H6, H7, H8, H9, H10. cbn [orb].
      rewrite Hbool, Hkey.
      destruct (String.eqb _ "string") eqn:Hs.
      { apply String.eqb_eq in Hs. rewrite Hs in Hkey. done. }
      unfold encode_pubkey. rewrite Hbytes.
      eexists. split; [reflexivity|]. by right.
Qed.

End WholeCalls.

Lemma encode_accepted (instruction : IdlInstruction)
    (argValues : gmap string string) (payloads : list (list Z)) :
  Forall2 (fun arg bytes => stands_for argValues arg (Some bytes))
          (args instruction) payloads →
  (8 + length (concat payloads) ≤ capacity)%nat →
  encode instruction argValues
  = Ok (getInstructionDiscriminator (name instruction) ++ concat payloads).
Proof.
  intros Hall Hfit.
  destruct (encode_args_appends (args instruction) (start instruction) argValues payloads)
    as (c' & Henc & Happ); [done | done | | |].
  - rewrite start_length. change (offset (start instruction)) with 8. lia.
  - rewrite start_length. done.
  - by apply (encode_of_appends _ _ c').
Qed.

Lemma encode_refused (instruction : IdlInstruction)
    (argValues : gmap string string) (before after : list IdlArg) (arg : IdlArg)
    (payloads : list (list Z)) :
  args instruction = before ++ arg :: after →
  Forall2 (fun arg bytes => stands_for argValues arg (Some bytes)) before payloads →
  (8 + length (concat payloads) ≤ capacity)%nat →
  stands_for argValues arg None →
  ∃ message, encode instruction argValues = Throw (Error message)
             ∧ names_argument (arg_name arg) message.
Proof.
  intros Hargs Hall Hfit [Hown Hbad].
  destruct (encode_args_appends before (start instruction) argValues payloads)
    as (c1 & Henc & Happ); [done | done | | |].
  - rewrite start_length. change (offset (start instruction)) with 8. lia.
  - rewrite start_length. done.
  - destruct (encode_arg_refused c1 arg _ Hbad) as (message & Hthrow & Hnames).
    exists message. split; [|done].
    unfold encode. rewrite Hargs.
    assert (G : ∀ l c, encode_args c l argValues = Ok c1 →
                encode_args c (l ++ arg :: after) argValues = Throw (Error message)).
    { induction l as [|a l IH]; intros c; simpl.
      - intros [= ->]. by rewrite encode_step_own, Hthrow.
      - unbind. destruct (encode_step c a _); [apply IH | done]. }
    by rewrite (G _ _ Henc).
Qed.

(** A call with one argument. *)
Lemma encode_one (instructionName : string) (arg : IdlArg)
    (argValues : gmap string string) (bytes : list Z) :
  stands_for argValues arg (Some bytes) →
  (8 + length bytes ≤ capacity)%nat →
  encode (one_argument instructionName arg) argValues
  = Ok (getInstructionDiscriminator instructionName ++ bytes).
Proof.
  intros Hbytes Hfit.
  rewrite (encode_accepted (one_argument instructionName arg) argValues [bytes]).
  - cbn [concat name one_argument]. by rewrite app_nil_r.
  - cbn [args one_argument]. constructor; [exact Hbytes | constructor].
  - cbn [concat]. by rewrite app_nil_r.
Qed.

Lemma encode_one_inv (instructionName : string) (arg : IdlArg)
    (argValues : gmap string string) (out : list Z) :
  reads_inherited argValues (arg_name arg) = false →
  encode (one_argument instructionName arg) argValues = Ok out →
  ∃ bytes, arg_bytes arg (argValues !! arg_name arg) = Some bytes.
Proof.
  intros Hown Hout.
  destruct (arg_bytes arg (argValues !! arg_name arg)) as [bytes|] eqn:Hbytes;
    [by exists bytes|].
  destruct (encode_refused (one_argument instructionName arg) argValues [] [] arg [])
    as (message & Hthrow & _); [done | constructor | cbn; unfold capacity; lia | done |].
  by rewrite Hthrow in Hout.
Qed.

(** X1.  A call whose arguments are all accepted encodes to the
    discriminator of its name followed by the bytes of the arguments, in
    the order of the declaration, when the discriminator and those bytes
    fit in the 1024 bytes of the buffer.  [stands_for] gives the bytes of
    one argument from its type and the text typed for it; an argument
    without a text is taken as [undefined], which leaves aside the names
    that every object inherits. *)
Theorem X1_accepted_arguments_are_concatenated (instruction : IdlInstruction)
    (argValues : gmap string string) (payloads : list (list Z)) :
  Forall2 (fun arg bytes => stands_for argValues arg (Some bytes))
          (args instruction) payloads →
  (8 + length (concat payloads) ≤ capacity)%nat →
  encode instruction argValues
  = Ok (getInstructionDiscriminator (name instruction) ++ concat payloads).
Proof.
  intros Hall Hfit. by apply encode_accepted.
Qed.

Lemma X1_accepted_arguments_are_concatenated_witness :
  encode transfer_call transfer_args
  = Ok (getInstructionDiscriminator (name transfer_call)
        ++ concat (map value_bytes transfer_values)).
Proof.
  apply (X1_accepted_arguments_are_concatenated transfer_call transfer_args
           (map value_bytes transfer_values)).
  - repeat (constructor; [split; vm_compute; reflexivity|]). constructor.
  - vm_compute. lia.
Defined.

(** X2.  When the arguments before one are accepted and fit in the
    buffer, and that one is refused, the call throws an [Error] whose
    message names that argument, whatever the arguments after it are.
    As in X1, an argument without a text is taken as [undefined]. *)
Theorem X2_first_refused_argument_is_named (instruction : IdlInstruction)
    (argValues : gmap string string) (before after : list IdlArg) (arg : IdlArg)
    (payloads : list (list Z)) :
  args instruction = before ++ arg :: after →
  Forall2 (fun arg bytes => stands_for argValues arg (Some bytes)) before payloads →
  (8 + length (concat payloads) ≤ capacity)%nat →
  stands_for argValues arg None →
  ∃ message, encode instruction argValues = Throw (Error message)
             ∧ names_argument (arg_name arg) message.
Proof.
  intros Hargs Hall Hfit Hbad. by apply (encode_refused _ _ before after arg payloads).
Qed.

Lemma X2_first_refused_argument_is_named_witness :
  ∃ message,
    encode transfer_call (<["urgent" := "maybe"]> transfer_args) = Throw (Error message)
    ∧ names_argument (arg_name (sample_arg "urgent" "bool")) message.
Proof.
  apply (X2_first_refused_argument_is_named transfer_call
           (<["urgent" := "maybe"]> transfer_args)
           [sample_arg "amount" "u64"; sample_arg "memo" "string"] []
           (sample_arg "urgent" "bool") [kind_bytes U64 500; text_bytes "rent"]).
  - reflexivity.
  - repeat (constructor; [split; vm_compute; reflexivity|]). constructor.
  - vm_compute. lia.
  - split; vm_compute; reflexivity.
Defined.

(** ** Decoding inside a longer buffer *)

Section DecodeAtOffset.

Implicit Types (pre buffer : list Z) (type : ReturnFieldType).

Lemma ensureBytes_shift pre buffer o required :
  ensureBytes (pre ++ buffer) (Z.of_nat (length pre) + o) required
  = ensureBytes buffer o required.
Proof.
  unfold ensureBytes. rewrite length_app, Nat2Z.inj_add.
  by replace (Z.of_nat (length pre) + Z.of_nat (length buffer) - (Z.of_nat (length pre) + o))
    with (Z.of_nat (length buffer) - o) by lia.
Qed.

Lemma ensureBytes_inv buffer o required :
  ensureBytes buffer o required = Ok tt → required ≤ Z.of_nat (length buffer) - o.
Proof.
  unfold ensureBytes.
  by destruct (Z.ltb_spec (Z.of_nat (length buffer) - o) required); [|lia].
Qed.

Lemma get_index_shift pre buffer i :
  0 ≤ i → get_index (pre ++ buffer) (Z.of_nat (length pre) + i) = get_index buffer i.
Proof.
  intros Hi. unfold get_index.
  destruct (Z.leb_spec 0 (Z.of_nat (length pre) + i)); [|lia].
  destruct (Z.leb_spec 0 i); [|lia].
  replace (Z.to_nat (Z.of_nat (length pre) + i)) with (length pre + Z.to_nat i)%nat by lia.
  rewrite lookup_app_r by lia. f_equal. lia.
Qed.

Lemma read_loop_shift pre buffer count : ∀ o i acc,
  0 ≤ o + i →
  read_loop count (pre ++ buffer) (Z.of_nat (length pre) + o) i acc
  = read_loop count buffer o i acc.
Proof.
  induction count as [|count IH]; intros o i acc Hi; simpl; [done|].
  rewrite <- Z.add_assoc, get_index_shift by lia.
  destruct (get_index buffer (o + i)); [|done].
  apply IH. lia.
Qed.

Lemma drop_shift pre buffer o :
  0 ≤ o →
  drop (Z.to_nat (Z.of_nat (length pre) + o)) (pre ++ buffer) = drop (Z.to_nat o) buffer.
Proof.
  intros Ho.
  replace (Z.to_nat (Z.of_nat (length pre) + o)) with (length pre + Z.to_nat o)%nat by lia.
  apply drop_app_add.
Qed.

Lemma readUIntLE_shift ext pre buffer o :
  Z.of_nat (length (pre ++ buffer)) ≤ K_MAX_LENGTH →
  0 ≤ o → o + Z.of_nat ext ≤ Z.of_nat (length buffer) →
  readUIntLE ext (pre ++ buffer) (Z.of_nat (length pre) + o) = readUIntLE ext buffer o.
Proof.
  intros Hmax Ho Hroom. unfold K_MAX_LENGTH in Hmax. rewrite length_app in Hmax.
  rewrite !readUIntLE_inside by (rewrite ?length_app; lia).
  by rewrite drop_shift.
Qed.

Lemma subarray_shift pre buffer o stop :
  0 ≤ o →
  subarray (pre ++ buffer) (Z.of_nat (length pre) + o) (Z.of_nat (length pre) + stop)
  = subarray buffer o stop.
Proof.
  intros Ho. unfold subarray. rewrite drop_shift by done.
  f_equal. lia.
Qed.

(** A field is decoded from where it starts: what lies before it only
    moves the offsets. *)
Lemma decode_field_shift pre buffer o type :
  Z.of_nat (length (pre ++ buffer)) ≤ K_MAX_LENGTH → 0 ≤ o →
  decode_field (pre ++ buffer) (Z.of_nat (length pre) + o) type
  = match decode_field buffer o type with
    | Ok (value, o') => Ok (value, Z.of_nat (length pre) + o')
    | Throw e => Throw e
    end.
Proof.
  intros Hmax Ho.
  destruct type; unfold decode_field; cbn [numericTypes];
    rewrite ensureBytes_shift;
    (destruct (ensureBytes buffer o _) as [[]|e] eqn:He; [|done]);
    apply ensureBytes_inv in He; unbind;
    try (unfold readBigIntFromBuffer; rewrite read_loop_shift by lia;
         destruct (read_loop _ buffer o 0 0) as [res|]; [|done]; unbind;
         cbv zeta; repeat (destruct (_ : bool)); f_equal; f_equal; lia).
  - unfold readUInt8. rewrite readUIntLE_shift by (simpl; lia).
    destruct (readUIntLE 1 buffer o); [|done]. f_equal. f_equal. lia.
  - unfold readUInt32LE. rewrite readUIntLE_shift by (simpl; lia).
    destruct (readUIntLE 4 buffer o) as [len|]; [|done].
    rewrite <- Z.add_assoc, ensureBytes_shift.
    destruct (ensureBytes buffer (o + 4) len) as [[]|]; [|done].
    rewrite <- !Z.add_assoc, subarray_shift by lia. done.
  - unfold readUInt32LE. rewrite readUIntLE_shift by (simpl; lia).
    destruct (readUIntLE 4 buffer o) as [len|]; [|done].
    rewrite <- Z.add_assoc, ensureBytes_shift.
    destruct (ensureBytes buffer (o + 4) len) as [[]|]; [|done].
    rewrite <- !Z.add_assoc, subarray_shift by lia. done.
  - rewrite <- !Z.add_assoc, subarray_shift by lia. done.
Qed.

Lemma decode_field_ok_fits buffer o type value o' :
  Z.of_nat (length buffer) ≤ K_MAX_LENGTH → 0 ≤ o →
  decode_field buffer o type = Ok (value, o') →
  fits buffer o type = true ∧ o' = o + field_size buffer o type.
Proof.
  intros Hmax Ho Hdec. destruct (fits buffer o type) eqn:Hfits.
  - destruct (decode_field_fits buffer o type Hmax Ho Hfits) as [v Hv].
    rewrite Hv in Hdec. by injection Hdec as _ <-.
  - destruct (decode_field_short buffer o type Hmax Ho Hfits) as (r & m & Hv).
    by rewrite Hv in Hdec.
Qed.

(** The field a payload begins with is decoded as if it stood alone,
    whatever comes before and after it. *)
Lemma decode_field_inside pre bytes post type value :
  Z.of_nat (length (pre ++ bytes ++ post)) ≤ K_MAX_LENGTH →
  decode_field bytes 0 type = Ok (value, Z.of_nat (length bytes)) →
  decode_field (pre ++ bytes ++ post) (Z.of_nat (length pre)) type
  = Ok (value, Z.of_nat (length (pre ++ bytes))).
Proof.
  intros Hmax Hdec. pose proof Hmax as Hmax'. rewrite !length_app in Hmax'.
  rewrite <- (Z.add_0_r (Z.of_nat (length pre))), decode_field_shift by (done || lia).
  destruct (decode_field_ok_fits bytes 0 type _ _ ltac:(lia) ltac:(lia) Hdec) as [Hfits _].
  rewrite decode_field_app, Hdec by (done || lia).
  by rewrite length_app, Nat2Z.inj_add.
Qed.

End DecodeAtOffset.

(** ** Typed values *)

Section TypedValues.

Implicit Types (tv : typed_value) (arg : IdlArg) (k : IntKind).

Lemma rev_le_bytes n : ∀ x, rev (le_bytes n x) = be_bytes n x.
Proof. induction n as [|n IH]; intros x; simpl; [done|]. by rewrite IH. Qed.

Lemma le_value_le_bytes n x : 0 ≤ x < 256 ^ Z.of_nat n → le_value (le_bytes n x) = x.
Proof. intros Hx. unfold le_value. rewrite rev_le_bytes. by apply be_value_be_bytes. Qed.

Lemma int_kind_of_label k : int_kind (kind_label k) = Some k.
Proof. by destruct k. Qed.

(** The text the decoder shows for a value is a text the encoder accepts
    for an argument of the type, and encodes as the bytes of the value. *)
Lemma arg_bytes_value tv arg :
  value_type tv (toLowerCase (resolveArgType (arg_type arg))) →
  value_ok tv →
  arg_bytes arg (Some (value_text tv)) = Some (value_bytes tv).
Proof.
  intros Htype Hok. unfold arg_bytes. cbv zeta.
  destruct tv as [k v|b|text|key]; cbn [value_type value_ok value_text value_bytes] in *.
  - rewrite Htype, int_kind_of_label, parse_for_Z_to_string by done. by rewrite Hok.
  - rewrite Htype. by destruct b.
  - by rewrite Htype.
  - destruct Hok as [Hlen Hbytes].
    assert (Hkey : PublicKey_toBuffer (Some (bs58_encode key)) = Some key).
    { unfold PublicKey_toBuffer. cbn [mbind option_bind].
      rewrite bs58_decode_encode by done. cbn [mbind option_bind].
      by rewrite Hlen. }
    by destruct Htype as [-> | ->].
Qed.

(** The decoder reads the text of a value back from its bytes. *)
Lemma decode_value_bytes tv :
  value_ok tv →
  Z.of_nat (length (value_bytes tv)) ≤ K_MAX_LENGTH →
  decode_field (value_bytes tv) 0 (value_field tv)
  = Ok (value_text tv, Z.of_nat (length (value_bytes tv))).
Proof.
  intros Hok Hmax. unfold K_MAX_LENGTH in Hmax.
  destruct tv as [k v|b|text|key]; cbn [value_ok value_text value_bytes value_field] in *.
  - by rewrite decode_field_kind_bytes, kind_bytes_length.
  - by destruct b.
  - rewrite text_bytes_length in Hmax.
    pose proof (text_bytes_length text) as Hlen.
    pose proof (le_bytes_length 4 (Z.of_nat (length (utf8_bytes text)))) as Hfour.
    unfold decode_field. cbn [numericTypes].
    rewrite ensureBytes_enough by lia. unbind.
    unfold readUInt32LE. rewrite readUIntLE_inside by (simpl; lia).
    change (Z.to_nat 0) with O. rewrite drop_0.
    assert (Hprefix : take 4 (text_bytes text)
                      = le_bytes 4 (Z.of_nat (length (utf8_bytes text))))
      by (unfold text_bytes; by rewrite take_app_length').
    rewrite Hprefix.
    rewrite le_value_le_bytes by (change (256 ^ Z.of_nat 4) with (2 ^ 32); lia).
    rewrite ensureBytes_enough by lia.
    assert (Hrest : subarray (text_bytes text) (0 + 4)
                      (0 + 4 + Z.of_nat (length (utf8_bytes text))) = utf8_bytes text).
    { unfold subarray, text_bytes. change (Z.to_nat (0 + 4)) with 4%nat.
      rewrite drop_app_length' by done. apply take_ge. lia. }
    rewrite Hrest. unfold utf8_toString.
    rewrite string_of_bytes_utf8. f_equal. f_equal. lia.
  - destruct Hok as [Hlen Hbytes].
    unfold decode_field. cbn [numericTypes].
    rewrite ensureBytes_enough by lia. unbind.
    unfold subarray, PublicKey_toBase58. change (Z.to_nat 0) with O.
    rewrite drop_0, take_ge by lia. f_equal. f_equal. lia.
Qed.

Lemma decode_from_value_bytes (values : list typed_value) : ∀ layout pre n,
  Forall2 (fun field tv => field_type field = value_field tv) layout values →
  Forall value_ok values →
  Z.of_nat (length (pre ++ concat (map value_bytes values))) ≤ K_MAX_LENGTH →
  map decoded_value
      (decode_from (pre ++ concat (map value_bytes values)) (Z.of_nat (length pre)) n layout)
  = map value_text values.
Proof.
  induction values as [|tv rest IH]; intros layout pre n Hlayout Hok Hmax;
    inversion Hlayout as [|field ? more ? Hfield Hmore]; subst; [done|].
  inversion Hok as [|? ? Htv Hrest]; subst.
  cbn [map concat decode_from]. rewrite Hfield.
  pose proof Hmax as Hmax'. cbn [map concat] in Hmax'. rewrite !length_app in Hmax'.
  rewrite (decode_field_inside pre (value_bytes tv) _ _ (value_text tv));
    [|done | apply decode_value_bytes; [done | lia]].
  cbn [map decoded_value]. f_equal.
  rewrite app_assoc. apply IH; [done | done | by rewrite <- app_assoc].
Qed.

End TypedValues.

(** X3.  Round trip of a whole call.  When each argument holds the text
    of a value of its type (an integer of the range in decimal, [true] or
    [false], a text, an account identifier in base 58) and the call fits
    in the buffer, the call encodes to the discriminator and the bytes of
    the values, and a layout of the matching field types decodes the
    bytes of the values to the texts that were typed. *)
Theorem X3_call_round_trip (instruction : IdlInstruction) (argValues : gmap string string)
    (values : list typed_value) (layout : list ReturnField) :
  Forall2 (fun arg tv =>
             value_type tv (toLowerCase (resolveArgType (arg_type arg)))
             ∧ value_ok tv
             ∧ argValues !! arg_name arg = Some (value_text tv))
          (args instruction) values →
  Forall2 (fun field tv => field_type field = value_field tv) layout values →
  (8 + length (concat (map value_bytes values)) ≤ capacity)%nat →
  encode instruction argValues
  = Ok (getInstructionDiscriminator (name instruction) ++ concat (map value_bytes values))
  ∧ map decoded_value (decodeWithLayout (concat (map value_bytes values)) layout)
    = map value_text values.
Proof.
  intros Hargs Hlayout Hfit. split.
  - apply encode_accepted; [|by rewrite length_concat in *].
    apply Forall2_fmap_r. eapply Forall2_impl; [exact Hargs|].
    intros arg tv (Htype & Hok & Hvalue). split.
    + by apply (reads_inherited_value _ _ _ Hvalue).
    + rewrite Hvalue. by apply arg_bytes_value.
  - unfold decodeWithLayout. rewrite decode_loop_from. cbn [app length].
    apply (decode_from_value_bytes values layout [] O); [done | |].
    + clear Hlayout Hfit. induction Hargs as [|? ? ? ? (_ & ? & _)]; by constructor.
    + cbn [app]. unfold K_MAX_LENGTH. change capacity with 1024%nat in Hfit. lia.
Qed.

Lemma X3_call_round_trip_witness :
  encode transfer_call transfer_args
  = Ok (getInstructionDiscriminator (name transfer_call)
        ++ concat (map value_bytes transfer_values))
  ∧ map decoded_value
        (decodeWithLayout (concat (map value_bytes transfer_values)) transfer_layout)
    = map value_text transfer_values.
Proof.
  apply (X3_call_round_trip transfer_call transfer_args transfer_values transfer_layout).
  - repeat (constructor; [vm_compute; repeat split|]). constructor.
  - repeat (constructor; [reflexivity|]). constructor.
  - vm_compute. lia.
Defined.

(** ** Decoded texts as arguments *)

Section Reencoding.

Implicit Types (k : IntKind) (buffer bytes : list Z).

Lemma le_bytes_le_value bytes :
  Forall is_byte bytes → le_bytes (length bytes) (le_value bytes) = bytes.
Proof.
  intros Hb. rewrite <- (rev_involutive (le_bytes _ _)), rev_le_bytes.
  unfold le_value. rewrite <- (length_rev bytes) at 1.
  rewrite be_bytes_be_value by (by apply Forall_rev).
  apply rev_involutive.
Qed.

Lemma le_value_bound bytes :
  Forall is_byte bytes → 0 ≤ le_value bytes < 256 ^ Z.of_nat (length bytes).
Proof.
  intros Hb. unfold le_value. rewrite <- (length_rev bytes).
  apply be_value_bound. by apply Forall_rev.
Qed.

Lemma signed_value_range k x :
  0 ≤ x < 2 ^ kind_bits k →
  in_range k (signed_value k x) = true ∧ signed_value k x mod 2 ^ kind_bits k = x.
Proof.
  intros Hx. pose proof (kind_bits_pos k) as Hb.
  assert (Hpow : 2 ^ kind_bits k = 2 * 2 ^ (kind_bits k - 1)).
  { rewrite <- Z.pow_succ_r by lia. f_equal. lia. }
  assert (0 < 2 ^ (kind_bits k - 1)) by (apply Z.pow_pos_nonneg; lia).
  unfold signed_value. rewrite in_range_bounds. unfold kind_min, kind_max.
  destruct (kind_signed k); cbn [andb].
  - destruct (Z.leb_spec (2 ^ (kind_bits k - 1)) x).
    + split; [lia|]. symmetry. apply (Z.mod_unique _ _ (-1)); lia.
    + split; [lia|]. apply Z.mod_small. lia.
  - split; [lia|]. apply Z.mod_small. lia.
Qed.

(** Any bytes of the width of an integer kind are the bytes of one value
    of the kind. *)
Lemma kind_bytes_signed_value k bytes :
  Forall is_byte bytes → length bytes = kind_width k →
  in_range k (signed_value k (le_value bytes)) = true
  ∧ kind_bytes k (signed_value k (le_value bytes)) = bytes.
Proof.
  intros Hb Hlen. pose proof (le_value_bound bytes Hb) as Hv.
  assert (Hpow : 256 ^ Z.of_nat (length bytes) = 2 ^ kind_bits k).
  { rewrite Hlen, <- kind_width_bits. change 256 with (2 ^ 8).
    rewrite <- Z.pow_mul_r by lia. f_equal. lia. }
  rewrite Hpow in Hv.
  destruct (signed_value_range k _ Hv) as [Hr Hm]. split; [done|].
  unfold kind_bytes. rewrite Hm, <- Hlen. by apply le_bytes_le_value.
Qed.

Lemma buffer_split buffer (o w : nat) :
  (o + w ≤ length buffer)%nat →
  buffer = take o buffer ++ take w (drop o buffer) ++ drop (o + w) buffer
  ∧ length (take o buffer) = o ∧ length (take w (drop o buffer)) = w.
Proof.
  intros H. split; [|split].
  - rewrite <- (take_drop o buffer) at 1. f_equal.
    rewrite <- (take_drop w (drop o buffer)) at 1. f_equal.
    rewrite drop_drop. done.
  - rewrite length_take. lia.
  - rewrite length_take, length_drop. lia.
Qed.

(** What a field of a re-encodable type was read from, as a value. *)
Lemma decoded_value_of buffer offset type text o' :
  is_buffer buffer → 0 ≤ offset → reencodable type = true →
  decode_field buffer offset type = Ok (text, o') →
  ∃ tv, value_ok tv ∧ value_field tv = type
        ∧ value_type tv (type_label type)
        ∧ value_text tv = text
        ∧ value_bytes tv = subarray buffer offset o'.
Proof.
  intros [Hbytes Hmax] Hoff Hre Hdec.
  destruct (decode_field_ok_fits buffer offset type text o' Hmax Hoff Hdec)
    as [Hfits ->].
  unfold fits in Hfits. apply andb_true_iff in Hfits as [Hfixed _].
  apply Z.leb_le in Hfixed.
  assert (Hint : ∀ k, type = kind_field k →
            ∃ tv, value_ok tv ∧ value_field tv = type
                  ∧ value_type tv (kind_label k)
                  ∧ value_text tv = text
                  ∧ value_bytes tv
                    = subarray buffer offset (offset + Z.of_nat (kind_width k))).
  { intros k ->.
    assert (Hw : fixed_size (kind_field k) = Z.of_nat (kind_width k)) by (by destruct k).
    rewrite Hw in Hfixed.
    destruct (buffer_split buffer (Z.to_nat offset) (kind_width k)) as (Hsplit & Hpre & Hlen);
      [lia|].
    assert (Hb : Forall is_byte (take (kind_width k) (drop (Z.to_nat offset) buffer)))
      by (by apply Forall_take, Forall_drop).
    assert (Hsub : subarray buffer offset (offset + Z.of_nat (kind_width k))
                   = take (kind_width k) (drop (Z.to_nat offset) buffer))
      by (unfold subarray; f_equal; lia).
    remember (take (Z.to_nat offset) buffer) as pre eqn:Epre.
    remember (take (kind_width k) (drop (Z.to_nat offset) buffer)) as bytes eqn:Ebytes.
    remember (drop (Z.to_nat offset + kind_width k) buffer) as post eqn:Epost.
    destruct (kind_bytes_signed_value k bytes Hb Hlen) as [Hr Hkb].
    exists (VInt k (signed_value k (le_value bytes))).
    split; [done|]. split; [done|]. split; [done|].
    cbn [value_text value_bytes]. split; [|by rewrite Hkb, Hsub].
    pose proof (decode_field_kind_bytes k _ Hr) as Hone.
    rewrite Hkb, <- Hlen in Hone.
    rewrite Hsplit in Hdec, Hmax.
    rewrite <- (Z2Nat.id offset), <- Hpre in Hdec by done.
    rewrite (decode_field_inside pre bytes _ _ _ Hmax Hone) in Hdec.
    by injection Hdec as <- _. }
  destruct type; try discriminate Hre;
    try (match goal with
         | |- context [type_label ?t] =>
             first [ apply (Hint U8 eq_refl) | apply (Hint U16 eq_refl)
                   | apply (Hint U32 eq_refl) | apply (Hint U64 eq_refl)
                   | apply (Hint U128 eq_refl) | apply (Hint I8 eq_refl)
                   | apply (Hint I16 eq_refl) | apply (Hint I32 eq_refl)
                   | apply (Hint I64 eq_refl) | apply (Hint I128 eq_refl) ]
         end).
  clear Hint. cbn [fixed_size field_size] in *.
  unfold decode_field in Hdec. cbn [numericTypes] in Hdec.
  rewrite ensureBytes_enough in Hdec by lia. unbind.
  injection Hdec as <-.
  exists (VKey (subarray buffer offset (offset + 32))).
  repeat split; try done.
  - unfold subarray. rewrite length_take, length_drop. lia.
  - unfold subarray. by apply Forall_take, Forall_drop.
  - by left.
Qed.

End Reencoding.

(** X4.  What the decoder shows for an integer or an account identifier
    can be typed back as an argument of the same type: the call encodes,
    and its bytes after the discriminator are the very bytes the field
    was read from. *)
Theorem X4_decoded_text_encodes_back (buffer : list Z) (offset : Z)
    (type : ReturnFieldType) (text : string) (offset' : Z)
    (instructionName : string) (arg : IdlArg) (argValues : gmap string string) :
  is_buffer buffer → 0 ≤ offset → reencodable type = true →
  decode_field buffer offset type = Ok (text, offset') →
  toLowerCase (resolveArgType (arg_type arg)) = type_label type →
  argValues !! arg_name arg = Some text →
  encode (one_argument instructionName arg) argValues
  = Ok (getInstructionDiscriminator instructionName ++ subarray buffer offset offset').
Proof.
  intros Hbuf Hoff Hre Hdec Htype Hvalue.
  destruct (decoded_value_of buffer offset type text offset' Hbuf Hoff Hre Hdec)
    as (tv & Hok & Hfield & Hvt & <- & <-).
  apply encode_one.
  - split; [by apply (reads_inherited_value _ _ _ Hvalue)|].
    rewrite Hvalue. apply arg_bytes_value; [by rewrite Htype | done].
  - unfold capacity. rewrite <- Hfield in Hre.
    destruct tv as [k v|b|t|key]; cbn [value_field value_bytes value_ok] in *; try done.
    + rewrite kind_bytes_length.
      assert (kind_width k ≤ 16)%nat by (destruct k; vm_compute; lia). lia.
    + destruct Hok as [-> _]. lia.
Qed.

Lemma X4_decoded_text_encodes_back_witness :
  encode (one_argument "adjust" (sample_arg "delta" "i16")) {[ "delta" := "-1" ]}
  = Ok (getInstructionDiscriminator "adjust" ++ subarray [7; 255; 255] 1 3).
Proof.
  apply (X4_decoded_text_encodes_back [7; 255; 255] 1 TI16 "-1" 3 "adjust"
           (sample_arg "delta" "i16") {[ "delta" := "-1" ]}).
  - split; [|vm_compute; discriminate].
    repeat (constructor; [unfold is_byte; lia|]). constructor.
  - lia.
  - reflexivity.
  - vm_compute. reflexivity.
  - reflexivity.
  - vm_compute. reflexivity.
Defined.

(** X5.  An argument of type [bytes] has no branch of its own in the
    encoder: the text typed for it is written as a text, the length of
    its UTF-8 form on four bytes and then that form.  A [bytes] field of
    the layout therefore decodes what was written to the hexadecimal form
    of the characters that were typed, not to the bytes their digits
    spell. *)
Theorem X5_bytes_argument_is_written_as_text (instructionName : string) (arg : IdlArg)
    (argValues : gmap string string) (text : string) (field : ReturnField) :
  toLowerCase (resolveArgType (arg_type arg)) = "bytes" →
  field_type field = TBytes →
  argValues !! arg_name arg = Some text →
  (8 + length (text_bytes text) ≤ capacity)%nat →
  encode (one_argument instructionName arg) argValues
  = Ok (getInstructionDiscriminator instructionName ++ text_bytes text)
  ∧ map decoded_value (decodeWithLayout (text_bytes text) [field])
    = [hex_of_bytes (utf8_bytes text)].
Proof.
  intros Htype Hfield Hvalue Hfit.
  split.
  - apply encode_one; [|done].
    split; [by apply (reads_inherited_value _ _ _ Hvalue)|].
    rewrite Hvalue. unfold arg_bytes. by rewrite Htype.
  - unfold capacity in Hfit.
    pose proof (text_bytes_length text) as Hlen.
    pose proof (le_bytes_length 4 (Z.of_nat (length (utf8_bytes text)))) as Hfour.
    unfold decodeWithLayout. cbn [decode_loop]. rewrite Hfield.
    unfold decode_field. cbn [numericTypes].
    rewrite ensureBytes_enough by lia. unbind.
    unfold readUInt32LE. rewrite readUIntLE_inside by (simpl; lia).
    change (Z.to_nat 0) with O. rewrite drop_0.
    assert (Hprefix : take 4 (text_bytes text)
                      = le_bytes 4 (Z.of_nat (length (utf8_bytes text))))
      by (unfold text_bytes; by rewrite take_app_length').
    rewrite Hprefix.
    rewrite le_value_le_bytes by (change (256 ^ Z.of_nat 4) with (2 ^ 32); lia).
    rewrite ensureBytes_enough by lia.
    assert (Hrest : subarray (text_bytes text) (0 + 4)
                      (0 + 4 + Z.of_nat (length (utf8_bytes text))) = utf8_bytes text).
    { unfold subarray, text_bytes. change (Z.to_nat (0 + 4)) with 4%nat.
      rewrite drop_app_length' by done. apply take_ge. lia. }
    by rewrite Hrest.
Qed.

Lemma X5_bytes_argument_is_written_as_text_witness :
  encode (one_argument "store" (sample_arg "blob" "bytes")) {[ "blob" := "0a" ]}
  = Ok (getInstructionDiscriminator "store" ++ text_bytes "0a")
  ∧ map decoded_value
        (decodeWithLayout (text_bytes "0a") [sample_field "blob" TBytes])
    = [hex_of_bytes (utf8_bytes "0a")].
Proof.
  apply (X5_bytes_argument_is_written_as_text "store" (sample_arg "blob" "bytes")
           {[ "blob" := "0a" ]} "0a" (sample_field "blob" TBytes)).
  - reflexivity.
  - reflexivity.
  - vm_compute. reflexivity.
  - vm_compute. lia.
Defined.

(** ** Layouts *)

Section Layouts.

Implicit Types (buffer : list Z) (layout : list ReturnField).

Lemma decode_from_app_layout buffer l1 l2 : ∀ offset n,
  decode_from buffer offset n l1 `prefix_of` decode_from buffer offset n (l1 ++ l2)
  ∧ (all_decode buffer offset l1 = false →
     decode_from buffer offset n (l1 ++ l2) = decode_from buffer offset n l1).
Proof.
  induction l1 as [|field rest IH]; intros offset n; cbn [app decode_from all_decode].
  - split; [apply prefix_nil | done].
  - destruct (decode_field buffer offset (field_type field)) as [[value offset']|e].
    + destruct (IH offset' (S n)) as [Hpre Heq]. split.
      * by apply prefix_cons.
      * intros H. by rewrite Heq.
    + done.
Qed.

Lemma decode_from_shown buffer l1 : ∀ l2 offset n m,
  map field_type l1 = map field_type l2 →
  map shown (decode_from buffer offset n l1) = map shown (decode_from buffer offset m l2).
Proof.
  induction l1 as [|f1 r1 IH]; intros [|f2 r2] offset n m Hty; try done.
  cbn [map] in Hty. injection Hty as Hf Hr.
  cbn [decode_from]. rewrite Hf.
  destruct (decode_field buffer offset (field_type f2)) as [[value offset']|e].
  - cbn [map]. f_equal. by apply IH.
  - done.
Qed.

End Layouts.

(** X6.  Fields added at the end of a layout leave the entries decoded
    for the fields before them as they were; and when a field of the
    layout fails to decode, the fields after it are never reached, so the
    longer layout decodes to the same entries. *)
Theorem X6_decoding_a_longer_layout (buffer : list Z) (layout more : list ReturnField) :
  decodeWithLayout buffer layout `prefix_of` decodeWithLayout buffer (layout ++ more)
  ∧ (all_decode buffer 0 layout = false →
     decodeWithLayout buffer (layout ++ more) = decodeWithLayout buffer layout).
Proof.
  unfold decodeWithLayout. rewrite !decode_loop_from. cbn [app length].
  apply decode_from_app_layout.
Qed.

(** X7.  Renaming a field of the layout ([handleUpdateReturnField] with a
    name only) keeps the identifiers of the fields, and the types and the
    values the layout decodes from any buffer. *)
Theorem X7_renaming_changes_no_value (buffer : list Z) (layout : list ReturnField)
    (id newName : string) :
  let renamed :=
    handleUpdateReturnField id {| patch_name := Some newName; patch_type := None |} layout in
  map field_id renamed = map field_id layout
  ∧ map shown (decodeWithLayout buffer renamed) = map shown (decodeWithLayout buffer layout).
Proof.
  cbv zeta.
  assert (Hty : ∀ f, field_type (if String.eqb (field_id f) id
                       then {| field_id := field_id f;
                               field_name := default (field_name f) (Some newName);
                               field_type := default (field_type f) None |}
                       else f) = field_type f)
    by (intros f; by destruct (String.eqb _ _)).
  assert (Hid : ∀ f, field_id (if String.eqb (field_id f) id
                       then {| field_id := field_id f;
                               field_name := default (field_name f) (Some newName);
                               field_type := default (field_type f) None |}
                       else f) = field_id f)
    by (intros f; by destruct (String.eqb _ _)).
  unfold handleUpdateReturnField. cbn [patch_name patch_type]. split.
  - rewrite map_map. by apply map_ext.
  - unfold decodeWithLayout. rewrite !decode_loop_from. cbn [app length].
    apply decode_from_shown. rewrite map_map. by apply map_ext.
Qed.

(** ** A field added to the layout *)

Section AddedField.

Lemma all_decode_length buffer layout : ∀ offset n,
  all_decode buffer offset layout = true →
  length (decode_from buffer offset n layout) = length layout.
Proof.
  induction layout as [|field rest IH]; intros offset n; cbn [all_decode decode_from]; [done|].
  destruct (decode_field buffer offset (field_type field)) as [[value offset']|e]; [|done].
  intros H. cbn [length]. by rewrite IH.
Qed.

Lemma decode_from_snoc buffer layout field : ∀ offset n,
  all_decode buffer offset layout = true →
  ∃ entry,
    decode_from buffer offset n (layout ++ [field])
    = decode_from buffer offset n layout ++ [entry]
    ∧ decoded_name entry = name_at field (n + length layout)
    ∧ decoded_type entry = field_type field.
Proof.
  induction layout as [|f rest IH]; intros offset n; cbn [app all_decode decode_from].
  - intros _. rewrite Nat.add_0_r.
    destruct (decode_field buffer offset (field_type field)) as [[value offset']|e];
      by eexists.
  - destruct (decode_field buffer offset (field_type f)) as [[value offset']|e]; [|done].
    intros H. destruct (IH offset' (S n) H) as (entry & -> & Hname & Htype).
    exists entry. split; [done|]. split; [|done].
    rewrite Hname. f_equal. cbn [length]. lia.
Qed.

Lemma default_name_plain (n : nat) :
  plain ("field_" +:+ Z_to_string (Z.of_nat n + 1)).
Proof.
  apply plain_app; [|apply Z_to_string_plain].
  repeat constructor; vm_compute; discriminate.
Qed.

Lemma default_name_shown id (n m : nat) type :
  name_at {| field_id := id;
             field_name := "field_" +:+ Z_to_string (Z.of_nat n + 1);
             field_type := type |} m
  = "field_" +:+ Z_to_string (Z.of_nat n + 1).
Proof.
  unfold name_at. cbn [field_name]. rewrite trim_plain by apply default_name_plain.
  done.
Qed.

End AddedField.

(** X8.  When every field of the layout decodes, the field that
    [handleAddReturnField] appends is decoded as one more entry after the
    others, of type [u64], under its default name [field_N] with [N] its
    place in the layout: the name the decoder itself gives a field
    without a name at that place. *)
Theorem X8_added_field_is_named_by_its_place (id : string) (prev : list ReturnField)
    (buffer : list Z) :
  all_decode buffer 0 prev = true →
  ∃ entry,
    decodeWithLayout buffer (handleAddReturnField id prev)
    = decodeWithLayout buffer prev ++ [entry]
    ∧ decoded_type entry = TU64
    ∧ decoded_name entry = "field_" +:+ Z_to_string (Z.of_nat (length prev) + 1)
    ∧ decoded_name entry
      = display_name {| field_id := id; field_name := ""; field_type := TU64 |}
                     (decodeWithLayout buffer prev).
Proof.
  intros Hall. unfold decodeWithLayout, handleAddReturnField.
  rewrite !decode_loop_from. cbn [app length].
  destruct (decode_from_snoc buffer prev
              {| field_id := id;
                 field_name := "field_" +:+ Z_to_string (Z.of_nat (length prev) + 1);
                 field_type := TU64 |} 0 O Hall)
    as (entry & Heq & Hname & Htype).
  exists entry. rewrite default_name_shown in Hname.
  split; [done|]. split; [done|]. split; [done|].
  rewrite Hname. unfold display_name. cbn [field_name].
  change (trim "") with "". cbn [String.eqb].
  by rewrite (all_decode_length buffer prev 0 O Hall).
Qed.

Lemma X8_added_field_is_named_by_its_place_witness :
  ∃ entry,
    decodeWithLayout [7; 0; 0; 0; 1; 9; 0; 0; 0; 0; 0; 0; 0]
                     (handleAddReturnField "third" amount_active)
    = decodeWithLayout [7; 0; 0; 0; 1; 9; 0; 0; 0; 0; 0; 0; 0] amount_active ++ [entry]
    ∧ decoded_type entry = TU64
    ∧ decoded_name entry = "field_" +:+ Z_to_string (Z.of_nat (length amount_active) + 1)
    ∧ decoded_name entry
      = display_name {| field_id := "third"; field_name := ""; field_type := TU64 |}
                     (decodeWithLayout [7; 0; 0; 0; 1; 9; 0; 0; 0; 0; 0; 0; 0] amount_active).
Proof.
  apply (X8_added_field_is_named_by_its_place "third" amount_active
           [7; 0; 0; 0; 1; 9; 0; 0; 0; 0; 0; 0; 0]).
  vm_compute. reflexivity.
Defined.

(** X9.  Removing the field that was just added, under an identifier no
    other field of the layout has, gives the layout back. *)
Theorem X9_removing_an_added_field (id : string) (prev : list ReturnField) :
  Forall (fun field => field_id field ≠ id) prev →
  handleRemoveReturnField id (handleAddReturnField id prev) = prev.
Proof.
  intros Hfresh. unfold handleRemoveReturnField, handleAddReturnField.
  rewrite List.filter_app. cbn [List.filter field_id].
  rewrite String.eqb_refl. cbn [negb]. rewrite app_nil_r.
  induction Hfresh as [|f r Hf _ IH]; cbn [List.filter]; [done|].
  apply String.eqb_neq in Hf. rewrite Hf. cbn [negb]. by rewrite IH.
Qed.

Lemma X9_removing_an_added_field_witness :
  handleRemoveReturnField "third" (handleAddReturnField "third" amount_active)
  = amount_active.
Proof.
  apply (X9_removing_an_added_field "third" amount_active).
  repeat (constructor; [discriminate|]). constructor.
Defined.

(** ** Names in snake case *)

Section SnakeCase.

Lemma lower_char_not_upper c : is_upper (lower_char c) = false.
Proof. destruct c as [[] [] [] [] [] [] [] []]; vm_compute; reflexivity. Qed.

Lemma replace_capitals_lower s : ∀ offset,
  Forall (fun ch => is_upper ch = false) (list_ascii_of_string s) →
  replace_capitals offset s = s.
Proof.
  induction s as [|c r IH]; intros offset H; cbn [replace_capitals]; [done|].
  cbn [list_ascii_of_string] in H. inversion H as [|? ? Hc Hr]; subst.
  rewrite Hc. by rewrite IH.
Qed.

Lemma replace_capitals_no_upper s : ∀ offset,
  Forall (fun ch => is_upper ch = false)
         (list_ascii_of_string (replace_capitals offset s)).
Proof.
  induction s as [|c r IH]; intros offset; cbn [replace_capitals]; [constructor|].
  destruct (is_upper c) eqn:Hc.
  - destruct (0 <? offset)%nat; cbn [String.append list_ascii_of_string];
      repeat constructor; try apply lower_char_not_upper; apply IH.
  - cbn [list_ascii_of_string]. constructor; [done | apply IH].
Qed.

End SnakeCase.

(** X10.  A first letter from [A] to [Z] can as well be written in lower
    case: the name, and the name with that letter in lower case, have the
    same snake case form and the same discriminator.  The letters [A] to
    [Z] are the only capitals of [toSnakeCase]: [lower_char] leaves every
    other character as it is, and so does the source, for which a name
    that begins with an accented capital and the name with that letter in
    lower case are two names. *)
Theorem X10_first_letter_case_is_ignored (c : ascii) (rest : string) :
  toSnakeCase (String c rest) = toSnakeCase (String (lower_char c) rest)
  ∧ getInstructionDiscriminator (String c rest)
    = getInstructionDiscriminator (String (lower_char c) rest).
Proof.
  assert (H : toSnakeCase (String c rest) = toSnakeCase (String (lower_char c) rest)).
  { unfold toSnakeCase. cbn [replace_capitals]. rewrite lower_char_not_upper.
    destruct (is_upper c) eqn:Hc; [|by rewrite lower_char_other].
    change (0 <? 0)%nat with false. cbn [String.append]. done. }
  split; [done|].
  by rewrite !getInstructionDiscriminator_digest, H.
Qed.

(** X11.  A name without capital letters that does not begin with an
    underscore is its own snake case form, and its discriminator is the
    first 8 bytes of the SHA-256 of [global:] followed by the name as it
    is. *)
Theorem X11_snake_case_names_are_kept (name : string) :
  Forall (fun ch => is_upper ch = false) (list_ascii_of_string name) →
  startsWith "_" name = false →
  toSnakeCase name = name
  ∧ getInstructionDiscriminator name
    = take 8 (SHA256.digest (utf8_bytes ("global:" +:+ name))).
Proof.
  intros Hlow Hstart.
  assert (H : toSnakeCase name = name).
  { unfold toSnakeCase. rewrite replace_capitals_lower by done.
    destruct name as [|c r]; [done|].
    unfold remove_leading_underscore, is_char.
    change (startsWith "_" (String c r)) with (Ascii.eqb "_" c && true) in Hstart.
    rewrite andb_true_r, Ascii.eqb_sym in Hstart. by rewrite Hstart. }
  split; [done|]. by rewrite getInstructionDiscriminator_digest, H.
Qed.

Lemma X11_snake_case_names_are_kept_witness :
  toSnakeCase "set_authority" = "set_authority"
  ∧ getInstructionDiscriminator "set_authority"
    = take 8 (SHA256.digest (utf8_bytes ("global:" +:+ "set_authority"))).
Proof.
  apply (X11_snake_case_names_are_kept "set_authority").
  - repeat (constructor; [reflexivity|]). constructor.
  - reflexivity.
Defined.

(** X12.  The snake case form of a name, which is what the discriminator
    hashes after [global:], never holds a capital letter (of [A] to
    [Z]). *)
Theorem X12_normalized_names_have_no_capital (name : string) :
  Forall (fun ch => is_upper ch = false) (list_ascii_of_string (toSnakeCase name)).
Proof.
  unfold toSnakeCase.
  pose proof (replace_capitals_no_upper name 0) as H.
  destruct (replace_capitals 0 name) as [|c r]; [constructor|].
  unfold remove_leading_underscore. destruct (is_char c "_"); [|done].
  cbn [list_ascii_of_string] in H. by inversion H.
Qed.

(** ** Base 64 *)

Section Base64Facts.

Implicit Types (bytes : list Z) (l : list ascii).

Lemma forall_below (bound : nat) (P : Z → bool) :
  forallb P (map Z.of_nat (seq 0 bound)) = true →
  ∀ i, 0 ≤ i < Z.of_nat bound → P i = true.
Proof.
  intros H i Hi. rewrite forallb_forall in H. apply H.
  rewrite <- (Z2Nat.id i) by lia. apply in_map, in_seq. lia.
Qed.

Lemma revLookup_lookup i : 0 ≤ i < 64 → Base64.revLookup (Base64.lookup i) = i.
Proof.
  intros Hi. apply Z.eqb_eq.
  by apply (forall_below 64 (fun i => Base64.revLookup (Base64.lookup i) =? i)).
Qed.

Lemma lookup_not_equals i : 0 ≤ i < 64 → Ascii.eqb (Base64.lookup i) "=" = false.
Proof.
  intros Hi. apply negb_true_iff.
  by apply (forall_below 64 (fun i => negb (Ascii.eqb (Base64.lookup i) "="))).
Qed.

Lemma lookup_base64_char i : 0 ≤ i < 64 → base64_char (Base64.lookup i) = true.
Proof. intros Hi. by apply (forall_below 64 (fun i => base64_char (Base64.lookup i))). Qed.

Lemma lookup_plain i : 0 ≤ i < 64 → 33 ≤ code (Base64.lookup i) < 128.
Proof.
  intros Hi.
  pose proof (forall_below 64 (fun i => (33 <=? code (Base64.lookup i)) && (code (Base64.lookup i) <? 128))
                eq_refl i Hi) as H.
  apply andb_true_iff in H as [H1 H2]. apply Z.leb_le in H1. apply Z.ltb_lt in H2. lia.
Qed.

Lemma sextet_range x : 0 ≤ Z.land x 0x3F < 64.
Proof. change 0x3F with (Z.ones 6). rewrite Z.land_ones by lia. apply Z.mod_pos_bound. lia. Qed.

Lemma high_bits_clear x width n :
  0 ≤ x < 2 ^ width → 0 ≤ width ≤ n → Z.testbit x n = false.
Proof.
  intros Hx Hn. rewrite <- (Z.mod_small x (2 ^ width)) by done.
  apply Z.mod_pow2_bits_high. lia.
Qed.

(** The bit at place [n] of a field of [width] bits moved down by [from]
    places, masked, and moved up again by [to]. *)
Lemma field_bit x from to width n :
  0 ≤ from → 0 ≤ to → 0 ≤ width → 0 ≤ n →
  Z.testbit (Z.shiftl (Z.land (Z.shiftr x from) (Z.ones width)) to) n
  = Z.testbit x (n - to + from) && (to <=? n) && (n <? to + width).
Proof.
  intros Hf Ht Hw Hn. rewrite Z.shiftl_spec by lia.
  destruct (Z.leb_spec to n).
  - rewrite Z.land_spec, Z.shiftr_spec by lia.
    destruct (Z.ltb_spec n (to + width)).
    + rewrite Z.ones_spec_low by lia. by rewrite !andb_true_r.
    + rewrite Z.ones_spec_high by lia. by rewrite !andb_false_r.
  - rewrite Z.testbit_neg_r by lia. by rewrite andb_false_r.
Qed.

Ltac decide_bits :=
  repeat match goal with
         | |- context [(?a <=? ?b)] => destruct (Z.leb_spec a b); try lia
         | |- context [(?a <? ?b)] => destruct (Z.ltb_spec a b); try lia
         end;
  rewrite ?andb_true_r, ?andb_false_r, ?orb_false_r, ?orb_false_l; try reflexivity.

Lemma sextets num :
  0 ≤ num < 2 ^ 24 →
  Z.lor (Z.lor (Z.lor (Z.shiftl (Z.land (Z.shiftr num 18) 0x3F) 18)
                      (Z.shiftl (Z.land (Z.shiftr num 12) 0x3F) 12))
               (Z.shiftl (Z.land (Z.shiftr num 6) 0x3F) 6))
        (Z.land num 0x3F)
  = num.
Proof.
  intros Hnum. apply Z.bits_inj'. intros n Hn.
  change 0x3F with (Z.ones 6).
  rewrite <- (Z.shiftl_0_r (Z.land num (Z.ones 6))).
  rewrite <- (Z.shiftr_0_r num) at 4.
  rewrite !Z.lor_spec, !field_bit by lia.
  replace (n - 18 + 18) with n by lia. replace (n - 12 + 12) with n by lia.
  replace (n - 6 + 6) with n by lia. replace (n - 0 + 0) with n by lia.
  destruct (Z.ltb_spec n 24) as [Hlow|Hhigh].
  - decide_bits.
  - rewrite (high_bits_clear num 24 n) by lia. done.
Qed.

Lemma triple_number a b c :
  is_byte a → is_byte b → is_byte c →
  Z.land (Z.shiftl a 16) 0xFF0000 + Z.land (Z.shiftl b 8) 0xFF00 + Z.land c 0xFF
  = a * 65536 + b * 256 + c.
Proof.
  unfold is_byte. intros Ha Hb Hc.
  assert (H1 : Z.land (Z.shiftl a 16) 0xFF0000 = a * 65536).
  { apply Z.eqb_eq.
    by apply (forall_below 256 (fun a => Z.land (Z.shiftl a 16) 0xFF0000 =? a * 65536)). }
  assert (H2 : Z.land (Z.shiftl b 8) 0xFF00 = b * 256).
  { apply Z.eqb_eq.
    by apply (forall_below 256 (fun b => Z.land (Z.shiftl b 8) 0xFF00 =? b * 256)). }
  assert (H3 : Z.land c 0xFF = c).
  { change 0xFF with (Z.ones 8). rewrite Z.land_ones by lia. apply Z.mod_small. lia. }
  by rewrite H1, H2, H3.
Qed.

Lemma byte_of num shift a :
  0 ≤ shift → num / 2 ^ shift mod 256 = a →
  Z.land (Z.shiftr num shift) 0xFF = a.
Proof.
  intros Hs Ha. change 0xFF with (Z.ones 8).
  by rewrite Z.land_ones, Z.shiftr_div_pow2 by lia.
Qed.

(** Four characters give back the three bytes they were made of. *)
Lemma toByteArray_triplet a b c l :
  is_byte a → is_byte b → is_byte c →
  Base64.toByteArray
    (Base64.tripletToBase64 (Z.land (Z.shiftl a 16) 0xFF0000 + Z.land (Z.shiftl b 8) 0xFF00
                      + Z.land c 0xFF) ++ l)
  = a :: b :: c :: Base64.toByteArray l.
Proof.
  intros Ha Hb Hc. rewrite triple_number by done.
  unfold is_byte in *. set (num := a * 65536 + b * 256 + c).
  assert (Hnum : 0 ≤ num < 2 ^ 24) by (subst num; lia).
  unfold Base64.tripletToBase64. cbn [app Base64.toByteArray].
  rewrite !revLookup_lookup by apply sextet_range.
  rewrite sextets by done.
  f_equal; [|f_equal; [|f_equal]].
  - apply byte_of; [lia|]. change (2 ^ 16) with 65536.
    replace (num / 65536) with a
      by (apply (Z.div_unique _ _ _ (b * 256 + c)); subst num; lia).
    apply Z.mod_small. lia.
  - apply byte_of; [lia|]. change (2 ^ 8) with 256.
    replace (num / 256) with (a * 256 + b)
      by (apply (Z.div_unique _ _ _ c); subst num; lia).
    symmetry. apply (Z.mod_unique _ _ a); lia.
  - rewrite <- (Z.shiftr_0_r num). apply byte_of; [lia|].
    change (2 ^ 0) with 1. rewrite Z.div_1_r.
    symmetry. apply (Z.mod_unique _ _ (a * 256 + b)); subst num; lia.
Qed.

Lemma toByteArray_one a :
  is_byte a →
  Base64.toByteArray [Base64.lookup (Z.shiftr a 2); Base64.lookup (Z.land (Z.shiftl a 4) 0x3F)] = [a].
Proof.
  intros Ha. unfold is_byte in Ha.
  pose proof (forall_below 256
    (fun a => match Base64.toByteArray [Base64.lookup (Z.shiftr a 2); Base64.lookup (Z.land (Z.shiftl a 4) 0x3F)] with
              | [b] => b =? a
              | _ => false
              end) eq_refl a Ha) as H.
  cbn [Base64.toByteArray] in H |- *. apply Z.eqb_eq in H. by rewrite H.
Qed.

Lemma upper_bits x from n :
  0 ≤ from → 0 ≤ n →
  Z.testbit (Z.shiftl (Z.shiftr x from) from) n = Z.testbit x n && (from <=? n).
Proof.
  intros Hf Hn. rewrite Z.shiftl_spec by lia.
  destruct (Z.leb_spec from n).
  - rewrite Z.shiftr_spec by lia. rewrite andb_true_r. f_equal. lia.
  - rewrite Z.testbit_neg_r by lia. by rewrite andb_false_r.
Qed.

Lemma lower_bits x n :
  0 ≤ n →
  Z.testbit (Z.shiftr (Z.land (Z.shiftl x 2) (Z.ones 6)) 2) n = Z.testbit x n && (n <? 4).
Proof.
  intros Hn. rewrite Z.shiftr_spec, Z.land_spec, Z.shiftl_spec by lia.
  replace (n + 2 - 2) with n by lia.
  destruct (Z.ltb_spec n 4).
  - rewrite Z.ones_spec_low by lia. by rewrite andb_true_r.
  - rewrite Z.ones_spec_high by lia. by rewrite andb_false_r.
Qed.

Lemma pair_number tmp :
  0 ≤ tmp < 2 ^ 16 →
  Z.lor (Z.lor (Z.shiftl (Z.shiftr tmp 10) 10)
               (Z.shiftl (Z.land (Z.shiftr tmp 4) 0x3F) 4))
        (Z.shiftr (Z.land (Z.shiftl tmp 2) 0x3F) 2)
  = tmp.
Proof.
  intros Htmp. apply Z.bits_inj'. intros n Hn.
  change 0x3F with (Z.ones 6).
  rewrite !Z.lor_spec, (field_bit tmp 4 4 6 n), upper_bits, lower_bits by lia.
  replace (n - 4 + 4) with n by lia.
  destruct (Z.ltb_spec n 16) as [Hlow|Hhigh].
  - decide_bits.
  - rewrite (high_bits_clear tmp 16 n) by lia. done.
Qed.

Lemma toByteArray_two a b :
  is_byte a → is_byte b →
  Base64.toByteArray [Base64.lookup (Z.shiftr (Z.shiftl a 8 + b) 10);
               Base64.lookup (Z.land (Z.shiftr (Z.shiftl a 8 + b) 4) 0x3F);
               Base64.lookup (Z.land (Z.shiftl (Z.shiftl a 8 + b) 2) 0x3F)]
  = [a; b].
Proof.
  unfold is_byte. intros Ha Hb.
  rewrite Z.shiftl_mul_pow2 by lia. change (2 ^ 8) with 256.
  set (tmp := a * 256 + b).
  assert (Htmp : 0 ≤ tmp < 2 ^ 16) by (subst tmp; lia).
  assert (Hhigh : 0 ≤ Z.shiftr tmp 10 < 64).
  { rewrite Z.shiftr_div_pow2 by lia. change (2 ^ 10) with 1024.
    split; [apply Z.div_pos; lia | apply Z.div_lt_upper_bound; lia]. }
  cbn [Base64.toByteArray].
  rewrite !revLookup_lookup by (done || apply sextet_range).
  rewrite pair_number by done.
  f_equal; [|f_equal].
  - apply byte_of; [lia|]. change (2 ^ 8) with 256.
    replace (tmp / 256) with a by (apply (Z.div_unique _ _ _ b); subst tmp; lia).
    apply Z.mod_small. lia.
  - rewrite <- (Z.shiftr_0_r tmp). apply byte_of; [lia|].
    change (2 ^ 0) with 1. rewrite Z.div_1_r.
    symmetry. apply (Z.mod_unique _ _ a); subst tmp; lia.
Qed.

End Base64Facts.

(** ** Base 64, there and back *)

Section Base64RoundTrip.

Implicit Types (bytes : list Z) (l : list ascii).

Lemma by_triples (P : list Z → Prop) :
  P [] → (∀ a, P [a]) → (∀ a b, P [a; b]) →
  (∀ a b c r, P r → P (a :: b :: c :: r)) →
  ∀ bytes, P bytes.
Proof.
  intros H0 H1 H2 H3 bytes.
  assert (G : ∀ n bytes, (length bytes ≤ n)%nat → P bytes).
  { induction n as [|n IH]; intros [|a [|b [|c r]]] Hlen; simpl in Hlen; try done; try lia.
    apply H3, IH. lia. }
  by apply (G (length bytes)).
Qed.

Lemma lookup_payload i : 0 ≤ i < 64 → payload_char (Base64.lookup i).
Proof.
  intros Hi. split; [by apply lookup_not_equals|].
  split; [by apply lookup_base64_char | by apply lookup_plain].
Qed.

Lemma shiftr_byte a : is_byte a → 0 ≤ Z.shiftr a 2 < 64.
Proof.
  unfold is_byte. intros Ha. rewrite Z.shiftr_div_pow2 by lia. change (2 ^ 2) with 4.
  split; [apply Z.div_pos; lia | apply Z.div_lt_upper_bound; lia].
Qed.

Lemma shiftr_pair a b : is_byte a → is_byte b → 0 ≤ Z.shiftr (Z.shiftl a 8 + b) 10 < 64.
Proof.
  unfold is_byte. intros Ha Hb.
  rewrite Z.shiftl_mul_pow2, Z.shiftr_div_pow2 by lia.
  change (2 ^ 8) with 256. change (2 ^ 10) with 1024.
  split; [apply Z.div_pos; lia | apply Z.div_lt_upper_bound; lia].
Qed.

(** The characters before the padding are read back as the bytes. *)
Lemma toByteArray_fromByteArray bytes :
  Forall is_byte bytes →
  Base64.toByteArray (before_equals (Base64.fromByteArray bytes)) = bytes
  ∧ Forall payload_char (before_equals (Base64.fromByteArray bytes))
  ∧ (length (before_equals (Base64.fromByteArray bytes)) = 0 ∨
     2 ≤ length (before_equals (Base64.fromByteArray bytes)))%nat.
Proof.
  induction bytes as [|a|a b|a b c r IH] using by_triples; intros Hb.
  - repeat split; [constructor | by left].
  - inversion Hb as [|? ? Ha _]; subst. cbn [Base64.fromByteArray before_equals].
    destruct (lookup_payload (Z.shiftr a 2) (shiftr_byte a Ha)) as [E1 P1].
    destruct (lookup_payload (Z.land (Z.shiftl a 4) 0x3F) (sextet_range _)) as [E2 P2].
    rewrite E1, E2. cbn [Ascii.eqb Bool.eqb].
    split; [by apply toByteArray_one|]. split; [|right; simpl; lia].
    repeat (constructor; [by split|]). constructor.
  - inversion Hb as [|? ? Ha Hb']; subst. inversion Hb' as [|? ? Hb2 _]; subst.
    cbn [Base64.fromByteArray before_equals]. cbv zeta.
    destruct (lookup_payload _ (shiftr_pair a b Ha Hb2)) as [E1 P1].
    destruct (lookup_payload (Z.land (Z.shiftr (Z.shiftl a 8 + b) 4) 0x3F) (sextet_range _))
      as [E2 P2].
    destruct (lookup_payload (Z.land (Z.shiftl (Z.shiftl a 8 + b) 2) 0x3F) (sextet_range _))
      as [E3 P3].
    rewrite E1, E2, E3. cbn [Ascii.eqb Bool.eqb].
    split; [by apply toByteArray_two|]. split; [|right; simpl; lia].
    repeat (constructor; [by split|]). constructor.
  - inversion Hb as [|? ? Ha Hb1]; subst. inversion Hb1 as [|? ? Hb2 Hb3]; subst.
    inversion Hb3 as [|? ? Hc Hr]; subst.
    destruct (IH Hr) as (IH1 & IH2 & IH3).
    cbn [Base64.fromByteArray].
    set (num := Z.land (Z.shiftl a 16) 0xFF0000 + Z.land (Z.shiftl b 8) 0xFF00
                + Z.land c 0xFF).
    unfold Base64.tripletToBase64. cbn [app before_equals].
    destruct (lookup_payload (Z.land (Z.shiftr num 18) 0x3F) (sextet_range _)) as [E1 P1].
    destruct (lookup_payload (Z.land (Z.shiftr num 12) 0x3F) (sextet_range _)) as [E2 P2].
    destruct (lookup_payload (Z.land (Z.shiftr num 6) 0x3F) (sextet_range _)) as [E3 P3].
    destruct (lookup_payload (Z.land num 0x3F) (sextet_range _)) as [E4 P4].
    rewrite E1, E2, E3, E4. split; [|split].
    + pose proof (toByteArray_triplet a b c (before_equals (Base64.fromByteArray r)) Ha Hb2 Hc) as H.
      fold num in H. unfold Base64.tripletToBase64 in H. cbn [app] in H.
      by rewrite H, IH1.
    + repeat (constructor; [by split|]). exact IH2.
    + right. simpl. lia.
Qed.

Lemma filter_all {A} (f : A → bool) (l : list A) :
  Forall (fun x => f x = true) l → List.filter f l = l.
Proof. induction 1 as [|x r Hx _ IH]; simpl; [done|]. by rewrite Hx, IH. Qed.

Lemma before_equals_idem l : before_equals (before_equals l) = before_equals l.
Proof.
  induction l as [|ch r IH]; cbn [before_equals]; [done|].
  destruct (Ascii.eqb ch "=") eqn:E; [done|]. cbn [before_equals]. by rewrite E, IH.
Qed.

(** [Buffer.from(text, "base64")] undoes [toString("base64")]. *)
Lemma Buffer_from_base64_toString bytes :
  Forall is_byte bytes → Buffer_from_base64 (toString_base64 bytes) = bytes.
Proof.
  intros Hb. destruct (toByteArray_fromByteArray bytes Hb) as (Hread & Hchars & Hlen).
  unfold Buffer_from_base64, toString_base64, base64clean.
  rewrite list_ascii_of_string_of_list_ascii.
  set (body := before_equals (Base64.fromByteArray bytes)) in *.
  assert (Hplain : plain (string_of_list_ascii body)).
  { unfold plain, utf8_bytes. rewrite list_ascii_of_string_of_list_ascii.
    apply Forall_map. eapply Forall_impl; [exact Hchars|]. by intros ch (_ & _ & ?). }
  rewrite trim_plain, list_ascii_of_string_of_list_ascii by done.
  rewrite filter_all by (eapply Forall_impl; [exact Hchars|]; by intros ch (_ & ? & _)).
  destruct Hlen as [Hlen|Hlen].
  - apply nil_length_inv in Hlen. by rewrite Hlen in *.
  - destruct (Nat.ltb_spec (length body) 2); [lia | done].
Qed.

End Base64RoundTrip.

(** ** The return data *)

Section ReturnData.

Lemma readBigUInt64LE_eight (bytes : list Z) :
  length bytes = 8%nat → readBigUInt64LE bytes 0 = Ok (le_value bytes).
Proof.
  intros Hlen.
  destruct bytes as [|b0 [|b1 [|b2 [|b3 [|b4 [|b5 [|b6 [|b7 [|? ?]]]]]]]]]; try done.
  unfold readBigUInt64LE, le_value, be_value.
  change (0 mod 2 ^ 32) with 0. cbn. f_equal.
  rewrite Z.shiftl_mul_pow2 by lia.
  change (2 ^ 8) with 256. change (2 ^ 16) with 65536. change (2 ^ 24) with 16777216.
  change (2 ^ 32) with 4294967296.
  set (l := [b0; b1; b2; b3; b4; b5; b6; b7]).
  change (get_index l (0 + 1)) with (Some b1). change (get_index l (0 + 2)) with (Some b2).
  change (get_index l (0 + 3)) with (Some b3). change (get_index l (0 + 4)) with (Some b4).
  change (get_index l (0 + 5)) with (Some b5). change (get_index l (0 + 6)) with (Some b6).
  cbn [default from_option id]. lia.
Qed.

Lemma decode_u64_eight (bytes : list Z) :
  Forall is_byte bytes → length bytes = 8%nat →
  decode_field bytes 0 TU64 = Ok (Z_to_string (le_value bytes), 8).
Proof.
  intros Hb Hlen.
  destruct (kind_bytes_signed_value U64 bytes Hb Hlen) as [Hr Hkb].
  pose proof (decode_field_kind_bytes U64 _ Hr) as H.
  by rewrite Hkb in H.
Qed.

End ReturnData.

(** X13.  With a layout that is not empty, [formatReturnData] decodes the
    base-64 text of the return data back to the bytes the program
    returned: it shows their hexadecimal form and the fields that
    [decodeWithLayout] reads from them, and no [decoded] value. *)
Theorem X13_return_data_is_decoded_with_the_layout (programId : string) (bytes : list Z)
    (rest : list string) (field : ReturnField) (layout : list ReturnField) :
  Forall is_byte bytes →
  formatReturnData
    (Some {| return_programId := programId;
             return_data := Some (toString_base64 bytes :: rest) |})
    (field :: layout)
  = Some {| info_programId := programId;
            info_base64 := toString_base64 bytes;
            info_hex := hex_of_bytes bytes;
            info_encoding := head rest;
            info_decoded := None;
            info_fields := Some (decodeWithLayout bytes (field :: layout)) |}.
Proof.
  intros Hb. unfold formatReturnData. cbn [return_data return_programId].
  by rewrite Buffer_from_base64_toString.
Qed.

Lemma X13_return_data_is_decoded_with_the_layout_witness :
  formatReturnData
    (Some {| return_programId := SYSTEM_PROGRAM_ID;
             return_data := Some (toString_base64 [7; 0; 0; 0; 1] :: ["base64"]) |})
    (sample_field "amount" TU32 :: [sample_field "active" TBool])
  = Some {| info_programId := SYSTEM_PROGRAM_ID;
            info_base64 := toString_base64 [7; 0; 0; 0; 1];
            info_hex := hex_of_bytes [7; 0; 0; 0; 1];
            info_encoding := head ["base64"];
            info_decoded := None;
            info_fields :=
              Some (decodeWithLayout [7; 0; 0; 0; 1]
                      (sample_field "amount" TU32 :: [sample_field "active" TBool])) |}.
Proof.
  apply (X13_return_data_is_decoded_with_the_layout SYSTEM_PROGRAM_ID [7; 0; 0; 0; 1]
           ["base64"] (sample_field "amount" TU32) [sample_field "active" TBool]).
  repeat (constructor; [unfold is_byte; lia|]). constructor.
Defined.

(** X14.  Without a layout, [formatReturnData] shows a [decoded] value
    exactly when the return data are 8 bytes, and the value is the one a
    layout of a single [u64] field shows: the bytes read as an unsigned
    little-endian integer, in decimal. *)
Theorem X14_default_reading_is_a_u64_field (programId : string) (bytes : list Z)
    (rest : list string) (field : ReturnField) :
  Forall is_byte bytes → field_type field = TU64 →
  ∃ info,
    formatReturnData
      (Some {| return_programId := programId;
               return_data := Some (toString_base64 bytes :: rest) |}) []
    = Some info
    ∧ info_hex info = hex_of_bytes bytes
    ∧ info_fields info = None
    ∧ (length bytes = 8%nat →
       info_decoded info = Some (Z_to_string (le_value bytes))
       ∧ map decoded_value (decodeWithLayout bytes [field])
         = [Z_to_string (le_value bytes)])
    ∧ (length bytes ≠ 8%nat → info_decoded info = None).
Proof.
  intros Hb Hfield. unfold formatReturnData. cbn [return_data return_programId].
  rewrite Buffer_from_base64_toString by done. cbv zeta.
  eexists. split; [reflexivity|]. cbn [info_hex info_fields info_decoded].
  split; [done|]. split; [done|]. split.
  - intros Hlen. rewrite Hlen. cbn [Nat.eqb].
    rewrite readBigUInt64LE_eight by done. split; [done|].
    unfold decodeWithLayout. cbn [decode_loop]. rewrite Hfield.
    by rewrite decode_u64_eight.
  - intros Hlen. by destruct (Nat.eqb_spec (length bytes) 8).
Qed.

Lemma X14_default_reading_is_a_u64_field_witness :
  ∃ info,
    formatReturnData
      (Some {| return_programId := SYSTEM_PROGRAM_ID;
               return_data :=
                 Some (toString_base64 [10; 0; 0; 0; 0; 0; 0; 0] :: ["base64"]) |}) []
    = Some info
    ∧ info_hex info = hex_of_bytes [10; 0; 0; 0; 0; 0; 0; 0]
    ∧ info_fields info = None
    ∧ (length [10; 0; 0; 0; 0; 0; 0; 0] = 8%nat →
       info_decoded info = Some (Z_to_string (le_value [10; 0; 0; 0; 0; 0; 0; 0]))
       ∧ map decoded_value
             (decodeWithLayout [10; 0; 0; 0; 0; 0; 0; 0] [sample_field "total" TU64])
         = [Z_to_string (le_value [10; 0; 0; 0; 0; 0; 0; 0])])
    ∧ (length [10; 0; 0; 0; 0; 0; 0; 0] ≠ 8%nat → info_decoded info = None).
Proof.
  apply (X14_default_reading_is_a_u64_field SYSTEM_PROGRAM_ID [10; 0; 0; 0; 0; 0; 0; 0]
           ["base64"] (sample_field "total" TU64)).
  - repeat (constructor; [unfold is_byte; lia|]). constructor.
  - reflexivity.
Defined.

(** ** Trimming *)

Section Trimming.

Lemma white_space_not_plain :
  Forall (Forall (fun x => ¬ 33 ≤ x < 128)) white_space.
Proof.
  assert (H : forallb (forallb (fun x => (x <? 33) || (127 <? x))) white_space = true)
    by reflexivity.
  rewrite forallb_forall in H. apply List.Forall_forall. intros p Hp.
  specialize (H p Hp). rewrite forallb_forall in H.
  apply List.Forall_forall. intros x Hx. specialize (H x Hx).
  apply orb_true_iff in H as [H|H]; [apply Z.ltb_lt in H | apply Z.ltb_lt in H]; lia.
Qed.

Lemma bytes_start_snoc (b : Z) (p : list Z) : ∀ m,
  33 ≤ b < 128 → Forall (fun x => ¬ 33 ≤ x < 128) p →
  bytes_start p (m ++ [b]) = true → (length p ≤ length m)%nat.
Proof.
  induction p as [|a p IH]; intros m Hb Hp; cbn [length]; [lia|].
  inversion Hp as [|? ? Ha Hp']; subst.
  destruct m as [|x m]; cbn [app bytes_start length].
  - intros H. apply andb_true_iff in H as [H _]. apply Z.eqb_eq in H. lia.
  - intros H. apply andb_true_iff in H as [_ H]. apply IH in H; [lia | done | done].
Qed.

Lemma ws_last_snoc (b : Z) (m : list Z) :
  33 ≤ b < 128 → (ws_last (m ++ [b]) ≤ length m)%nat.
Proof.
  intros Hb. unfold ws_last.
  destruct (find _ white_space) as [p|] eqn:Hfind; [|lia].
  apply find_some in Hfind as [Hin Hstart].
  rewrite <- (length_rev p).
  apply (bytes_start_snoc b); [done | | done].
  apply Forall_rev.
  pose proof white_space_not_plain as H. rewrite List.Forall_forall in H. by apply H.
Qed.

Lemma strip_last_snoc (b : Z) fuel : ∀ m,
  33 ≤ b < 128 → ∃ m', strip ws_last fuel (m ++ [b]) = m' ++ [b].
Proof.
  induction fuel as [|fuel IH]; intros m Hb; cbn [strip]; [by exists m|].
  pose proof (ws_last_snoc b m Hb) as Hle.
  destruct (ws_last (m ++ [b])) as [|n]; [by exists m|].
  rewrite drop_app_le by lia. by apply IH.
Qed.

(** [trim] leaves a first character that is not white space in place. *)
Lemma trim_first (c : ascii) (r : string) :
  33 ≤ code c < 128 → ∃ r', trim (String c r) = String c r'.
Proof.
  intros Hc. unfold trim.
  change (utf8_bytes (String c r)) with (code c :: utf8_bytes r).
  assert (H1 : strip ws_head (length (code c :: utf8_bytes r)) (code c :: utf8_bytes r)
               = code c :: utf8_bytes r)
    by (apply strip_none; by apply ws_head_plain).
  rewrite H1. clear H1. cbn [rev].
  destruct (strip_last_snoc (code c) (length (code c :: utf8_bytes r))
              (rev (utf8_bytes r)) Hc) as [m' ->].
  rewrite rev_app_distr. cbn [rev app]. unfold string_of_bytes. cbn [map string_of_list_ascii].
  rewrite chr_code. by eexists.
Qed.

End Trimming.

(** ** The request *)

Section Accounts.

Implicit Types (accountValues : gmap string string) (acc : IdlAccount).

Lemma lacks_value_false accountValues acc :
  has_value accountValues acc → lacks_value accountValues acc = false.
Proof.
  unfold lacks_value. intros (text & -> & Hne). by apply String.eqb_neq.
Qed.

Lemma lacks_value_true accountValues acc :
  no_value accountValues acc → lacks_value accountValues acc = true.
Proof.
  unfold lacks_value. by intros [-> | [-> ->]].
Qed.

Lemma find_all_valued accountValues (accounts : list IdlAccount) :
  Forall (has_value accountValues) accounts →
  find (lacks_value accountValues) accounts = None.
Proof.
  induction 1 as [|acc r Hacc _ IH]; cbn [find]; [done|].
  apply lacks_value_false in Hacc. by rewrite Hacc.
Qed.

End Accounts.

(** X15.  [handleSend] stops at the first account for which the account
    check finds nothing (the text typed is empty, or nothing was typed and
    the name is not one that every object inherits): it shows the message
    that names the account, and neither encodes the arguments nor sends a
    request. *)
Theorem X15_missing_account_stops_the_call (instruction : IdlInstruction)
    (programId network : string) (rpcUrl : option string)
    (argValues accountValues : gmap string string) (backendWallet : option string)
    (generatedKeypairs : list (string * Keypair))
    (before after : list IdlAccount) (acc : IdlAccount) :
  accounts instruction = before ++ acc :: after →
  Forall (has_value accountValues) before →
  no_value accountValues acc →
  handleSend instruction programId network rpcUrl argValues accountValues
             backendWallet generatedKeypairs
  = Rejected ("Error: Missing public key for account '" +:+ acc_name acc +:+ "'").
Proof.
  intros Haccounts Hbefore Hacc. unfold handleSend. rewrite Haccounts.
  apply lacks_value_true in Hacc.
  assert (Hfind : find (lacks_value accountValues) (before ++ acc :: after) = Some acc).
  { clear Haccounts. induction Hbefore as [|a r Ha _ IH]; cbn [app find].
    - by rewrite Hacc.
    - apply lacks_value_false in Ha. by rewrite Ha. }
  by rewrite Hfind.
Qed.

Lemma X15_missing_account_stops_the_call_witness :
  handleSend transfer_call SYSTEM_PROGRAM_ID "devnet" None transfer_args
             {[ "authority" := SYSTEM_PROGRAM_ID ]} None []
  = Rejected ("Error: Missing public key for account '"
              +:+ acc_name system_program_account +:+ "'").
Proof.
  apply (X15_missing_account_stops_the_call transfer_call SYSTEM_PROGRAM_ID "devnet" None
           transfer_args {[ "authority" := SYSTEM_PROGRAM_ID ]} None []
           [authority_account] [] system_program_account).
  - reflexivity.
  - constructor; [|constructor].
    exists SYSTEM_PROGRAM_ID. split; [vm_compute; reflexivity | discriminate].
  - right. split; vm_compute; reflexivity.
Defined.

(** An account named [constructor] for which nothing is typed passes the
    account check, the function every object inherits under that name
    being truthy: the request is sent, the account marked as a signer and
    without a public key. *)
Example account_named_constructor :
  handleSend {| name := "initialize";
                accounts := [{| acc_name := "constructor"; isMut := true; isSigner := false |}];
                args := [] |}
             SYSTEM_PROGRAM_ID "devnet" None ∅ ∅ None []
  = Sent {| rpc_url := "https://api.devnet.solana.com";
            program_id := SYSTEM_PROGRAM_ID;
            request_accounts :=
              [{| pubkey := None; is_signer := true; is_writable := true |}];
            instruction_data := "r69tHw2Ym+0=";
            sign_with_backend := true;
            fee_payer := "";
            additional_signers := None |}.
Proof. vm_compute. reflexivity. Qed.

(** X16.  When every account has a public key and every argument is
    accepted, [handleSend] hands a request to [fetch]: its
    [instruction_data] is a base-64 text that decodes to the discriminator
    and the bytes of the arguments; it carries the program identifier as
    given, asks the backend to sign, marks as writable the accounts the IDL
    marks mutable, and gives every account a public key that is not
    empty.  As in X1, an argument without a text is taken as
    [undefined]. *)
Theorem X16_request_carries_the_encoded_call (instruction : IdlInstruction)
    (programId network : string) (rpcUrl : option string)
    (argValues accountValues : gmap string string) (backendWallet : option string)
    (generatedKeypairs : list (string * Keypair)) (payloads : list (list Z)) :
  Forall (has_value accountValues) (accounts instruction) →
  Forall2 (fun arg bytes => stands_for argValues arg (Some bytes))
          (args instruction) payloads →
  (8 + length (concat payloads) ≤ capacity)%nat →
  ∃ payload,
    handleSend instruction programId network rpcUrl argValues accountValues
               backendWallet generatedKeypairs
    = Sent payload
    ∧ Buffer_from_base64 (instruction_data payload)
      = getInstructionDiscriminator (name instruction) ++ concat payloads
    ∧ program_id payload = programId
    ∧ sign_with_backend payload = true
    ∧ map is_writable (request_accounts payload) = map isMut (accounts instruction)
    ∧ Forall (fun meta => ∃ key, pubkey meta = Some key ∧ key ≠ "")
             (request_accounts payload).
Proof.
  intros Hvalued Hargs Hfit. unfold handleSend.
  rewrite find_all_valued by done.
  rewrite (encode_accepted instruction argValues payloads Hargs Hfit).
  eexists. split; [reflexivity|].
  cbn [instruction_data program_id sign_with_backend request_accounts].
  split; [|split; [done|split; [done|split]]].
  - apply Buffer_from_base64_toString. apply Forall_app. split.
    + rewrite getInstructionDiscriminator_digest. apply Forall_take, digest_bytes.
    + apply Forall_concat.
      clear Hfit. induction Hargs as [|arg bytes ? ? [_ Hb] _ IH]; constructor; [|done].
      clear IH. unfold arg_bytes in Hb. cbv zeta in Hb.
      destruct (int_kind _) as [k|].
      * destruct (parse_for _ _ _) as [v|]; [|done].
        destruct (in_range k v); [|done]. injection Hb as <-. apply le_bytes_are_bytes.
      * destruct (String.eqb _ "bool").
        -- destruct (bool_byte _) as [b|] eqn:Hbb; [|done]. injection Hb as <-.
           unfold bool_byte in Hbb.
           destruct (existsb _ _); [injection Hbb as <-; repeat constructor; unfold is_byte; lia|].
           destruct (existsb _ _); [|done].
           injection Hbb as <-. repeat constructor; unfold is_byte; lia.
        -- destruct (_ || _).
           ++ by apply PublicKey_toBuffer_bytes in Hb as [_ ?].
           ++ injection Hb as <-. apply text_bytes_are_bytes.
  - unfold accountsPayload. rewrite map_map. by apply map_ext.
  - unfold accountsPayload. apply Forall_map.
    eapply Forall_impl; [exact Hvalued|]. intros acc (text & Hlook & Hne).
    cbn [pubkey]. unfold reads_inherited. rewrite Hlook.
    unfold text_or. apply String.eqb_neq in Hne. rewrite Hne.
    destruct (generated _ _) as [kp|]; [|by exists text; split; [|apply String.eqb_neq]].
    destruct (String.eqb_spec (generated_pubkey kp) "").
    + exists text. split; [done | by apply String.eqb_neq].
    + by exists (generated_pubkey kp).
Qed.

Lemma X16_request_carries_the_encoded_call_witness :
  ∃ payload,
    handleSend transfer_call SYSTEM_PROGRAM_ID "devnet" None transfer_args
               transfer_accounts None []
    = Sent payload
    ∧ Buffer_from_base64 (instruction_data payload)
      = getInstructionDiscriminator (name transfer_call)
        ++ concat (map value_bytes transfer_values)
    ∧ program_id payload = SYSTEM_PROGRAM_ID
    ∧ sign_with_backend payload = true
    ∧ map is_writable (request_accounts payload) = map isMut (accounts transfer_call)
    ∧ Forall (fun meta => ∃ key, pubkey meta = Some key ∧ key ≠ "")
             (request_accounts payload).
Proof.
  apply (X16_request_carries_the_encoded_call transfer_call SYSTEM_PROGRAM_ID "devnet" None
           transfer_args transfer_accounts None [] (map value_bytes transfer_values)).
  - repeat (constructor;
            [exists SYSTEM_PROGRAM_ID; split; [vm_compute; reflexivity | discriminate]|]).
    constructor.
  - repeat (constructor; [split; vm_compute; reflexivity|]). constructor.
  - vm_compute. lia.
Defined.

(** X17.  When an argument is refused, nothing is sent, and the status
    shown is 400 with a message that begins with the name of the argument
    in brackets, or, for an account identifier that is not valid, 500 with
    the message [Invalid PublicKey for] and the name.  As in X1, an
    argument without a text is taken as [undefined]. *)
Theorem X17_refused_argument_status (instruction : IdlInstruction)
    (programId network : string) (rpcUrl : option string)
    (argValues accountValues : gmap string string) (backendWallet : option string)
    (generatedKeypairs : list (string * Keypair))
    (before after : list IdlArg) (arg : IdlArg) (payloads : list (list Z)) :
  Forall (has_value accountValues) (accounts instruction) →
  args instruction = before ++ arg :: after →
  Forall2 (fun arg bytes => stands_for argValues arg (Some bytes)) before payloads →
  (8 + length (concat payloads) ≤ capacity)%nat →
  stands_for argValues arg None →
  ∃ status message,
    handleSend instruction programId network rpcUrl argValues accountValues
               backendWallet generatedKeypairs
    = Caught status message
    ∧ ((status = 400 ∧ ∃ rest, message = "[" +:+ arg_name arg +:+ "] " +:+ rest)
       ∨ (status = 500 ∧ message = "Invalid PublicKey for " +:+ arg_name arg)).
Proof.
  intros Hvalued Hargs Hbefore Hfit Hbad. unfold handleSend.
  rewrite find_all_valued by done.
  destruct (encode_refused instruction argValues before after arg payloads
              Hargs Hbefore Hfit Hbad) as (message & -> & Hnames).
  cbn [exn_message]. cbv zeta.
  destruct Hnames as [[rest ->] | ->].
  - change ("[" +:+ arg_name arg +:+ "] " +:+ rest)
      with (String "[" (arg_name arg +:+ "] " +:+ rest)).
    cbn [text_or String.eqb].
    destruct (trim_first "[" (arg_name arg +:+ "] " +:+ rest)) as [r' ->];
      [vm_compute; split; [discriminate | reflexivity]|].
    eexists _, _. split; [reflexivity|]. left. split; [done|]. by exists rest.
  - change ("Invalid PublicKey for " +:+ arg_name arg)
      with (String "I" ("nvalid PublicKey for " +:+ arg_name arg)).
    cbn [text_or String.eqb].
    destruct (trim_first "I" ("nvalid PublicKey for " +:+ arg_name arg)) as [r' ->];
      [vm_compute; split; [discriminate | reflexivity]|].
    eexists _, _. split; [reflexivity|]. right. done.
Qed.

Lemma X17_refused_argument_status_witness :
  ∃ status message,
    handleSend transfer_call SYSTEM_PROGRAM_ID "devnet" None
               (<["urgent" := "maybe"]> transfer_args) transfer_accounts None []
    = Caught status message
    ∧ ((status = 400
        ∧ ∃ rest, message = "[" +:+ arg_name (sample_arg "urgent" "bool") +:+ "] " +:+ rest)
       ∨ (status = 500
          ∧ message = "Invalid PublicKey for " +:+ arg_name (sample_arg "urgent" "bool"))).
Proof.
  apply (X17_refused_argument_status transfer_call SYSTEM_PROGRAM_ID "devnet" None
           (<["urgent" := "maybe"]> transfer_args) transfer_accounts None []
           [sample_arg "amount" "u64"; sample_arg "memo" "string"] []
           (sample_arg "urgent" "bool") [kind_bytes U64 500; text_bytes "rent"]).
  - repeat (constructor;
            [exists SYSTEM_PROGRAM_ID; split; [vm_compute; reflexivity | discriminate]|]).
    constructor.
  - reflexivity.
  - repeat (constructor; [split; vm_compute; reflexivity|]). constructor.
  - vm_compute. lia.
  - split; vm_compute; reflexivity.
Defined.

(** ** Account identifiers *)

Section Identifiers.

Lemma PublicKey_toBuffer_text text bytes :
  PublicKey_toBuffer (Some text) = Some bytes →
  length bytes = 32%nat ∧ Forall is_byte bytes ∧ bs58_encode bytes = text.
Proof.
  intros H. destruct (PublicKey_toBuffer_bytes _ _ H) as [Hlen Hb].
  split; [done|]. split; [done|].
  unfold PublicKey_toBuffer in H. cbn [mbind option_bind] in H.
  destruct (bs58_decode text) as [decoded|] eqn:Hd; [|done].
  cbn [mbind option_bind] in H.
  destruct (length decoded =? 32)%nat; [|done]. injection H as <-.
  by apply bs58_encode_decode.
Qed.

Lemma PublicKey_toBuffer_encode key :
  length key = 32%nat → Forall is_byte key →
  PublicKey_toBuffer (Some (bs58_encode key)) = Some key.
Proof.
  intros Hlen Hb. unfold PublicKey_toBuffer. cbn [mbind option_bind].
  rewrite bs58_decode_encode by done. cbn [mbind option_bind]. by rewrite Hlen.
Qed.

Lemma fill_step_other (accounts : list IdlAccount) : ∀ (prev : gmap string string) key,
  Forall (fun acc => names_system_program acc = true → acc_name acc ≠ key) accounts →
  fold_left (fun next acc =>
               if names_system_program acc then
                 if bool_decide (next !! acc_name acc = Some SYSTEM_PROGRAM_ID)
                 then next
                 else <[acc_name acc := SYSTEM_PROGRAM_ID]> next
               else next) accounts prev !! key
  = prev !! key.
Proof.
  induction accounts as [|acc r IH]; intros prev key H; cbn [fold_left]; [done|].
  inversion H as [|? ? Hacc Hr]; subst. rewrite IH by done.
  destruct (names_system_program acc); [|done].
  destruct (bool_decide _); [done|].
  apply lookup_insert_ne. by apply Hacc.
Qed.

Lemma fill_step_kept (accounts : list IdlAccount) : ∀ (prev : gmap string string) key,
  prev !! key = Some SYSTEM_PROGRAM_ID →
  fold_left (fun next acc =>
               if names_system_program acc then
                 if bool_decide (next !! acc_name acc = Some SYSTEM_PROGRAM_ID)
                 then next
                 else <[acc_name acc := SYSTEM_PROGRAM_ID]> next
               else next) accounts prev !! key
  = Some SYSTEM_PROGRAM_ID.
Proof.
  induction accounts as [|acc r IH]; intros prev key H; cbn [fold_left]; [done|].
  apply IH. destruct (names_system_program acc); [|done].
  destruct (bool_decide _); [done|].
  destruct (decide (acc_name acc = key)) as [->|Hne].
  - apply lookup_insert_eq.
  - by rewrite lookup_insert_ne.
Qed.

End Identifiers.

(** X18.  When a call with an account identifier for argument encodes,
    the identifier is written as 32 bytes after the discriminator, and a
    [pubkey] field decodes those bytes to the very text that was typed:
    only the base-58 form of 32 bytes, as the decoder shows it, is
    accepted. *)
Theorem X18_account_identifier_text_is_kept (instructionName : string) (arg : IdlArg)
    (argValues : gmap string string) (text : string) (out : list Z) :
  toLowerCase (resolveArgType (arg_type arg)) = "pubkey"
  ∨ toLowerCase (resolveArgType (arg_type arg)) = "publickey" →
  argValues !! arg_name arg = Some text →
  encode (one_argument instructionName arg) argValues = Ok out →
  ∃ key,
    out = getInstructionDiscriminator instructionName ++ key
    ∧ length key = 32%nat
    ∧ decode_field key 0 TPubkey = Ok (text, 32).
Proof.
  intros Htype Hvalue Hout.
  assert (Hown : reads_inherited argValues (arg_name arg) = false)
    by (by apply (reads_inherited_value _ _ text)).
  destruct (encode_one_inv _ _ _ _ Hown Hout) as [bytes Hbytes].
  assert (Hkey : PublicKey_toBuffer (Some text) = Some bytes).
  { rewrite Hvalue in Hbytes. unfold arg_bytes in Hbytes. cbv zeta in Hbytes.
    by destruct Htype as [Ht | Ht]; rewrite Ht in Hbytes. }
  destruct (PublicKey_toBuffer_text _ _ Hkey) as (Hlen & Hb & Henc).
  exists bytes. split; [|split; [done|]].
  - rewrite (encode_one instructionName arg argValues bytes) in Hout;
      [by injection Hout | by split | unfold capacity; lia].
  - unfold decode_field. cbn [numericTypes].
    rewrite ensureBytes_enough by lia. unbind.
    unfold subarray, PublicKey_toBase58. change (Z.to_nat 0) with O.
    by rewrite drop_0, take_ge, Henc by lia.
Qed.

Lemma X18_account_identifier_text_is_kept_witness :
  ∃ key,
    getInstructionDiscriminator "setOwner" ++ replicate 32 0
    = getInstructionDiscriminator "setOwner" ++ key
    ∧ length key = 32%nat
    ∧ decode_field key 0 TPubkey = Ok (SYSTEM_PROGRAM_ID, 32).
Proof.
  apply (X18_account_identifier_text_is_kept "setOwner" (sample_arg "owner" "publicKey")
           {[ "owner" := SYSTEM_PROGRAM_ID ]} SYSTEM_PROGRAM_ID).
  - right. reflexivity.
  - vm_compute. reflexivity.
  - apply encode_one; [split; vm_compute; reflexivity | vm_compute; lia].
Defined.

(** X19.  [isValidProgramId] accepts exactly the base-58 forms of the
    sequences of 32 bytes. *)
Theorem X19_valid_program_ids (value : string) :
  isValidProgramId value = true
  ↔ ∃ key, length key = 32%nat ∧ Forall is_byte key ∧ value = bs58_encode key.
Proof.
  unfold isValidProgramId. split.
  - destruct (PublicKey_toBuffer (Some value)) as [bytes|] eqn:H; [|done].
    intros _. destruct (PublicKey_toBuffer_text _ _ H) as (Hlen & Hb & Henc).
    by exists bytes.
  - intros (key & Hlen & Hb & ->). by rewrite PublicKey_toBuffer_encode.
Qed.

(** X20.  The effect that fills in the system program gives every account
    of the instruction named [systemProgram] or [system_program], in any
    case, the identifier of the system program, a valid public key of 32
    zero bytes, so that [handleSend] finds a value for it; the values
    under the names of no such account are as before. *)
Theorem X20_system_program_is_filled_in (instruction : IdlInstruction)
    (prev : gmap string string) (acc : IdlAccount) :
  In acc (accounts instruction) →
  names_system_program acc = true →
  fill_system_program instruction prev !! acc_name acc = Some SYSTEM_PROGRAM_ID
  ∧ has_value (fill_system_program instruction prev) acc
  ∧ PublicKey_toBuffer (fill_system_program instruction prev !! acc_name acc)
    = Some (replicate 32 0)
  ∧ (∀ key,
       Forall (fun other => names_system_program other = true → acc_name other ≠ key)
              (accounts instruction) →
       fill_system_program instruction prev !! key = prev !! key).
Proof.
  intros Hin Hsys.
  assert (Hfilled : fill_system_program instruction prev !! acc_name acc
                    = Some SYSTEM_PROGRAM_ID).
  { unfold fill_system_program. revert prev.
    induction (accounts instruction) as [|a r IH]; intros prev; [done|].
    cbn [fold_left]. destruct Hin as [-> | Hin]; [|by apply IH].
    apply fill_step_kept. rewrite Hsys.
    destruct (bool_decide _) eqn:Hd; [by apply bool_decide_eq_true in Hd|].
    apply lookup_insert_eq. }
  split; [done|]. split; [by exists SYSTEM_PROGRAM_ID|]. split.
  - rewrite Hfilled. vm_compute. reflexivity.
  - intros key Hother. by apply fill_step_other.
Qed.

Lemma X20_system_program_is_filled_in_witness :
  fill_system_program transfer_call ∅ !! acc_name system_program_account
  = Some SYSTEM_PROGRAM_ID
  ∧ has_value (fill_system_program transfer_call ∅) system_program_account
  ∧ PublicKey_toBuffer (fill_system_program transfer_call ∅ !! acc_name system_program_account)
    = Some (replicate 32 0)
  ∧ (∀ key,
       Forall (fun other => names_system_program other = true → acc_name other ≠ key)
              (accounts transfer_call) →
       fill_system_program transfer_call ∅ !! key = (∅ : gmap string string) !! key).
Proof.
  apply (X20_system_program_is_filled_in transfer_call ∅ system_program_account).
  - right. left. reflexivity.
  - reflexivity.
Defined.

(** ** Arguments after the first ones *)

Section Prefixes.

Implicit Types (c : cursor) (arg : IdlArg) (buf : list Z).

Lemma set_bytes_keeps buf (pos from : Z) bytes :
  0 ≤ from ≤ pos →
  take (Z.to_nat from) (set_bytes buf pos bytes) = take (Z.to_nat from) buf.
Proof.
  intros H. rewrite <- (Z2Nat.id pos) by lia. apply set_bytes_prefix. lia.
Qed.

Lemma writeIntLE_keeps ext min max buf v pos buf' from :
  writeIntLE ext min max buf v pos = Ok buf' → 0 ≤ from ≤ pos → pos < 2 ^ 32 →
  take (Z.to_nat from) buf' = take (Z.to_nat from) buf.
Proof.
  unfold writeIntLE. intros H Hfrom Hpos. rewrite Z.mod_small in H by lia.
  destruct (checkInt _ _ _ _ _ _); [|done]. unbind. injection H as <-.
  by apply set_bytes_keeps.
Qed.

Lemma encode_wide_keeps c arg value typeName c' :
  encode_wide c arg value typeName = Ok c' → 0 ≤ offset c → keeps c c' 36.
Proof.
  unfold encode_wide, writeBigIntToBuffer. intros H Hoff.
  destruct (BIGINT_BYTE_LENGTH typeName) as [byteLength|] eqn:Hlen; [|done].
  assert (Hb : 0 ≤ byteLength ≤ 36).
  { unfold BIGINT_BYTE_LENGTH in Hlen.
    repeat (destruct (String.eqb typeName _); [injection Hlen as <-; lia|]). done. }
  unbind.
  destruct (parseBigIntInput _ _); [|done].
  destruct (ensureBigIntRange _ _ _ _ _); [|done].
  injection H as <-. split; cbn [offset argsBuffer]; [lia|].
  rewrite write_loop_le_bytes. apply set_bytes_keeps. lia.
Qed.

Lemma encode_narrow_keeps bits ext umin umax smin smax c arg value rt tn c' :
  encode_narrow bits (writeIntLE ext umin umax) (writeIntLE ext smin smax)
                c arg value rt tn = Ok c' →
  0 ≤ bits / 8 ≤ 36 → 0 ≤ offset c < 2 ^ 32 → keeps c c' 36.
Proof.
  unfold encode_narrow. unbind. intros H Hbits Hoff.
  destruct (parseIntegerInput _ _); [|done].
  destruct (ensureNumberRange _ _ _ _ _); [|done].
  destruct (startsWith "u" tn).
  - destruct (writeIntLE ext umin umax _ _ _) eqn:Hw; [|done]. injection H as <-.
    split; cbn [offset argsBuffer]; [lia|].
    eapply writeIntLE_keeps; [exact Hw | lia | lia].
  - destruct (writeIntLE ext smin smax _ _ _) eqn:Hw; [|done]. injection H as <-.
    split; cbn [offset argsBuffer]; [lia|].
    eapply writeIntLE_keeps; [exact Hw | lia | lia].
Qed.

Lemma encode_text_keeps c value c' :
  encode_text c value = Ok c' → 0 ≤ offset c < 2 ^ 32 → keeps c c' (extent value).
Proof.
  unfold encode_text, extent. unbind. intros H Hoff.
  destruct (writeUInt32LE _ _ _) eqn:Hw; [|done]. injection H as <-.
  split; cbn [offset argsBuffer]; [lia|].
  unfold Buffer_copy. rewrite set_bytes_keeps by lia.
  eapply writeIntLE_keeps; [exact Hw | lia | lia].
Qed.

Lemma encode_bool_keeps c arg value c' :
  encode_bool c arg value = Ok c' → 0 ≤ offset c < 2 ^ 32 → keeps c c' 36.
Proof.
  unfold encode_bool. unbind. intros H Hoff.
  destruct (_ || _).
  - destruct (writeUInt8 _ _ _) eqn:Hw; [|done]. injection H as <-.
    split; cbn [offset argsBuffer]; [lia|].
    eapply writeIntLE_keeps; [exact Hw | lia | lia].
  - destruct (_ || _); [|done].
    destruct (writeUInt8 _ _ _) eqn:Hw; [|done]. injection H as <-.
    split; cbn [offset argsBuffer]; [lia|].
    eapply writeIntLE_keeps; [exact Hw | lia | lia].
Qed.

Lemma encode_pubkey_keeps c arg value c' :
  encode_pubkey c arg value = Ok c' → 0 ≤ offset c → keeps c c' 36.
Proof.
  unfold encode_pubkey. intros H Hoff.
  destruct (PublicKey_toBuffer value); [|done]. injection H as <-.
  split; cbn [offset argsBuffer]; [lia|].
  unfold Buffer_copy. apply set_bytes_keeps. lia.
Qed.

Lemma keeps_more c c' room room' : keeps c c' room → room ≤ room' → keeps c c' room'.
Proof. intros [H1 H2] H. split; [lia | done]. Qed.

Lemma extent_least value : 36 ≤ extent value.
Proof. unfold extent. lia. Qed.

(** No argument touches the bytes before the write offset. *)
Lemma encode_arg_keeps c arg value c' :
  encode_arg c arg value = Ok c' → 0 ≤ offset c < 2 ^ 32 → keeps c c' (extent value).
Proof.
  intros H Hoff. pose proof (extent_least value) as Hext.
  revert H. unfold encode_arg. cbv zeta.
  unfold writeUInt32LE, writeInt32LE, writeUInt16LE, writeInt16LE, writeUInt8, writeInt8.
  repeat match goal with
         | |- (if ?b then _ else _) = _ → _ => destruct b
         end;
    intros H;
    first [ by apply encode_text_keeps
          | apply (keeps_more c c' 36); [|done];
            first [ eapply encode_wide_keeps; [exact H | lia]
                  | eapply encode_bool_keeps; [exact H | lia]
                  | eapply encode_pubkey_keeps; [exact H | lia]
                  | eapply encode_narrow_keeps;
                    [exact H | vm_compute; split; discriminate | done] ] ].
Qed.

Lemma inherited_length_small key len : inherited_length key = Some len → 0 ≤ len ≤ 2.
Proof.
  unfold inherited_length, object_prototype. cbn [find fst].
  repeat (destruct (String.eqb _ key); [intros [= <-]; lia|]). done.
Qed.

Lemma encode_array_like_keeps c key c' :
  encode_array_like c key = Ok c' → 0 ≤ offset c < 2 ^ 32 → keeps c c' 36.
Proof.
  unfold encode_array_like. intros H Hoff.
  destruct (inherited_length key) as [len|] eqn:Hlen; [|done].
  apply inherited_length_small in Hlen. cbv zeta in H. unbind.
  destruct (writeUInt32LE _ _ _) eqn:Hw; [|done]. injection H as <-.
  split; cbn [offset argsBuffer]; [rewrite length_replicate; lia|].
  unfold Buffer_copy. rewrite set_bytes_keeps by lia.
  eapply writeIntLE_keeps; [exact Hw | lia | lia].
Qed.

Lemma encode_inherited_keeps c arg c' :
  encode_inherited c arg = Ok c' → 0 ≤ offset c < 2 ^ 32 → keeps c c' 36.
Proof.
  unfold encode_inherited. cbv zeta.
  repeat match goal with
         | |- (if ?b then _ else _) = _ → _ => destruct b
         end;
    first [ done | apply encode_array_like_keeps ].
Qed.

Lemma encode_step_keeps c arg argValues c' :
  encode_step c arg argValues = Ok c' → 0 ≤ offset c < 2 ^ 32 →
  keeps c c' (extent (argValues !! arg_name arg)).
Proof.
  unfold encode_step. destruct (reads_inherited _ _).
  - intros H Hoff. apply (keeps_more c c' 36); [|apply extent_least].
    by apply (encode_inherited_keeps c arg).
  - apply encode_arg_keeps.
Qed.

Lemma encode_args_keeps args : ∀ c argValues c',
  encode_args c args argValues = Ok c' →
  0 ≤ offset c →
  offset c - 8 + reach args argValues < 2 ^ 32 →
  keeps c c' (reach args argValues - 8).
Proof.
  induction args as [|arg rest IH]; intros c argValues c' H Hoff Hreach;
    cbn [encode_args reach fold_right] in *.
  - injection H as <-. split; [lia | done].
  - fold (reach rest argValues) in *. unbind.
    destruct (encode_step c arg argValues) as [c1|] eqn:H1; [|done].
    pose proof (extent_least (argValues !! arg_name arg)) as Hext.
    assert (Hrest : 8 ≤ reach rest argValues).
    { clear. induction rest as [|a r IHr]; cbn [reach fold_right]; [lia|].
      fold (reach r argValues). pose proof (extent_least (argValues !! arg_name a)). lia. }
    destruct (encode_step_keeps _ _ _ _ H1) as [Ho1 Hp1]; [lia|].
    destruct (IH c1 argValues c' H) as [Ho2 Hp2]; [lia | lia|].
    split; [lia|].
    rewrite <- Hp1.
    assert (Hin : ∀ l : list Z, take (Z.to_nat (offset c)) l
                    = take (Z.to_nat (offset c)) (take (Z.to_nat (offset c1)) l)).
    { intros l. rewrite take_take. f_equal. lia. }
    by rewrite (Hin (argsBuffer c')), Hp2, <- Hin.
Qed.

Lemma encode_args_app before : ∀ after c argValues c',
  encode_args c (before ++ after) argValues = Ok c' →
  ∃ c1, encode_args c before argValues = Ok c1 ∧ encode_args c1 after argValues = Ok c'.
Proof.
  induction before as [|arg rest IH]; intros after c argValues c'; cbn [app encode_args].
  - intros H. by exists c.
  - unbind. destruct (encode_step c arg argValues) as [c1|]; [|done]. apply IH.
Qed.

Lemma reach_app before after argValues :
  reach (before ++ after) argValues = reach before argValues + reach after argValues - 8.
Proof.
  unfold reach. induction before as [|arg rest IH]; cbn [app fold_right]; [lia|].
  rewrite IH. lia.
Qed.

Lemma reach_least args argValues : 8 ≤ reach args argValues.
Proof.
  induction args as [|a r IH]; cbn [reach fold_right]; [lia|].
  fold (reach r argValues). pose proof (extent_least (argValues !! arg_name a)). lia.
Qed.

End Prefixes.

(** X21.  The bytes of a call do not depend on the arguments declared
    after them, nor on the accounts: when a call with the arguments
    [before ++ after] encodes (the texts being shorter than 2^32 bytes in
    all), the call with the arguments [before] encodes too, to a prefix
    of the same bytes, and the first 8 bytes are the discriminator. *)
Theorem X21_further_arguments_extend_the_bytes (instructionName : string)
    (accounts1 accounts2 : list IdlAccount) (before after : list IdlArg)
    (argValues : gmap string string) (out : list Z) :
  encode {| name := instructionName; accounts := accounts1; args := before ++ after |}
         argValues = Ok out →
  reach (before ++ after) argValues < 2 ^ 32 →
  ∃ first,
    encode {| name := instructionName; accounts := accounts2; args := before |} argValues
    = Ok first
    ∧ first `prefix_of` out
    ∧ take 8 out = getInstructionDiscriminator instructionName.
Proof.
  unfold encode. cbn [args]. unbind.
  set (c := start {| name := instructionName; accounts := accounts1;
                     args := before ++ after |}).
  change (start {| name := instructionName; accounts := accounts2; args := before |})
    with c.
  destruct (encode_args c (before ++ after) argValues) as [c'|] eqn:H; [|done].
  intros [= <-] Hreach.
  destruct (encode_args_app _ _ _ _ _ H) as (c1 & H1 & H2).
  rewrite H1. exists (slice (argsBuffer c1) 0 (offset c1)). split; [done|].
  rewrite reach_app in Hreach.
  pose proof (reach_least before argValues) as Hb.
  pose proof (reach_least after argValues) as Ha.
  change (offset c) with 8 in *.
  destruct (encode_args_keeps _ _ _ _ H1) as [Ho1 Hp1]; [done | change (offset c) with 8; lia|].
  change (offset c) with 8 in Ho1.
  destruct (encode_args_keeps _ _ _ _ H2) as [Ho2 Hp2]; [lia | lia|].
  change (offset c) with 8 in *.
  unfold slice. change (Z.to_nat 0) with O. rewrite !drop_0. split.
  - rewrite <- Hp2.
    exists (drop (Z.to_nat (offset c1)) (take (Z.to_nat (offset c')) (argsBuffer c'))).
    rewrite <- (take_drop (Z.to_nat (offset c1)) (take (Z.to_nat (offset c')) _)) at 1.
    f_equal. rewrite take_take. f_equal. lia.
  - rewrite take_take.
    replace (8 `min` Z.to_nat (offset c'))%nat with 8%nat by lia.
    assert (Hin : take 8 (argsBuffer c') = take 8 (take (Z.to_nat (offset c1)) (argsBuffer c'))).
    { rewrite take_take. f_equal. lia. }
    rewrite Hin, Hp2.
    rewrite take_take. replace (8 `min` Z.to_nat (offset c1))%nat with 8%nat by lia.
    change (Z.to_nat 8) with 8%nat in Hp1. rewrite Hp1.
    apply (start_prefix {| name := instructionName; accounts := accounts1;
                           args := before ++ after |}).
Qed.

Lemma X21_further_arguments_extend_the_bytes_witness :
  ∃ first,
    encode {| name := "transferTokens"; accounts := [];
              args := [sample_arg "amount" "u64"] |} transfer_args
    = Ok first
    ∧ first `prefix_of` (getInstructionDiscriminator (name transfer_call)
                         ++ concat (map value_bytes transfer_values))
    ∧ take 8 (getInstructionDiscriminator (name transfer_call)
              ++ concat (map value_bytes transfer_values))
      = getInstructionDiscriminator "transferTokens".
Proof.
  apply (X21_further_arguments_extend_the_bytes "transferTokens"
           [authority_account; system_program_account] []
           [sample_arg "amount" "u64"]
           [sample_arg "memo" "string"; sample_arg "urgent" "bool"] transfer_args).
  - apply (encode_accepted transfer_call transfer_args (map value_bytes transfer_values)).
    + repeat (constructor; [split; vm_compute; reflexivity|]). constructor.
    + vm_compute. lia.
  - vm_compute. reflexivity.
Defined.
